(** * Guichê Master backend: order ledger, PIX key registry and analytics

    A shallow embedding of [src/backend/server.js] (the complete, second
    listing of the file, lines 480-1214) and the properties of its
    specification that were checked against it.

    Conventions of the embedding:
    - instants are milliseconds since the epoch, in [Z]; an ISO-8601
      timestamp string ([toISOString]) is kept as the instant it renders;
    - a request field that may be missing from the JSON body is an
      [option] ([None] is JavaScript's [undefined]);
    - JSON numbers are rationals ([Q]): every finite double is one; where
      the code adds numbers, they are doubles ([float]) and the sum is the
      IEEE 754 sum;
    - the module-level variables [pixKeys], [orders] and [analytics] form
      the [State]; PIX key objects live in a heap, and arrays and locals
      hold references to them, as in JavaScript;
    - the clock, [Math.random] and [uuidv4] are oracles of the [World],
      consulted in the order in which the code calls them; so is the
      engine's rendering of a fraction in radix 36, whose digits
      ECMAScript leaves to the engine;
    - [analytics.events] is an object used as a map: its own properties are
      a finite map, and the names it inherits from [Object.prototype] are
      listed, since the code reads them as it reads its own. *)

From Stdlib Require Import ZArith NArith QArith String Ascii List Lia Bool.
From Stdlib Require Import PrimFloat.
From stdpp Require Import base list gmap strings.

Local Open Scope Z_scope.

(* ================================================================= *)
(** ** JavaScript values *)

Inductive jsval : Type :=
| JUndefined
| JNull
| JBool (b : bool)
| JNum (q : Q)
| JStr (s : string).

(** ToBoolean, for the values JSON can carry. *)
Definition truthy (v : jsval) : bool :=
  match v with
  | JUndefined | JNull => false
  | JBool b => b
  | JNum q => negb (Qnum q =? 0)
  | JStr EmptyString => false
  | JStr (String _ _) => true
  end.

(** [a || b] *)
Definition js_or (a b : jsval) : jsval := if truthy a then a else b.

(** Truthiness of an optional string field: [undefined] and [''] are falsy. *)
Definition present (o : option string) : bool :=
  match o with
  | Some (String _ _) => true
  | _ => false
  end.

(* ================================================================= *)
(** ** Strings *)

Definition is_digit (c : ascii) : bool :=
  let n := nat_of_ascii c in (48 <=? n)%nat && (n <=? 57)%nat.

Definition upper_ascii (c : ascii) : ascii :=
  let n := nat_of_ascii c in
  if (97 <=? n)%nat && (n <=? 122)%nat then ascii_of_nat (n - 32) else c.

(** [s.toUpperCase()], on the ASCII range. *)
Fixpoint toUpperCase (s : string) : string :=
  match s with
  | EmptyString => EmptyString
  | String c r => String (upper_ascii c) (toUpperCase r)
  end.

(** [s.replace(/\D/g, '')] *)
Fixpoint strip_non_digits (s : string) : string :=
  match s with
  | EmptyString => EmptyString
  | String c r =>
      if is_digit c then String c (strip_non_digits r) else strip_non_digits r
  end.

(** [s.substring(from, to)]: the characters at indices [from] to [to - 1],
    as many of them as [s] has; the arguments are swapped when [to < from]. *)
Definition js_substring (from to : nat) (s : string) : string :=
  if (to <? from)%nat then substring to (from - to) s
  else substring from (to - from) s.

(** The digit of value [d] in radix 36: [0-9] then [a-z]. *)
Definition digit36 (d : N) : ascii :=
  if (d <? 10)%N then ascii_of_N (48 + d) else ascii_of_N (87 + d).

(** Digits of a natural number in radix 36, most significant first. *)
Fixpoint nat_digits36 (fuel : nat) (n : N) (acc : string) : string :=
  match fuel with
  | O => acc
  | S f =>
      let acc' := String (digit36 (n mod 36)) acc in
      if (n <? 36)%N then acc' else nat_digits36 f (n / 36) acc'
  end.

(** [n.toString(36)] for an integer [n]. *)
Definition toString36 (n : Z) : string :=
  let m := Z.to_N (Z.abs n) in
  let ds := nat_digits36 (S (N.to_nat (N.log2 m))) m EmptyString in
  if n <? 0 then String "-"%char ds else ds.

(** [Math.random()] returns a double in [0, 1); it is kept as the
    numerator [k] of [k / 2^53]. *)
Definition random_den : N := 2 ^ 53.

(* ================================================================= *)
(** ** The environment: clock, random source, identifier source *)

Record World : Type := {
  clock : nat → Z;            (* the n-th reading of the system clock *)
  clock_reads : nat;
  random : nat → N;           (* the n-th draw of Math.random, as a numerator *)
  random_draws : nat;
  uuid : nat → string;        (* the n-th identifier returned by uuidv4 *)
  uuid_calls : nat;
  radix36 : N → string        (* x.toString(36) for x = k / 2^53, as the engine
                                 prints it *)
}.

Definition IO (A : Type) : Type := World → A * World.

#[global] Instance IO_ret : MRet IO := λ A x w, (x, w).
#[global] Instance IO_bind : MBind IO :=
  λ A B f m w, let '(x, w') := m w in f x w'.

(** [Date.now()], [new Date()] *)
Definition date_now : IO Z := λ w,
  (clock w (clock_reads w),
   {| clock := clock w; clock_reads := S (clock_reads w);
      random := random w; random_draws := random_draws w;
      uuid := uuid w; uuid_calls := uuid_calls w; radix36 := radix36 w |}).

(** [Math.random()] *)
Definition math_random : IO N := λ w,
  ((random w (random_draws w) mod random_den)%N,
   {| clock := clock w; clock_reads := clock_reads w;
      random := random w; random_draws := S (random_draws w);
      uuid := uuid w; uuid_calls := uuid_calls w; radix36 := radix36 w |}).

(** [uuidv4()] *)
Definition uuidv4 : IO string := λ w,
  (uuid w (uuid_calls w),
   {| clock := clock w; clock_reads := clock_reads w;
      random := random w; random_draws := random_draws w;
      uuid := uuid w; uuid_calls := S (uuid_calls w); radix36 := radix36 w |}).

(** [x.toString(36)] for the double [x = k / 2^53] in [0, 1). The digits
    of a rendering in a radix other than ten are left to the engine by
    ECMAScript (V8 prints the shortest digits that identify the double),
    so the rendering is read from the world. *)
Definition number_toString36 (k : N) : IO string := λ w, (radix36 w k, w).

(** [Math.floor(r * n)] for [r = k / 2^53]. *)
Definition random_index (k : N) (n : nat) : nat :=
  N.to_nat (k * N.of_nat n / random_den).

(* ================================================================= *)
(** ** Data model *)

Definition loc := nat.

(** A PIX key object. The registry's objects carry every field; the
    object literal stored in an order has only [id], [key], [type] and
    [name], the other fields being [undefined]. *)
Record KeyObj : Type := {
  key_id : string;
  key_key : string;
  key_type : string;
  key_name : string;
  key_active : option bool;
  key_createdAt : option Z;
  key_updatedAt : option Z
}.

Inductive OrderStatus : Type := pending | paid.

Record Customer : Type := {
  cust_name : string;
  cust_email : string;
  cust_cpf : string;
  cust_phone : string
}.

Record Item : Type := {
  item_title : jsval;
  item_unitPrice : jsval;
  item_quantity : jsval
}.

Record Order : Type := {
  order_id : string;
  order_code : string;
  order_customer : Customer;
  order_items : list Item;
  order_total : jsval;
  order_pixKey : loc;          (* reference to the object literal of the order *)
  order_status : OrderStatus;
  order_createdAt : Z;
  order_expiresAt : Z;
  order_paidAt : option Z
}.

(** *** Analytics records *)

Record PageView : Type := {
  pv_id : string;
  pv_page : option string;
  pv_eventId : option string;
  pv_sessionId : option string;
  pv_referrer : option string;
  pv_userAgent : option string;
  pv_ip : option string;
  pv_timestamp : Z
}.

Inductive ConversionStatus : Type := started | completed.

Record Conversion : Type := {
  conv_id : string;
  conv_eventId : option string;
  conv_sessionId : option string;
  conv_items : jsval;
  conv_total : jsval;
  conv_status : ConversionStatus;
  conv_timestamp : Z;
  conv_orderId : option string;
  conv_completedAt : option Z
}.

Record Clicks : Type := {
  clk_ingressos : nat;
  clk_info : nat;
  clk_local : nat;
  clk_pdv : nat;
  clk_checkout : nat
}.

Record EventStats : Type := {
  ev_views : nat;
  ev_uniqueViews : gset (option string);
  ev_clicks : Clicks;
  ev_ticketSelections : list (option string * Z);
  ev_checkouts : nat;
  ev_conversions : nat;
  ev_totalRevenue : float
}.

Record Analytics : Type := {
  an_pageViews : list PageView;
  an_events : gmap string EventStats;
  an_sessions : list string;
  an_conversions : list Conversion
}.

(** *** The process state: [pixKeys], [orders], [analytics] and the heap
    of PIX key objects they refer to. *)

Record State : Type := {
  heap : list KeyObj;
  pixKeys : list loc;
  orders : list Order;
  analytics : Analytics
}.

(** *** Responses *)

Inductive ApiError : Type :=
| IncompleteCustomer      (* 400 'Dados do cliente incompletos' *)
| EmptyCart               (* 400 'Nenhum item no carrinho' *)
| NoPixKeyAvailable       (* 500 'Nenhuma chave PIX disponível' *)
| OrderNotFound           (* 404 'Pedido não encontrado' *)
| MissingKeyFields        (* 400 'Campos obrigatórios: key, type, name' *)
| KeyLimitReached         (* 400 'Limite de 5 chaves atingido' *)
| KeyAlreadyRegistered    (* 400 'Chave já cadastrada' *)
| KeyNotFound             (* 404 'Chave não encontrada' *)
| InvalidAccessKey        (* 401 'Chave de acesso inválida' *)
| Unauthorized            (* 401 'Não autorizado' *)
| InternalError.          (* 500, the [catch] branch of a handler *)

Definition http_status (e : ApiError) : nat :=
  match e with
  | IncompleteCustomer | EmptyCart | MissingKeyFields
  | KeyLimitReached | KeyAlreadyRegistered => 400
  | InvalidAccessKey | Unauthorized => 401
  | OrderNotFound | KeyNotFound => 404
  | NoPixKeyAvailable | InternalError => 500
  end.

Definition error_text (e : ApiError) : string :=
  match e with
  | IncompleteCustomer => "Dados do cliente incompletos"
  | EmptyCart => "Nenhum item no carrinho"
  | NoPixKeyAvailable => "Nenhuma chave PIX disponível"
  | OrderNotFound => "Pedido não encontrado"
  | MissingKeyFields => "Campos obrigatórios: key, type, name"
  | KeyLimitReached => "Limite de 5 chaves atingido"
  | KeyAlreadyRegistered => "Chave já cadastrada"
  | KeyNotFound => "Chave não encontrada"
  | InvalidAccessKey => "Chave de acesso inválida"
  | Unauthorized => "Não autorizado"
  | InternalError => "Erro interno do servidor"
  end.

Inductive Result (A : Type) : Type :=
| Ok (a : A)
| Err (e : ApiError).
Arguments Ok {A} a.
Arguments Err {A} e.

(* ================================================================= *)
(** ** Requests *)

(** The [customer] object of the body of [POST /api/payment]; a field
    that is present holds a string. *)
Record CustomerInput : Type := {
  ci_name : option string;
  ci_email : option string;
  ci_cpf : option string;
  ci_phone : option string
}.

(** An element of [items]: an object; each of its fields holds a JSON
    scalar, or [JUndefined] when it is missing. *)
Record ItemInput : Type := {
  ii_title : jsval;
  ii_unitPrice : jsval;
  ii_unit_price : jsval;
  ii_quantity : jsval
}.

Record PaymentBody : Type := {
  pb_customer : option CustomerInput;
  pb_items : option (list ItemInput);
  pb_total : jsval
}.

(** The body of [POST] and [PUT /api/admin/pix-keys]: strings and a
    boolean, each possibly missing. *)
Record KeyBody : Type := {
  kb_key : option string;
  kb_type : option string;
  kb_name : option string;
  kb_active : option bool
}.

Record PaymentResponse : Type := {
  pr_id : string;
  pr_code : string;
  pr_status : OrderStatus;
  pr_expiresAt : Z;
  pr_pix_key : string;
  pr_pix_type : string;
  pr_pix_name : string;
  pr_total : jsval
}.

Record ConfirmResponse : Type := {
  cr_id : string;
  cr_code : string;
  cr_status : OrderStatus;
  cr_paidAt : option Z
}.

Record OrderView : Type := {
  ov_id : string;
  ov_code : string;
  ov_status : OrderStatus;
  ov_total : jsval;
  ov_customer_name : string;
  ov_customer_email : string;
  ov_items : list Item;
  ov_createdAt : Z;
  ov_expiresAt : Z;
  ov_paidAt : option Z
}.

(* ================================================================= *)
(** ** State updates *)

Definition set_keys (h : list KeyObj) (ks : list loc) (s : State) : State :=
  {| heap := h; pixKeys := ks; orders := orders s; analytics := analytics s |}.

Definition set_orders (h : list KeyObj) (os : list Order) (s : State) : State :=
  {| heap := h; pixKeys := pixKeys s; orders := os; analytics := analytics s |}.

Definition set_analytics (a : Analytics) (s : State) : State :=
  {| heap := heap s; pixKeys := pixKeys s; orders := orders s; analytics := a |}.

(** The module-level initialisation: one seed key, no orders, empty
    analytics. [t0] is the clock at load time. *)
Definition seed_key (t0 : Z) : KeyObj :=
  {| key_id := "1";
     key_key := "a9d156cf-2e35-4728-b5de-5bd3191f0485";
     key_type := "cpf";
     key_name := "Empresa LTDA";
     key_active := Some true;
     key_createdAt := Some t0;
     key_updatedAt := None |}.

Definition empty_analytics : Analytics :=
  {| an_pageViews := []; an_events := ∅; an_sessions := []; an_conversions := [] |}.

Definition initial_state (t0 : Z) : State :=
  {| heap := [seed_key t0]; pixKeys := [0%nat]; orders := [];
     analytics := empty_analytics |}.

(* ================================================================= *)
(** ** Array helpers *)

(** [arr.find(p)] together with the index [arr.findIndex(p)] reports. *)
Fixpoint find_from {A : Type} (p : A → bool) (l : list A) (i : nat)
  : option (nat * A) :=
  match l with
  | [] => None
  | x :: r => if p x then Some (i, x) else find_from p r (S i)
  end.

Definition js_find {A : Type} (p : A → bool) (l : list A) : option (nat * A) :=
  find_from p l 0.

(** A predicate on key objects, read through a reference. *)
Definition key_test (h : list KeyObj) (p : KeyObj → bool) (l : loc) : bool :=
  match h !! l with
  | Some k => p k
  | None => false
  end.

(** [k => k.active] *)
Definition is_active (k : KeyObj) : bool :=
  match key_active k with
  | Some b => b
  | None => false
  end.

(* ================================================================= *)
(** ** Auxiliary functions of the server *)

(** [pixKeys.filter(k => k.active)] *)
Definition active_refs (s : State) : list loc :=
  List.filter (key_test (heap s) is_active) (pixKeys s).

(** [getRandomPixKey()]: a reference to one of the active registry
    objects, or [null]. The random source is consulted only when some key
    is active. *)
Definition getRandomPixKey (s : State) : IO (option loc) :=
  let activeKeys := active_refs s in
  match activeKeys with
  | [] => mret None
  | _ :: _ =>
      r ← math_random;
      mret (activeKeys !! random_index r (length activeKeys))
  end.

(** [generateOrderCode()] *)
Definition generateOrderCode : IO string :=
  let prefix := "GM"%string in
  now ← date_now;
  let timestamp := toUpperCase (toString36 now) in
  r ← math_random;
  text ← number_toString36 r;
  let random := toUpperCase (js_substring 2 6 text) in
  mret (prefix +:+ "-" +:+ timestamp +:+ "-" +:+ random)%string.

(* ================================================================= *)
(** ** Order endpoints *)

Definition fail {A : Type} (e : ApiError) (s : State) : IO (Result A * State) :=
  mret (Err e, s).

(** [customer.name && customer.email && customer.cpf] *)
Definition complete_customer (c : CustomerInput) : bool :=
  present (ci_name c) && present (ci_email c) && present (ci_cpf c).

(** The callback of [items.map]. *)
Definition normalize_item (item : ItemInput) : Item :=
  {| item_title := ii_title item;
     item_unitPrice := js_or (ii_unitPrice item) (ii_unit_price item);
     item_quantity := ii_quantity item |}.

Definition normalize_customer (c : CustomerInput) : Customer :=
  {| cust_name := default ""%string (ci_name c);
     cust_email := default ""%string (ci_email c);
     cust_cpf := strip_non_digits (default ""%string (ci_cpf c));
     cust_phone :=
       match ci_phone c with
       | Some p => strip_non_digits p
       | None => ""%string
       end |}.

(** The object literal [{ id: pixKey.id, key: pixKey.key, type: pixKey.type,
    name: pixKey.name }]. *)
Definition key_snapshot (k : KeyObj) : KeyObj :=
  {| key_id := key_id k; key_key := key_key k;
     key_type := key_type k; key_name := key_name k;
     key_active := None; key_createdAt := None; key_updatedAt := None |}.

Definition thirty_minutes : Z := 30 * 60 * 1000.

(** [POST /api/payment] *)
Definition post_payment (body : PaymentBody) (s : State)
  : IO (Result PaymentResponse * State) :=
  match pb_customer body with
  | None => fail IncompleteCustomer s
  | Some customer =>
  if negb (complete_customer customer) then fail IncompleteCustomer s
  else
  match pb_items body with
  | None | Some [] => fail EmptyCart s
  | Some items =>
    pixKey ← getRandomPixKey s;
    match pixKey with
    | None => fail NoPixKeyAvailable s
    | Some ref =>
    match heap s !! ref with
    | None => fail InternalError s
    | Some k =>
        id ← uuidv4;
        code ← generateOrderCode;
        createdAt ← date_now;
        now ← date_now;
        let snapshot := length (heap s) in
        let order :=
          {| order_id := id;
             order_code := code;
             order_customer := normalize_customer customer;
             order_items := map normalize_item items;
             order_total := pb_total body;
             order_pixKey := snapshot;
             order_status := pending;
             order_createdAt := createdAt;
             order_expiresAt := now + thirty_minutes;
             order_paidAt := None |} in
        mret (Ok {| pr_id := order_id order;
                    pr_code := order_code order;
                    pr_status := order_status order;
                    pr_expiresAt := order_expiresAt order;
                    pr_pix_key := key_key k;
                    pr_pix_type := key_type k;
                    pr_pix_name := key_name k;
                    pr_total := order_total order |},
              set_orders (heap s ++ [key_snapshot k]) (orders s ++ [order]) s)
    end
    end
  end
  end.

(** [o => o.id === orderId || o.code === orderId] *)
Definition order_matches (orderId : string) (o : Order) : bool :=
  String.eqb (order_id o) orderId || String.eqb (order_code o) orderId.

(** The assignments [order.status = 'paid'] and [order.paidAt = ...]. *)
Definition mark_paid (paidAt : Z) (order : Order) : Order :=
  {| order_id := order_id order;
     order_code := order_code order;
     order_customer := order_customer order;
     order_items := order_items order;
     order_total := order_total order;
     order_pixKey := order_pixKey order;
     order_status := paid;
     order_createdAt := order_createdAt order;
     order_expiresAt := order_expiresAt order;
     order_paidAt := Some paidAt |}.

(** [POST /api/payment/:orderId/confirm] *)
Definition post_confirm (orderId : string) (s : State)
  : IO (Result ConfirmResponse * State) :=
  match js_find (order_matches orderId) (orders s) with
  | None => fail OrderNotFound s
  | Some (i, order) =>
      paidAt ← date_now;
      let order' := mark_paid paidAt order in
      mret (Ok {| cr_id := order_id order';
                  cr_code := order_code order';
                  cr_status := order_status order';
                  cr_paidAt := order_paidAt order' |},
            set_orders (heap s) (<[i := order']> (orders s)) s)
  end.

Definition order_view (order : Order) : OrderView :=
  {| ov_id := order_id order;
     ov_code := order_code order;
     ov_status := order_status order;
     ov_total := order_total order;
     ov_customer_name := cust_name (order_customer order);
     ov_customer_email := cust_email (order_customer order);
     ov_items := order_items order;
     ov_createdAt := order_createdAt order;
     ov_expiresAt := order_expiresAt order;
     ov_paidAt := order_paidAt order |}.

(** [GET /api/order/:orderId] *)
Definition get_order (orderId : string) (s : State) : Result OrderView :=
  match js_find (order_matches orderId) (orders s) with
  | None => Err OrderNotFound
  | Some (_, order) => Ok (order_view order)
  end.

(* ================================================================= *)
(** ** Key registry endpoints *)

(** [pixKeys.findIndex(k => p(k))], with the reference and the object found
    there. *)
Fixpoint find_key (h : list KeyObj) (p : KeyObj → bool) (ks : list loc) (i : nat)
  : option (nat * loc * KeyObj) :=
  match ks with
  | [] => None
  | l :: r =>
      match h !! l with
      | Some k => if p k then Some (i, l, k) else find_key h p r (S i)
      | None => find_key h p r (S i)
      end
  end.

(** [GET /api/admin/pix-keys]: the registry's objects, their number and
    the number of active ones. *)
Definition get_pix_keys (s : State) : list KeyObj * nat * nat :=
  (omap (λ l, heap s !! l) (pixKeys s),
   length (pixKeys s),
   length (active_refs s)).

(** [POST /api/admin/pix-keys] *)
Definition post_pix_key (body : KeyBody) (s : State)
  : IO (Result KeyObj * State) :=
  if negb (present (kb_key body) && present (kb_type body) && present (kb_name body))
  then fail MissingKeyFields s
  else if (5 <=? length (pixKeys s))%nat then fail KeyLimitReached s
  else
    let key := default ""%string (kb_key body) in
    if existsb (key_test (heap s) (λ k, String.eqb (key_key k) key)) (pixKeys s)
    then fail KeyAlreadyRegistered s
    else
      id ← uuidv4;
      createdAt ← date_now;
      let newKey :=
        {| key_id := id;
           key_key := key;
           key_type := default ""%string (kb_type body);
           key_name := default ""%string (kb_name body);
           key_active := Some true;
           key_createdAt := Some createdAt;
           key_updatedAt := None |} in
      mret (Ok newKey,
            set_keys (heap s ++ [newKey]) (pixKeys s ++ [length (heap s)]) s).

(** The assignments of [PUT /api/admin/pix-keys/:id] to the object found. *)
Definition merge_key (body : KeyBody) (updatedAt : Z) (k : KeyObj) : KeyObj :=
  {| key_id := key_id k;
     key_key := default (key_key k) (kb_key body);
     key_type := default (key_type k) (kb_type body);
     key_name := default (key_name k) (kb_name body);
     key_active :=
       match kb_active body with
       | Some b => Some b
       | None => key_active k
       end;
     key_createdAt := key_createdAt k;
     key_updatedAt := Some updatedAt |}.

(** [PUT /api/admin/pix-keys/:id] *)
Definition put_pix_key (id : string) (body : KeyBody) (s : State)
  : IO (Result KeyObj * State) :=
  match find_key (heap s) (λ k, String.eqb (key_id k) id) (pixKeys s) 0 with
  | None => fail KeyNotFound s
  | Some (keyIndex, ref, k) =>
      updatedAt ← date_now;
      let k' := merge_key body updatedAt k in
      mret (Ok k', set_keys (<[ref := k']> (heap s)) (pixKeys s) s)
  end.

(** [DELETE /api/admin/pix-keys/:id] *)
Definition delete_pix_key (id : string) (s : State) : Result unit * State :=
  match find_key (heap s) (λ k, String.eqb (key_id k) id) (pixKeys s) 0 with
  | None => (Err KeyNotFound, s)
  | Some (keyIndex, _, _) =>
      (Ok tt, set_keys (heap s) (delete keyIndex (pixKeys s)) s)
  end.

(* ================================================================= *)
(** ** Analytics endpoints *)

Record PageviewBody : Type := {
  pvb_page : option string;
  pvb_eventId : option string;
  pvb_sessionId : option string;
  pvb_referrer : option string
}.

Record CheckoutBody : Type := {
  cb_eventId : option string;
  cb_sessionId : option string;
  cb_items : jsval;
  cb_total : jsval
}.

(** The body of [POST /api/analytics/conversion]; its [total] is a JSON
    number, kept as the double it is parsed to, or is missing. *)
Record ConversionBody : Type := {
  vb_eventId : option string;
  vb_orderId : option string;
  vb_sessionId : option string;
  vb_total : option float
}.

Definition set_events (ev : gmap string EventStats) (a : Analytics) : Analytics :=
  {| an_pageViews := an_pageViews a; an_events := ev;
     an_sessions := an_sessions a; an_conversions := an_conversions a |}.

Definition set_pageViews (pvs : list PageView) (a : Analytics) : Analytics :=
  {| an_pageViews := pvs; an_events := an_events a;
     an_sessions := an_sessions a; an_conversions := an_conversions a |}.

Definition set_conversions (cs : list Conversion) (a : Analytics) : Analytics :=
  {| an_pageViews := an_pageViews a; an_events := an_events a;
     an_sessions := an_sessions a; an_conversions := cs |}.

Definition new_event_stats : EventStats :=
  {| ev_views := 0;
     ev_uniqueViews := ∅;
     ev_clicks := {| clk_ingressos := 0; clk_info := 0; clk_local := 0;
                     clk_pdv := 0; clk_checkout := 0 |};
     ev_ticketSelections := [];
     ev_checkouts := 0;
     ev_conversions := 0;
     ev_totalRevenue := 0%float |}.

(** The names every object inherits from [Object.prototype], those of
    Annex B of ECMAScript included. Under each of them
    [analytics.events[name]] reads a function, or the prototype itself
    under [__proto__], when [events] has no property of its own of that
    name: a truthy value that is no statistics object. *)
Definition inherited_names : list string :=
  [ "constructor"%string; "__defineGetter__"%string;
    "__defineSetter__"%string; "hasOwnProperty"%string;
    "__lookupGetter__"%string; "__lookupSetter__"%string;
    "isPrototypeOf"%string; "propertyIsEnumerable"%string;
    "toString"%string; "valueOf"%string; "__proto__"%string;
    "toLocaleString"%string ].

Definition is_inherited (name : string) : bool :=
  existsb (String.eqb name) inherited_names.

(** [initEventAnalytics(eventId)]: [if (!analytics.events[eventId])]
    creates the entry. The test reads the property of the object itself
    when it has one, which is truthy, and an inherited one otherwise: no
    entry is created under an inherited name. *)
Definition initEventAnalytics (eventId : string) (a : Analytics) : Analytics :=
  match an_events a !! eventId with
  | Some _ => a
  | None =>
      if is_inherited eventId then a
      else set_events (<[eventId := new_event_stats]> (an_events a)) a
  end.

(** [analytics.events[eventId]] is an inherited value, after
    [initEventAnalytics(eventId)] as before it: the identifier is a
    non-empty inherited name and [events] has no entry of that name. *)
Definition reads_inherited (eventId : option string) (a : Analytics) : bool :=
  match eventId with
  | Some (String _ _ as e) =>
      match an_events a !! e with
      | Some _ => false
      | None => is_inherited e
      end
  | _ => false
  end.

(** [if (eventId) { initEventAnalytics(eventId); update }], for an update
    that assigns to counters of [analytics.events[eventId]]. On an
    inherited value the assignments change a function or the prototype and
    nothing of [analytics]: the entry altered here does not exist. What
    they leave there is [NaN], which is falsy, so that no further name
    reads as an entry afterwards. *)
Definition with_event (eventId : option string) (f : EventStats → EventStats)
    (a : Analytics) : Analytics :=
  match eventId with
  | Some (String _ _ as e) =>
      let a' := initEventAnalytics e a in
      set_events (alter f e (an_events a')) a'
  | _ => a
  end.

(** [POST /api/analytics/pageview]. The page view is stored first. On an
    inherited value [views++] changes nothing of [analytics] and
    [uniqueViews.add] throws, [uniqueViews] being [undefined] there: the
    page view stays stored, and the answer is 500 instead of 200. *)
Definition post_pageview (body : PageviewBody) (userAgent ip : option string)
    (s : State) : IO State :=
  id ← uuidv4;
  timestamp ← date_now;
  let pageView :=
    {| pv_id := id; pv_page := pvb_page body; pv_eventId := pvb_eventId body;
       pv_sessionId := pvb_sessionId body; pv_referrer := pvb_referrer body;
       pv_userAgent := userAgent; pv_ip := ip; pv_timestamp := timestamp |} in
  let a := set_pageViews (an_pageViews (analytics s) ++ [pageView]) (analytics s) in
  mret (set_analytics
          (with_event (pvb_eventId body)
             (λ e, {| ev_views := S (ev_views e);
                      ev_uniqueViews := ev_uniqueViews e ∪ {[ pvb_sessionId body ]};
                      ev_clicks := ev_clicks e;
                      ev_ticketSelections := ev_ticketSelections e;
                      ev_checkouts := ev_checkouts e;
                      ev_conversions := ev_conversions e;
                      ev_totalRevenue := ev_totalRevenue e |}) a) s).

(** The status [POST /api/analytics/pageview] answers with. *)
Definition pageview_status (body : PageviewBody) (s : State) : nat :=
  if reads_inherited (pvb_eventId body) (analytics s) then 500%nat else 200%nat.

(** [POST /api/analytics/checkout]; it throws for no event identifier,
    [checkouts++] on an inherited value being an assignment to a
    function or to the prototype. *)
Definition post_checkout (body : CheckoutBody) (s : State) : IO State :=
  let a :=
    with_event (cb_eventId body)
      (λ e, {| ev_views := ev_views e;
               ev_uniqueViews := ev_uniqueViews e;
               ev_clicks := ev_clicks e;
               ev_ticketSelections := ev_ticketSelections e;
               ev_checkouts := S (ev_checkouts e);
               ev_conversions := ev_conversions e;
               ev_totalRevenue := ev_totalRevenue e |}) (analytics s) in
  id ← uuidv4;
  timestamp ← date_now;
  let conversion :=
    {| conv_id := id; conv_eventId := cb_eventId body;
       conv_sessionId := cb_sessionId body; conv_items := cb_items body;
       conv_total := cb_total body; conv_status := started;
       conv_timestamp := timestamp; conv_orderId := None;
       conv_completedAt := None |} in
  mret (set_analytics (set_conversions (an_conversions a ++ [conversion]) a) s).

(** [a === b] on values that are strings or [undefined]. *)
Definition strict_eq (a b : option string) : bool :=
  match a, b with
  | Some x, Some y => String.eqb x y
  | None, None => true
  | _, _ => false
  end.

Definition is_started (c : Conversion) : bool :=
  match conv_status c with
  | started => true
  | completed => false
  end.

Definition is_completed (c : Conversion) : bool := negb (is_started c).

(** [c => c.sessionId === sessionId && c.status === 'started'] *)
Definition started_for (sessionId : option string) (c : Conversion) : bool :=
  strict_eq (conv_sessionId c) sessionId && is_started c.

(** The three assignments to the conversion found. *)
Definition complete_conversion (orderId : option string) (completedAt : Z)
    (c : Conversion) : Conversion :=
  {| conv_id := conv_id c; conv_eventId := conv_eventId c;
     conv_sessionId := conv_sessionId c; conv_items := conv_items c;
     conv_total := conv_total c; conv_status := completed;
     conv_timestamp := conv_timestamp c; conv_orderId := orderId;
     conv_completedAt := Some completedAt |}.

(** The event counters of a completed conversion: [conversions++] and
    [totalRevenue += total], the sum of two doubles, which is [NaN] when
    the body has no total. *)
Definition count_conversion (total : option float) (e : EventStats) : EventStats :=
  {| ev_views := ev_views e;
     ev_uniqueViews := ev_uniqueViews e;
     ev_clicks := ev_clicks e;
     ev_ticketSelections := ev_ticketSelections e;
     ev_checkouts := ev_checkouts e;
     ev_conversions := S (ev_conversions e);
     ev_totalRevenue := PrimFloat.add (ev_totalRevenue e) (default nan total) |}.

(** [POST /api/analytics/conversion]; like the checkout, it throws for no
    event identifier. *)
Definition post_conversion (body : ConversionBody) (s : State) : IO State :=
  let a := with_event (vb_eventId body) (count_conversion (vb_total body))
             (analytics s) in
  match js_find (started_for (vb_sessionId body)) (an_conversions a) with
  | Some (i, conversion) =>
      completedAt ← date_now;
      mret (set_analytics
              (set_conversions
                 (<[i := complete_conversion (vb_orderId body) completedAt conversion]>
                    (an_conversions a)) a) s)
  | None => mret (set_analytics a s)
  end.

(** [process.env.ANALYTICS_SECRET || 'guiche2024@analytics'] *)
Definition ANALYTICS_SECRET (env : option string) : string :=
  match env with
  | Some (String _ _ as v) => v
  | _ => "guiche2024@analytics"
  end.

Record HourBucket : Type := { hour : Z; views : nat }.

(** The part of the dashboard object made of counts and lists of stored
    records; the rates rendered with [toFixed], the per-event table and the
    per-page table are not part of this record. *)
Record Dashboard : Type := {
  totalPageViews : nat;
  uniqueSessions : nat;
  totalOrders : nat;
  totalCheckouts : nat;
  totalConversions : nat;
  recentConversions : list Conversion;
  trafficByHour : list HourBucket;
  timestamp : Z
}.

Definition one_hour : Z := 60 * 60 * 1000.

(** Hour of day in UTC, the reading of [getHours] on a host whose zone is
    UTC. *)
Definition getUTCHours (t : Z) : Z := (t / one_hour) mod 24.

Section Dashboard.

(** [Date.prototype.getHours]: the hour of day of an instant in the
    time zone of the host. *)
Variable getHours : Z → Z.

(** The [trafficByHour] array of the dashboard. *)
Definition traffic_by_hour (now : Z) (pageViews : list PageView)
  : list HourBucket :=
  let last24h := now - 24 * 60 * 60 * 1000 in
  rev (map (λ i : nat,
              let hour := getHours (now - Z.of_nat i * 60 * 60 * 1000) in
              let count :=
                length (List.filter
                          (λ pv, (last24h <? pv_timestamp pv)
                                 && (getHours (pv_timestamp pv) =? hour))
                          pageViews) in
              {| hour := hour; views := count |})
           (seq 0 24)).

(** [GET /api/analytics/dashboard] *)
Definition get_dashboard (env : option string) (key : option string)
    (s : State) : IO (Result Dashboard) :=
  if negb (strict_eq key (Some (ANALYTICS_SECRET env)))
  then mret (Err InvalidAccessKey)
  else
    let a := analytics s in
    let completedOnes := List.filter is_completed (an_conversions a) in
    now ← date_now;
    stamp ← date_now;
    mret (Ok {| totalPageViews := length (an_pageViews a);
                uniqueSessions :=
                  size (list_to_set (map pv_sessionId (an_pageViews a))
                        : gset (option string));
                totalOrders := length (orders s);
                totalCheckouts :=
                  length (List.filter is_started (an_conversions a));
                totalConversions := length completedOnes;
                recentConversions :=
                  rev (drop (length completedOnes - 10) completedOnes);
                trafficByHour := traffic_by_hour now (an_pageViews a);
                timestamp := stamp |}).

(** The histogram as the specification words it: the count of a bucket
    is the number of page views strictly after [now - 24h] whose hour
    of day is the hour of the bucket. *)
Fixpoint views_in_bucket (now h : Z) (pageViews : list PageView) : nat :=
  match pageViews with
  | [] => 0
  | pv :: rest =>
      if decide (now - 24 * one_hour < pv_timestamp pv
                 ∧ getHours (pv_timestamp pv) = h)
      then S (views_in_bucket now h rest)
      else views_in_bucket now h rest
  end.

Definition spec_bucket (now : Z) (pageViews : list PageView) (i : nat)
  : HourBucket :=
  let hourOfDay := getHours (now - Z.of_nat i * one_hour) in
  {| hour := hourOfDay; views := views_in_bucket now hourOfDay pageViews |}.

End Dashboard.

(** [POST /api/analytics/reset] *)
Definition post_reset (env : option string) (key : option string) (s : State)
  : Result unit * State :=
  if negb (strict_eq key (Some (ANALYTICS_SECRET env)))
  then (Err Unauthorized, s)
  else (Ok tt, set_analytics empty_analytics s).

(* ================================================================= *)
(** ** Requests that change the state *)

Inductive Request : Type :=
| CreateOrder (body : PaymentBody)
| ConfirmOrder (orderId : string)
| AddKey (body : KeyBody)
| UpdateKey (id : string) (body : KeyBody)
| RemoveKey (id : string)
| TrackPageview (body : PageviewBody) (userAgent ip : option string)
| TrackCheckout (body : CheckoutBody)
| TrackConversion (body : ConversionBody)
| ResetAnalytics (env key : option string).

(** The state a request leaves behind. *)
Definition handle (req : Request) (s : State) : IO State :=
  match req with
  | CreateOrder body => r ← post_payment body s; mret r.2
  | ConfirmOrder orderId => r ← post_confirm orderId s; mret r.2
  | AddKey body => r ← post_pix_key body s; mret r.2
  | UpdateKey id body => r ← put_pix_key id body s; mret r.2
  | RemoveKey id => mret (delete_pix_key id s).2
  | TrackPageview body userAgent ip => post_pageview body userAgent ip s
  | TrackCheckout body => post_checkout body s
  | TrackConversion body => post_conversion body s
  | ResetAnalytics env key => mret (post_reset env key s).2
  end.


(** The states the server can be in. *)
Inductive reachable : State → Prop :=
| reachable_initial (t0 : Z) : reachable (initial_state t0)
| reachable_step (s : State) (req : Request) (w : World) :
    reachable s → reachable (handle req s w).1.

(** The operations of the key registry. *)
Definition registry_request (req : Request) : Prop :=
  match req with
  | AddKey _ | UpdateKey _ _ | RemoveKey _ => True
  | _ => False
  end.

(* ================================================================= *)
(** ** Observations *)

(** *** The registry and the heap *)

(** The registry as [GET /api/admin/pix-keys] shows it. *)
Definition registered_keys (s : State) : list KeyObj :=
  omap (λ l, heap s !! l) (pixKeys s).

Definition key_strings (s : State) : list string :=
  key_key <$> registered_keys s.

Definition key_registered (key : string) (s : State) : Prop :=
  key ∈ key_strings s.

(** The invariant the specification states for the registry. *)
Definition registry_invariant (s : State) : Prop :=
  NoDup (key_strings s) ∧ (length (pixKeys s) ≤ 5)%nat.

(** Every reference of [pixKeys] points into the heap. *)
Definition refs_valid (s : State) : Prop :=
  Forall (λ l, (l < length (heap s))%nat) (pixKeys s).

(** The object literal of an order is in the heap and is no object of
    the registry. *)
Definition snapshots_private (s : State) : Prop :=
  Forall (λ o, (order_pixKey o < length (heap s))%nat
               ∧ order_pixKey o ∉ pixKeys s) (orders s).

Definition well_formed (s : State) : Prop :=
  refs_valid s ∧ snapshots_private s.

(** No two orders hold the same object literal. *)
Definition snapshots_distinct (s : State) : Prop :=
  NoDup (order_pixKey <$> orders s).

#[global] Instance well_formed_dec (s : State) : Decision (well_formed s).
Proof. unfold well_formed, refs_valid, snapshots_private. apply _. Defined.

(** What a request does to the heap, to the registry and to the orders:
    the heap only grows or is updated at a reference of the registry; the
    registry gains the reference of a fresh object or loses a reference;
    the orders keep their position, identifier and key reference. *)
Record frame (s s' : State) : Prop := {
  frame_heap_grows : (length (heap s) ≤ length (heap s'))%nat;
  frame_heap :
    ∀ l, (l < length (heap s))%nat → l ∉ pixKeys s → heap s' !! l = heap s !! l;
  frame_keys :
    ∀ l, l ∈ pixKeys s' → l ∈ pixKeys s ∨ (length (heap s) ≤ l < length (heap s'))%nat;
  frame_orders :
    ∀ i o, orders s !! i = Some o →
      ∃ o', orders s' !! i = Some o'
            ∧ order_id o' = order_id o ∧ order_pixKey o' = order_pixKey o;
  frame_new_orders :
    ∀ i o', orders s' !! i = Some o' →
      (∃ o, orders s !! i = Some o ∧ order_pixKey o' = order_pixKey o)
      ∨ ((length (heap s) ≤ order_pixKey o' < length (heap s'))%nat
         ∧ order_pixKey o' ∉ pixKeys s')
}.

(** *** Orders and order codes *)

(** The sum of unit price times quantity over the stored items, when
    every price and quantity is a number. *)
Definition line_amount (it : Item) : option Q :=
  match item_unitPrice it, item_quantity it with
  | JNum p, JNum q => Some (p * q)%Q
  | _, _ => None
  end.

Fixpoint items_total (items : list Item) : option Q :=
  match items with
  | [] => Some 0%Q
  | it :: rest =>
      match line_amount it, items_total rest with
      | Some a, Some b => Some (a + b)%Q
      | _, _ => None
      end
  end.

Definition with_total (total : jsval) (body : PaymentBody) : PaymentBody :=
  {| pb_customer := pb_customer body; pb_items := pb_items body;
     pb_total := total |}.

Definition is_ok {A : Type} (r : Result A) : bool :=
  match r with
  | Ok _ => true
  | Err _ => false
  end.

(** The characters of an upper-cased radix-36 numeral. *)
Definition is_code_char (c : ascii) : bool :=
  let n := nat_of_ascii c in
  ((48 <=? n)%nat && (n <=? 57)%nat) || ((65 <=? n)%nat && (n <=? 90)%nat).

Fixpoint string_forall (p : ascii → bool) (s : string) : bool :=
  match s with
  | EmptyString => true
  | String c r => p c && string_forall p r
  end.

(** The digits of a radix-36 numeral as [toString(36)] writes them. *)
Definition is_lower36 (c : ascii) : bool :=
  let n := nat_of_ascii c in
  ((48 <=? n)%nat && (n <=? 57)%nat) || ((97 <=? n)%nat && (n <=? 122)%nat).

(** A rendering of a double of [0, 1) in radix 36: ["0"], or ["0."]
    followed by digits [0-9a-z]. *)
Definition radix36_fraction (text : string) : bool :=
  match text with
  | String a EmptyString => Ascii.eqb a "0"
  | String a (String b ds) =>
      Ascii.eqb a "0" && Ascii.eqb b "." && string_forall is_lower36 ds
  | EmptyString => false
  end.

(** The value of a radix-36 digit, in either case; [None] for any other
    character. *)
Definition digit_of36 (c : ascii) : option N :=
  let n := N_of_ascii c in
  if (48 <=? n)%N && (n <=? 57)%N then Some (n - 48)%N
  else if (97 <=? n)%N && (n <=? 122)%N then Some (n - 87)%N
  else if (65 <=? n)%N && (n <=? 90)%N then Some (n - 55)%N
  else None.

Fixpoint parse36_from (acc : N) (s : string) : option N :=
  match s with
  | EmptyString => Some acc
  | String c r =>
      match digit_of36 c with
      | Some d => parse36_from (acc * 36 + d) r
      | None => None
      end
  end.

(** The value of a string that is a radix-36 numeral from its first
    character to its last; [None] for the empty string and for a string
    with any other character. *)
Definition parse36 (s : string) : option N :=
  match s with
  | EmptyString => None
  | _ => parse36_from 0 s
  end.

(* ================================================================= *)
(** ** Scenarios *)

(** Digits after the point of [k / 2^53] in radix 36: the exact
    expansion, which ends after at most 27 digits. *)
Fixpoint frac_digits36 (fuel : nat) (k : N) : string :=
  match fuel with
  | O => EmptyString
  | S f =>
      if (k =? 0)%N then EmptyString
      else String (digit36 (k * 36 / random_den))
                  (frac_digits36 f ((k * 36) mod random_den))
  end.

(** The rendering of the scenarios' engine: ["0"] for zero and the whole
    expansion otherwise. V8 stops at the shortest digits that identify the
    double, so the two differ in general; they agree where the expansion
    is short, as for one half, ["0.i"], and for 1/256, ["0.0529"], the
    draws of the scenarios in which a code is read. *)
Definition exact_radix36 (k : N) : string :=
  if (k =? 0)%N then "0"%string
  else ("0." +:+ frac_digits36 27 k)%string.

(** A world whose clock starts at [t] and advances by [tick] milliseconds
    at every reading, whose random source always returns [r / 2^53], and
    whose identifiers are [uuid-0], [uuid-1], ... *)
Definition sample_world (t tick : Z) (r : N) : World :=
  {| clock := λ n, t + tick * Z.of_nat n;
     clock_reads := 0;
     random := λ _, r;
     random_draws := 0;
     uuid := λ n, ("uuid-" +:+ toString36 (Z.of_nat n))%string;
     uuid_calls := 0;
     radix36 := exact_radix36 |}.

Definition one_half : N := 2 ^ 52.

Definition one_256th : N := 2 ^ 45.

Definition sample_customer : CustomerInput :=
  {| ci_name := Some "Ana"%string;
     ci_email := Some "ana@example.com"%string;
     ci_cpf := Some "123.456.789-00"%string;
     ci_phone := Some "(11) 99999-0000"%string |}.

(** One ticket, free under [unitPrice] and priced under [unit_price], and
    a total that is neither. *)
Definition sample_body : PaymentBody :=
  {| pb_customer := Some sample_customer;
     pb_items := Some [ {| ii_title := JStr "Pista";
                           ii_unitPrice := JNum 0;
                           ii_unit_price := JNum 50;
                           ii_quantity := JNum 2 |} ];
     pb_total := JNum 7 |}.

(** Two orders created from the initial state while the clock stands
    still: both receive the same code. *)
Definition two_orders : State * World :=
  let '(_, s1, w1) := post_payment sample_body (initial_state 0)
                        (sample_world 1700000000000 0 one_half) in
  let '(_, s2, w2) := post_payment sample_body s1 w1 in
  (s2, w2).

(** Two orders created from the initial state while the clock advances by
    one millisecond at every reading: the codes differ. *)
Definition two_orders_apart : State * World :=
  let '(_, s1, w1) := post_payment sample_body (initial_state 0)
                        (sample_world 1700000000000 1 one_half) in
  let '(_, s2, w2) := post_payment sample_body s1 w1 in
  (s2, w2).

(** *** Registry scenarios *)

Definition key_body (key : string) : KeyBody :=
  {| kb_key := Some key; kb_type := Some "email"%string;
     kb_name := Some "Bilheteria"%string; kb_active := None |}.

(** The registry after [n] more keys, [key-1] ... [key-n], were added. *)
Fixpoint add_keys (n : nat) (sw : State * World) : State * World :=
  match n with
  | O => sw
  | S m =>
      let '(s, w) := add_keys m sw in
      let '(_, s', w') :=
        post_pix_key (key_body ("key-" +:+ toString36 (Z.of_nat n))) s w in
      (s', w')
  end.

Definition registry_of (n : nat) : State * World :=
  add_keys n (initial_state 0, sample_world 1700000000000 1 one_half).

Definition seed_key_string : string := "a9d156cf-2e35-4728-b5de-5bd3191f0485".

(** The body of a [PUT] that only sets the key string. *)
Definition rekey_body (key : string) : KeyBody :=
  {| kb_key := Some key; kb_type := None; kb_name := None; kb_active := None |}.

(** A [PUT] that rewrites every field of the seed key. *)
Definition overwrite_body : KeyBody :=
  {| kb_key := Some "changed@example.com"%string;
     kb_type := Some "email"%string;
     kb_name := Some "Outra Empresa"%string;
     kb_active := Some false |}.

(** *** Funnel scenario *)





(** *** Dashboard scenario *)

(** Dashboard scenario: two page views in the same hour of day, one five
    minutes ago and one on the previous calendar day, twenty-three hours
    and fifty minutes ago; then the dashboard is read at 22:13:20 UTC. *)
Definition dashboard_now : Z := 1700000000000.

Definition dashboard_world : World :=
  {| clock := λ n, match n with
                   | O => dashboard_now - 24 * one_hour + 10 * 60 * 1000
                   | 1%nat => dashboard_now - 5 * 60 * 1000
                   | _ => dashboard_now
                   end;
     clock_reads := 0;
     random := λ _, one_half;
     random_draws := 0;
     uuid := λ n, ("uuid-" +:+ toString36 (Z.of_nat n))%string;
     uuid_calls := 0;
     radix36 := exact_radix36 |}.

Definition home_view : PageviewBody :=
  {| pvb_page := Some "home"%string; pvb_eventId := Some "E1"%string;
     pvb_sessionId := Some "session-1"%string; pvb_referrer := None |}.

Definition two_views : State * World :=
  let '(s1, w1) := post_pageview home_view None None (initial_state 0)
                     dashboard_world in
  post_pageview home_view None None s1 w1.

(* ================================================================= *)
(** ** Further endpoints *)

Record Health : Type := {
  health_pixKeysCount : nat;
  health_ordersCount : nat;
  health_timestamp : Z
}.

(** [GET /health] *)
Definition get_health (s : State) : IO Health :=
  now ← date_now;
  mret {| health_pixKeysCount := length (active_refs s);
          health_ordersCount := length (orders s);
          health_timestamp := now |}.

Record OrderSummary : Type := {
  os_id : string;
  os_code : string;
  os_customer : string;
  os_email : string;
  os_total : jsval;
  os_status : OrderStatus;
  os_createdAt : Z
}.

Definition order_summary (o : Order) : OrderSummary :=
  {| os_id := order_id o;
     os_code := order_code o;
     os_customer := cust_name (order_customer o);
     os_email := cust_email (order_customer o);
     os_total := order_total o;
     os_status := order_status o;
     os_createdAt := order_createdAt o |}.

(** [GET /api/admin/orders]: the summaries and their number. *)
Definition get_admin_orders (s : State) : list OrderSummary * nat :=
  (map order_summary (orders s), length (orders s)).

(** The body of [POST /api/analytics/click] when it carries no [data]
    object, so that the spread [...data] adds no field to a ticket
    selection. *)
Record ClickBody : Type := {
  cl_eventId : option string;
  cl_action : option string;
  cl_sessionId : option string
}.

(** [if (clicks[action] !== undefined) clicks[action]++], for the five
    counters the [clicks] object is created with. An action that names
    none of them leaves the five as they are; this holds as well for the
    name of an inherited property, whose increment only adds a property
    of that name to the object. *)
Definition count_click (action : option string) (c : Clicks) : Clicks :=
  match action with
  | None => c
  | Some a =>
      if String.eqb a "ingressos" then
        {| clk_ingressos := S (clk_ingressos c); clk_info := clk_info c;
           clk_local := clk_local c; clk_pdv := clk_pdv c;
           clk_checkout := clk_checkout c |}
      else if String.eqb a "info" then
        {| clk_ingressos := clk_ingressos c; clk_info := S (clk_info c);
           clk_local := clk_local c; clk_pdv := clk_pdv c;
           clk_checkout := clk_checkout c |}
      else if String.eqb a "local" then
        {| clk_ingressos := clk_ingressos c; clk_info := clk_info c;
           clk_local := S (clk_local c); clk_pdv := clk_pdv c;
           clk_checkout := clk_checkout c |}
      else if String.eqb a "pdv" then
        {| clk_ingressos := clk_ingressos c; clk_info := clk_info c;
           clk_local := clk_local c; clk_pdv := S (clk_pdv c);
           clk_checkout := clk_checkout c |}
      else if String.eqb a "checkout" then
        {| clk_ingressos := clk_ingressos c; clk_info := clk_info c;
           clk_local := clk_local c; clk_pdv := clk_pdv c;
           clk_checkout := S (clk_checkout c) |}
      else c
  end.

Definition set_clicks (c : Clicks) (e : EventStats) : EventStats :=
  {| ev_views := ev_views e;
     ev_uniqueViews := ev_uniqueViews e;
     ev_clicks := c;
     ev_ticketSelections := ev_ticketSelections e;
     ev_checkouts := ev_checkouts e;
     ev_conversions := ev_conversions e;
     ev_totalRevenue := ev_totalRevenue e |}.

Definition push_ticketSelection (sel : option string * Z) (e : EventStats)
  : EventStats :=
  {| ev_views := ev_views e;
     ev_uniqueViews := ev_uniqueViews e;
     ev_clicks := ev_clicks e;
     ev_ticketSelections := ev_ticketSelections e ++ [sel];
     ev_checkouts := ev_checkouts e;
     ev_conversions := ev_conversions e;
     ev_totalRevenue := ev_totalRevenue e |}.

(** [POST /api/analytics/click]. On an inherited value [clicks] is
    [undefined] and reading [clicks[action]] throws: nothing was changed
    before, the clock is not read, and the answer is 500 instead of 200. *)
Definition post_click (body : ClickBody) (s : State) : IO State :=
  match cl_eventId body with
  | Some (String _ _) =>
      if reads_inherited (cl_eventId body) (analytics s) then mret s
      else
      let a := with_event (cl_eventId body)
                 (λ e, set_clicks (count_click (cl_action body) (ev_clicks e)) e)
                 (analytics s) in
      if strict_eq (cl_action body) (Some "ticket_select"%string) then
        timestamp ← date_now;
        mret (set_analytics
                (with_event (cl_eventId body)
                   (push_ticketSelection (cl_sessionId body, timestamp)) a) s)
      else mret (set_analytics a s)
  | _ => mret s
  end.

(** The status [POST /api/analytics/click] answers with. *)
Definition click_status (body : ClickBody) (s : State) : nat :=
  if reads_inherited (cl_eventId body) (analytics s) then 500%nat else 200%nat.

(** Every call that can change the state: the requests above and the
    click endpoint. *)
Inductive Call : Type :=
| CallRequest (req : Request)
| CallClick (body : ClickBody).

Definition serve (c : Call) (s : State) : IO State :=
  match c with
  | CallRequest req => handle req s
  | CallClick body => post_click body s
  end.

Fixpoint serve_all (cs : list Call) (s : State) : IO State :=
  match cs with
  | [] => mret s
  | c :: rest => s' ← serve c s; serve_all rest s'
  end.

(** The states of a server that answered any sequence of calls since it
    was started. *)
Inductive served : State → Prop :=
| served_initial (t0 : Z) : served (initial_state t0)
| served_call (s : State) (c : Call) (w : World) :
    served s → served (serve c s w).1.

(** *** Observations on the analytics *)

(** The statistics of an event, those of a new entry when it has none. *)
Definition event_stats (e : string) (s : State) : EventStats :=
  default new_event_stats (an_events (analytics s) !! e).

(** The page views recorded for an event. *)
Definition views_of_event (e : string) (s : State) : list PageView :=
  List.filter (λ pv, strict_eq (pv_eventId pv) (Some e))
    (an_pageViews (analytics s)).

(** The conversion records, started or completed, of an event. *)
Definition checkouts_of_event (e : string) (s : State) : list Conversion :=
  List.filter (λ c, strict_eq (conv_eventId c) (Some e))
    (an_conversions (analytics s)).

(** A click counter, by its name. *)
Definition click_counter (name : string) (c : Clicks) : option nat :=
  if String.eqb name "ingressos" then Some (clk_ingressos c)
  else if String.eqb name "info" then Some (clk_info c)
  else if String.eqb name "local" then Some (clk_local c)
  else if String.eqb name "pdv" then Some (clk_pdv c)
  else if String.eqb name "checkout" then Some (clk_checkout c)
  else None.

(** *** Observations on the registry *)

(** The identifiers of the registered keys, in the order of the registry. *)
Definition key_ids (s : State) : list string := key_id <$> registered_keys s.

(** *** Observations on the orders *)

(** What survives of an order: everything but the status and [paidAt],
    and a paid order stays paid. *)
Definition order_kept (o o' : Order) : Prop :=
  order_id o' = order_id o ∧ order_code o' = order_code o
  ∧ order_customer o' = order_customer o ∧ order_items o' = order_items o
  ∧ order_total o' = order_total o ∧ order_pixKey o' = order_pixKey o
  ∧ order_createdAt o' = order_createdAt o
  ∧ order_expiresAt o' = order_expiresAt o
  ∧ (order_status o = paid → order_status o' = paid).

(** An order is pending exactly as long as it has no [paidAt]. *)
Definition paid_consistent (o : Order) : Prop :=
  order_status o = pending ↔ order_paidAt o = None.

(** No object is registered twice, and every reference of the registry
    points into the heap. *)
Definition registry_sound (s : State) : Prop :=
  refs_valid s ∧ NoDup (pixKeys s).

#[global] Instance registry_sound_dec (s : State) : Decision (registry_sound s).
Proof. unfold registry_sound, refs_valid. apply _. Defined.

(** No entry of [events] stands under an inherited name, and the counters
    of every other event agree with the stored records: the view counter
    with the page views of the event, the set of viewers with their
    sessions, the checkout counter with the conversion records of the
    event. *)
Definition events_consistent (s : State) : Prop :=
  (∀ e, e ∈ inherited_names → an_events (analytics s) !! e = None)
  ∧ ∀ e, e ≠ ""%string → e ∉ inherited_names →
      ev_views (event_stats e s) = length (views_of_event e s)
      ∧ ev_uniqueViews (event_stats e s)
        = list_to_set (pv_sessionId <$> views_of_event e s)
      ∧ ev_checkouts (event_stats e s) = length (checkouts_of_event e s).

(** *** The cross-origin policy *)

Definition allowedOrigins : list string :=
  [ "https://guiche-master-frontend.vercel.app"%string;
    "http://localhost:5173"%string ].

(** [Array.prototype.indexOf] on strings: the first index of an equal
    element, [-1] when there is none. *)
Fixpoint indexOf_from (x : string) (l : list string) (i : Z) : Z :=
  match l with
  | [] => -1
  | y :: rest => if String.eqb y x then i else indexOf_from x rest (i + 1)
  end.

Definition indexOf (x : string) (l : list string) : Z := indexOf_from x l 0.

(** The [origin] function given to the [cors] middleware: the decision it
    passes to the callback, and the origins it writes to the console as
    blocked. *)
Definition cors_origin (origin : option string) : bool * list string :=
  match origin with
  | Some (String _ _ as o) =>
      if negb (indexOf o allowedOrigins =? -1) then (true, [])
      else (true, [o])
  | _ => (true, [])
  end.

(** The [Access-Control-Allow-Origin] header set by the second
    middleware. *)
Definition allow_origin_header (origin : option string) : string :=
  match origin with
  | Some o => if existsb (String.eqb o) allowedOrigins then o else "*"
  | None => "*"
  end.

(* ================================================================= *)
(** * Properties *)

(** ** Running a handler *)

Ltac run_io :=
  unfold fail, mbind, IO_bind, mret, IO_ret, date_now, math_random, uuidv4,
    number_toString36 in *;
  cbn [fst snd clock clock_reads random random_draws uuid uuid_calls radix36] in *.

(** ** Searching an array *)

Section Find.
Context {A : Type} (p : A → bool).

Lemma find_from_first (pre post : list A) (x : A) (i : nat) :
  Forall (λ y, p y = false) pre → p x = true →
  find_from p (pre ++ x :: post) i = Some ((i + length pre)%nat, x).
Proof.
  revert i. induction pre as [|y pre IH]; intros i Hpre Hx; cbn.
  - rewrite Hx. do 2 f_equal. lia.
  - inversion Hpre as [|? ? Hy Hrest]; subst. rewrite Hy, (IH (S i)) by done.
    do 2 f_equal. lia.
Qed.


Lemma find_from_Some (l : list A) (i j : nat) (x : A) :
  find_from p l i = Some (j, x) →
  ∃ pre post, l = pre ++ x :: post ∧ j = (i + length pre)%nat
              ∧ p x = true ∧ Forall (λ y, p y = false) pre.
Proof.
  revert i. induction l as [|y l IH]; intros i; cbn; [done|].
  destruct (p y) eqn:Hy.
  - intros [= <- <-]. exists [], l. cbn. repeat split; auto with lia.
  - intros H. destruct (IH _ H) as (pre & post & -> & -> & Hx & Hpre).
    exists (y :: pre), post. cbn. repeat split; auto with lia.
Qed.

Lemma find_from_is_None (l : list A) (i : nat) :
  find_from p l i = None → Forall (λ y, p y = false) l.
Proof.
  revert i. induction l as [|y l IH]; intros i; cbn; [constructor|].
  destruct (p y) eqn:Hy; [done|]. intros H. constructor; eauto.
Qed.

Lemma js_find_first (pre post : list A) (x : A) :
  Forall (λ y, p y = false) pre → p x = true →
  js_find p (pre ++ x :: post) = Some (length pre, x).
Proof. intros. unfold js_find. by rewrite find_from_first. Qed.


Lemma js_find_Some (l : list A) (j : nat) (x : A) :
  js_find p l = Some (j, x) →
  ∃ pre post, l = pre ++ x :: post ∧ j = length pre
              ∧ p x = true ∧ Forall (λ y, p y = false) pre.
Proof.
  intros H. apply find_from_Some in H as (pre & post & ? & ? & ? & ?).
  by exists pre, post.
Qed.

End Find.

Lemma insert_middle {A : Type} (pre post : list A) (x y : A) :
  <[length pre := y]> (pre ++ x :: post) = pre ++ y :: post.
Proof.
  rewrite insert_app_r_alt by lia. by rewrite Nat.sub_diag.
Qed.

Lemma strict_eq_true (a b : option string) : strict_eq a b = true ↔ a = b.
Proof.
  destruct a as [x|], b as [y|]; cbn; try (split; congruence).
  rewrite String.eqb_eq. split; congruence.
Qed.

Lemma strict_eq_refl (a : option string) : strict_eq a a = true.
Proof. by apply strict_eq_true. Qed.

(** ** Conversions *)

Lemma started_for_true (sid : option string) (c : Conversion) :
  started_for sid c = true ↔ conv_sessionId c = sid ∧ conv_status c = started.
Proof.
  unfold started_for, is_started. rewrite andb_true_iff, strict_eq_true.
  destruct (conv_status c); intuition congruence.
Qed.

Lemma started_for_false (sid : option string) (c : Conversion) :
  started_for sid c = false ↔ ¬ (conv_sessionId c = sid ∧ conv_status c = started).
Proof. rewrite <- started_for_true. destruct (started_for sid c); intuition congruence. Qed.

Lemma is_inherited_spec (e : string) :
  is_inherited e = true ↔ e ∈ inherited_names.
Proof.
  unfold is_inherited. rewrite existsb_exists. split.
  - intros (x & Hx & Heq). apply String.eqb_eq in Heq as ->.
    by apply list_elem_of_In.
  - intros He. exists e. split; [by apply list_elem_of_In | apply String.eqb_refl].
Qed.

Lemma reads_inherited_spec (e : string) (a : Analytics) :
  reads_inherited (Some e) a = true
  ↔ e ∈ inherited_names ∧ an_events a !! e = None.
Proof.
  unfold reads_inherited. destruct e as [|c e].
  - split; [done|]. intros [He _]. apply is_inherited_spec in He. discriminate.
  - destruct (an_events a !! String c e); [by intuition|].
    rewrite is_inherited_spec. tauto.
Qed.

Lemma set_events_same (a : Analytics) : set_events (an_events a) a = a.
Proof. by destruct a. Qed.

Lemma with_event_conversions (e : option string) (f : EventStats → EventStats)
    (a : Analytics) :
  an_conversions (with_event e f a) = an_conversions a.
Proof.
  unfold with_event, initEventAnalytics.
  destruct e as [[|c e]|]; try done. cbn [an_conversions set_events].
  destruct (an_events a !! _); [done|]. by destruct (is_inherited (String c e)).
Qed.

Lemma with_event_lookup (c : ascii) (e : string) (f : EventStats → EventStats)
    (a : Analytics) :
  reads_inherited (Some (String c e)) a = false →
  an_events (with_event (Some (String c e)) f a) !! String c e
  = Some (f (default new_event_stats (an_events a !! String c e))).
Proof.
  unfold with_event, initEventAnalytics, reads_inherited.
  destruct (an_events a !! String c e) as [st|] eqn:Hst; cbn.
  - intros _. rewrite lookup_alter_eq, Hst. done.
  - intros ->. cbn. rewrite lookup_alter_eq, lookup_insert_eq. done.
Qed.

Lemma with_event_absent (e : option string) (f : EventStats → EventStats)
    (a : Analytics) :
  present e = false → with_event e f a = a.
Proof. by destruct e as [[|c e]|]. Qed.

(** Under an inherited name without entry nothing of the analytics
    changes. *)
Lemma with_event_inherited (e : option string) (f : EventStats → EventStats)
    (a : Analytics) :
  reads_inherited e a = true → with_event e f a = a.
Proof.
  unfold with_event, initEventAnalytics, reads_inherited.
  destruct e as [[|c e]|]; try done.
  destruct (an_events a !! String c e) eqn:Hst; [done|]. intros ->.
  rewrite alter_id; [apply set_events_same|]. intros x Hx. congruence.
Qed.

Lemma with_event_other (e : string) (eid : option string)
    (f : EventStats → EventStats) (a : Analytics) :
  eid ≠ Some e →
  an_events (with_event eid f a) !! e = an_events a !! e.
Proof.
  intros Hne. destruct eid as [[|c e']|]; try done.
  unfold with_event, initEventAnalytics.
  assert (Hne' : String c e' ≠ e) by congruence.
  destruct (an_events a !! String c e'); cbn [an_events set_events].
  - by rewrite lookup_alter_ne.
  - destruct (is_inherited (String c e')); cbn [an_events set_events].
    + by rewrite lookup_alter_ne.
    + by rewrite lookup_alter_ne, lookup_insert_ne.
Qed.

Lemma post_conversion_events (body : ConversionBody) (s : State) (w : World) :
  an_events (analytics (post_conversion body s w).1)
  = an_events (with_event (vb_eventId body) (count_conversion (vb_total body))
                 (analytics s)).
Proof.
  unfold post_conversion.
  destruct (js_find _ _) as [[i c]|]; run_io; done.
Qed.




(** ** Orders: lookup and confirmation *)

Lemma order_matches_false (a : string) (x : Order) :
  order_matches a x = false ↔ order_id x ≠ a ∧ order_code x ≠ a.
Proof.
  unfold order_matches. rewrite orb_false_iff, !String.eqb_neq. tauto.
Qed.

Lemma order_matches_id (o : Order) : order_matches (order_id o) o = true.
Proof. unfold order_matches. by rewrite String.eqb_refl. Qed.

Lemma order_matches_code (o : Order) : order_matches (order_code o) o = true.
Proof. unfold order_matches. by rewrite String.eqb_refl, orb_true_r. Qed.

Lemma order_matches_mark_paid (a : string) (t : Z) (o : Order) :
  order_matches a (mark_paid t o) = order_matches a o.
Proof. done. Qed.

(** Confirmation by the identifier or by the code of a stored order never
    answers 'not found': some order matches. *)
Lemma confirm_finds_stored_order (s : State) (w : World) (o : Order) (a : string) :
  o ∈ orders s → a = order_id o ∨ a = order_code o →
  ∃ r s' w', post_confirm a s w = (Ok r, s', w') ∧ cr_status r = paid.
Proof.
  intros Ho Ha. unfold post_confirm.
  destruct (js_find (order_matches a) (orders s)) as [[i x]|] eqn:Hfind.
  - run_io. eauto.
  - apply find_from_is_None in Hfind. rewrite Forall_forall in Hfind.
    specialize (Hfind o Ho). apply order_matches_false in Hfind.
    destruct Ha as [-> | ->]; tauto.
Qed.

(** C9, as the code has it. When no order stored before [o] has an
    identifier or a code equal to the identifier or to the code of [o],
    confirmation by either accessor marks [o] itself as paid, and reading
    the order by its identifier and by its code then returns one and the
    same view, of [o] with status [paid]. *)
Theorem confirm_then_get_by_id_or_code
    (s : State) (w : World) (pre post : list Order) (o : Order) (a : string) :
  orders s = pre ++ o :: post →
  (∀ x, x ∈ pre →
        order_id x ≠ order_id o ∧ order_code x ≠ order_id o
        ∧ order_id x ≠ order_code o ∧ order_code x ≠ order_code o) →
  a = order_id o ∨ a = order_code o →
  ∃ r s' w',
    post_confirm a s w = (Ok r, s', w')
    ∧ cr_id r = order_id o ∧ cr_code r = order_code o ∧ cr_status r = paid
    ∧ let o' := mark_paid (clock w (clock_reads w)) o in
      orders s' = pre ++ o' :: post
      ∧ get_order (order_id o) s' = Ok (order_view o')
      ∧ get_order (order_code o) s' = Ok (order_view o')
      ∧ ov_status (order_view o') = paid.
Proof.
  intros Hs Hpre Ha.
  assert (Hno : ∀ b, b = order_id o ∨ b = order_code o →
                Forall (λ y, order_matches b y = false) pre).
  { intros b Hb. apply Forall_forall. intros x Hx. apply order_matches_false.
    destruct (Hpre x Hx) as (? & ? & ? & ?). destruct Hb as [-> | ->]; done. }
  assert (Hyes : ∀ b t, b = order_id o ∨ b = order_code o →
                 order_matches b (mark_paid t o) = true).
  { intros b t [-> | ->]; rewrite order_matches_mark_paid;
      auto using order_matches_id, order_matches_code. }
  unfold post_confirm. rewrite Hs, js_find_first; auto.
  2:{ specialize (Hyes a 0 Ha). by rewrite order_matches_mark_paid in Hyes. }
  run_io. do 3 eexists. split; [reflexivity|]. cbn [cr_id cr_code cr_status].
  repeat split.
  - cbn. apply insert_middle.
  - unfold get_order. cbn [orders set_orders]. rewrite insert_middle.
    rewrite js_find_first; auto.
  - unfold get_order. cbn [orders set_orders]. rewrite insert_middle.
    rewrite js_find_first; auto.
Qed.

Lemma confirm_then_get_by_id_or_code_witness :
  ∃ o1 o2 r s' w',
    orders two_orders_apart.1 = [o1; o2]
    ∧ post_confirm (order_code o2) two_orders_apart.1 two_orders_apart.2
      = (Ok r, s', w')
    ∧ get_order (order_id o2) s' = get_order (order_code o2) s'
    ∧ get_order (order_id o2) s'
      = Ok (order_view (mark_paid 1700000000006 o2)).
Proof.
  eexists _, _.
  assert (Horders : orders two_orders_apart.1 = [_; _]) by (vm_compute; reflexivity).
  match type of Horders with
  | _ = [?o1; ?o2] =>
      destruct (confirm_then_get_by_id_or_code
                  two_orders_apart.1 two_orders_apart.2 [o1] [] o2
                  (order_code o2) Horders)
        as (r & s' & w' & Hrun & _ & _ & _ & _ & Hid & Hcode & _)
  end.
  - intros x Hx. apply list_elem_of_singleton in Hx. subst x.
    vm_compute. repeat split; discriminate.
  - right. reflexivity.
  - exists r, s', w'. split; [exact Horders|]. split; [exact Hrun|].
    split; [by rewrite Hid, Hcode|]. exact Hid.
Defined.

(** C9 fails where two orders share a code: the second order of
    [two_orders] is confirmed through its identifier, and reading it by
    its code returns the first order, still [pending]. *)
Lemma confirm_by_id_get_by_code_differ :
  ∃ o r s' w' v1 v2,
    orders two_orders.1 !! 1%nat = Some o
    ∧ post_confirm (order_id o) two_orders.1 two_orders.2 = (Ok r, s', w')
    ∧ get_order (order_id o) s' = Ok v1
    ∧ get_order (order_code o) s' = Ok v2
    ∧ ov_status v1 = paid
    ∧ ov_status v2 = pending
    ∧ v1 ≠ v2.
Proof.
  eexists _, _, _, _, _, _.
  split; [vm_compute; reflexivity|].
  split; [vm_compute; reflexivity|].
  split; [vm_compute; reflexivity|].
  split; [vm_compute; reflexivity|].
  split; [reflexivity|]. split; [reflexivity|]. discriminate.
Qed.

(** ** The key registry *)

Lemma present_Some (o : option string) :
  present o = true ↔ ∃ v, o = Some v ∧ v ≠ ""%string.
Proof.
  destruct o as [[|c v]|]; cbn; split; try done; eauto.
  all: intros (v & [= <-] & Hv); done.
Qed.

Lemma present_of (v : string) : v ≠ ""%string → present (Some v) = true.
Proof. intros. apply present_Some. eauto. Qed.

Lemma existsb_key_test (h : list KeyObj) (p : KeyObj → bool) (ks : list loc) :
  existsb (key_test h p) ks = true
  ↔ ∃ k, k ∈ omap (λ l, h !! l) ks ∧ p k = true.
Proof.
  rewrite existsb_exists. split.
  - intros (l & Hl & Hp). unfold key_test in Hp.
    destruct (h !! l) as [k|] eqn:Hk; [|done].
    exists k. split; [|done]. apply list_elem_of_omap.
    exists l. split; [by apply list_elem_of_In|done].
  - intros (k & Hk & Hp). apply list_elem_of_omap in Hk as (l & Hl & Hlk).
    exists l. split; [by apply list_elem_of_In|].
    unfold key_test. by rewrite Hlk.
Qed.

Lemma key_registered_existsb (key : string) (s : State) :
  existsb (key_test (heap s) (λ k, String.eqb (key_key k) key)) (pixKeys s) = true
  ↔ key_registered key s.
Proof.
  rewrite existsb_key_test. unfold key_registered, key_strings, registered_keys.
  rewrite list_elem_of_fmap. split.
  - intros (k & Hk & Heq). apply String.eqb_eq in Heq. eauto.
  - intros (k & -> & Hk). exists k. by rewrite String.eqb_refl.
Qed.

(** C1, as the code has it. With the three fields present,
    [POST /api/admin/pix-keys] checks the capacity first: it answers with
    the capacity error exactly when the registry holds five keys or more,
    whether the key string is registered or not, and with the
    duplicate-key error exactly when the registry holds fewer than five
    keys and the key string is registered. It adds the key exactly when
    neither is the case, and a refused request leaves the state as it
    was. *)
Theorem add_key_checks_capacity_first
    (s : State) (body : KeyBody) (w : World) (key type name : string) :
  kb_key body = Some key → kb_type body = Some type → kb_name body = Some name →
  key ≠ ""%string → type ≠ ""%string → name ≠ ""%string →
  let res := (post_pix_key body s w).1.1 in
  let s' := (post_pix_key body s w).1.2 in
  (res = Err KeyLimitReached ↔ (5 ≤ length (pixKeys s))%nat)
  ∧ (res = Err KeyAlreadyRegistered
     ↔ (length (pixKeys s) < 5)%nat ∧ key_registered key s)
  ∧ ((∃ k, res = Ok k) ↔ (length (pixKeys s) < 5)%nat ∧ ¬ key_registered key s)
  ∧ (∀ e, res = Err e → s' = s)
  ∧ (∀ k, res = Ok k →
       key_key k = key ∧ key_active k = Some true
       ∧ pixKeys s' = pixKeys s ++ [length (heap s)]
       ∧ heap s' = heap s ++ [k]).
Proof.
  intros Hk Ht Hn Hk' Ht' Hn'. cbv zeta. unfold post_pix_key.
  rewrite Hk, Ht, Hn, !present_of by done. cbn [andb negb default from_option id].
  destruct (5 <=? length (pixKeys s))%nat eqn:Hcap.
  - apply Nat.leb_le in Hcap. run_io. split_and!.
    + done.
    + split; [done | lia].
    + split; [by intros [? [=]] | lia].
    + done.
    + done.
  - apply Nat.leb_gt in Hcap.
    destruct (existsb _ _) eqn:Hdup.
    + apply key_registered_existsb in Hdup. run_io. split_and!.
      * split; [done | lia].
      * done.
      * split; [by intros [? [=]] | tauto].
      * done.
      * done.
    + assert (¬ key_registered key s) as Hnew.
      { rewrite <- key_registered_existsb, Hdup. done. }
      run_io. split_and!.
      * split; [done | lia].
      * split; [done | tauto].
      * split; [done | eauto].
      * done.
      * by intros k [= <-].
Qed.

Lemma add_key_checks_capacity_first_witness :
  (post_pix_key (key_body "key-1") (registry_of 1).1 (registry_of 1).2).1.1
  = Err KeyAlreadyRegistered.
Proof.
  destruct (add_key_checks_capacity_first
              (registry_of 1).1 (key_body "key-1") (registry_of 1).2
              "key-1" "email" "Bilheteria" eq_refl eq_refl eq_refl)
    as (_ & Hdup & _); [discriminate | discriminate | discriminate |].
  apply Hdup. split.
  - vm_compute. lia.
  - unfold key_registered. vm_compute. repeat constructor.
Defined.

(** C1 fails on a full registry: five keys are registered, the seed key
    among them, and adding the seed key's string again is refused with the
    capacity error, not with the duplicate-key error. *)
Lemma add_registered_key_to_full_registry :
  length (pixKeys (registry_of 4).1) = 5%nat
  ∧ key_registered seed_key_string (registry_of 4).1
  ∧ (post_pix_key (key_body seed_key_string) (registry_of 4).1 (registry_of 4).2).1.1
    = Err KeyLimitReached
  ∧ (post_pix_key (key_body seed_key_string) (registry_of 4).1 (registry_of 4).2).1.1
    ≠ Err KeyAlreadyRegistered.
Proof.
  split_and!.
  - vm_compute. reflexivity.
  - unfold key_registered. vm_compute. repeat constructor.
  - vm_compute. reflexivity.
  - vm_compute. discriminate.
Qed.

(** C2 fails in [PUT /api/admin/pix-keys/:id]: the registry holding the
    seed key and [key-1] satisfies the invariant; setting the key string
    of the second key to the seed key's string is accepted, and the
    registry then holds the same key string twice. *)
Theorem put_key_duplicates_key_string :
  let res := put_pix_key "uuid-0" (rekey_body seed_key_string)
               (registry_of 1).1 (registry_of 1).2 in
  registry_invariant (registry_of 1).1
  ∧ key_strings (registry_of 1).1 = [seed_key_string; "key-1"%string]
  ∧ (∃ k, res.1.1 = Ok k ∧ key_key k = seed_key_string)
  ∧ key_strings res.1.2 = [seed_key_string; seed_key_string]
  ∧ ¬ registry_invariant res.1.2.
Proof.
  cbv zeta.
  assert (Hks : key_strings (registry_of 1).1 = [seed_key_string; "key-1"%string])
    by (vm_compute; reflexivity).
  assert (Hks' : key_strings
                   (put_pix_key "uuid-0" (rekey_body seed_key_string)
                      (registry_of 1).1 (registry_of 1).2).1.2
                 = [seed_key_string; seed_key_string])
    by (vm_compute; reflexivity).
  split_and!.
  - split; [|vm_compute; lia]. rewrite Hks.
    apply NoDup_cons. split; [|apply NoDup_singleton].
    rewrite list_elem_of_singleton. discriminate.
  - exact Hks.
  - eexists. split; vm_compute; reflexivity.
  - exact Hks'.
  - intros [Hnd _]. rewrite Hks' in Hnd.
    apply NoDup_cons in Hnd as [Hin _]. apply Hin. by left.
Qed.

(** ** Creating an order *)

Lemma random_index_lt (k : N) (n : nat) :
  (0 < n)%nat → (random_index (k mod random_den) n < n)%nat.
Proof.
  intros Hn. unfold random_index.
  assert (Hden : (0 < random_den)%N) by (vm_compute; reflexivity).
  assert (Hk : (k mod random_den < random_den)%N) by (apply N.mod_lt; lia).
  assert (Hdiv : (k mod random_den * N.of_nat n / random_den < N.of_nat n)%N).
  { apply N.Div0.div_lt_upper_bound. nia. }
  lia.
Qed.

Lemma active_refs_spec (s : State) (ref : loc) :
  ref ∈ active_refs s
  ↔ ref ∈ pixKeys s ∧ ∃ k, heap s !! ref = Some k ∧ is_active k = true.
Proof.
  unfold active_refs. rewrite !list_elem_of_In, filter_In. unfold key_test.
  destruct (heap s !! ref) as [k|]; split.
  - intros [? ?]. eauto.
  - intros [? (k' & [= <-] & ?)]. done.
  - intros [_ [=]].
  - intros [_ (k' & [=] & _)].
Qed.

(** The key a request is assigned: the random draw selects among the
    active references. *)
Lemma getRandomPixKey_active (s : State) (w : World) :
  active_refs s ≠ [] →
  ∃ ref k w',
    getRandomPixKey s w = (Some ref, w')
    ∧ active_refs s
        !! random_index (random w (random_draws w) mod random_den)
             (length (active_refs s)) = Some ref
    ∧ ref ∈ pixKeys s ∧ heap s !! ref = Some k ∧ is_active k = true
    ∧ clock w' = clock w ∧ clock_reads w' = clock_reads w
    ∧ random w' = random w ∧ random_draws w' = S (random_draws w)
    ∧ uuid w' = uuid w ∧ uuid_calls w' = uuid_calls w
    ∧ radix36 w' = radix36 w.
Proof.
  intros Hne. unfold getRandomPixKey.
  destruct (active_refs s) as [|a l] eqn:Hact; [done|]. run_io.
  set (i := random_index _ _).
  assert (Hi : (i < length (a :: l))%nat) by (apply random_index_lt; cbn; lia).
  apply lookup_lt_is_Some in Hi as [ref Href].
  assert (Hin : ref ∈ active_refs s).
  { rewrite Hact. by eapply list_elem_of_lookup_2. }
  apply active_refs_spec in Hin as (Hreg & k & Hk & Hactive).
  exists ref, k. eexists. rewrite Href. split; [reflexivity|]. done.
Qed.

Lemma getRandomPixKey_none (s : State) (w : World) :
  active_refs s = [] → getRandomPixKey s w = (None, w).
Proof. intros H. unfold getRandomPixKey. by rewrite H. Qed.

Lemma getRandomPixKey_Some (s : State) (w w' : World) (ref : loc) :
  getRandomPixKey s w = (Some ref, w') →
  ref ∈ pixKeys s ∧ ∃ k, heap s !! ref = Some k ∧ is_active k = true.
Proof.
  intros H. destruct (active_refs s) as [|a l] eqn:Hact.
  - by rewrite getRandomPixKey_none in H.
  - destruct (getRandomPixKey_active s w) as (ref' & k & w'' & Hrun & _ & ? & ? & ? & _).
    { by rewrite Hact. }
    rewrite Hrun in H. injection H as <- <-. eauto.
Qed.

(** What a successful [POST /api/payment] does, in terms of the readings
    of the environment: the identifier is the next [uuidv4], the code is
    made from the next clock reading and from the random draw after the
    one that selected the key, [createdAt] is the second clock reading and
    [expiresAt] the third plus thirty minutes. *)
Lemma post_payment_success
    (body : PaymentBody) (s : State) (w : World)
    (customer : CustomerInput) (items : list ItemInput) :
  pb_customer body = Some customer → complete_customer customer = true →
  pb_items body = Some items → items ≠ [] → active_refs s ≠ [] →
  ∃ ref k r o s' w',
    post_payment body s w = (Ok r, s', w')
    ∧ ref ∈ pixKeys s ∧ heap s !! ref = Some k ∧ is_active k = true
    ∧ active_refs s
        !! random_index (random w (random_draws w) mod random_den)
             (length (active_refs s)) = Some ref
    ∧ s' = set_orders (heap s ++ [key_snapshot k]) (orders s ++ [o]) s
    ∧ o = {| order_id := uuid w (uuid_calls w);
             order_code :=
               ("GM" +:+ "-"
                +:+ toUpperCase (toString36 (clock w (clock_reads w)))
                +:+ "-"
                +:+ toUpperCase
                      (js_substring 2 6
                         (radix36 w
                            (random w (S (random_draws w)) mod random_den))))%string;
             order_customer := normalize_customer customer;
             order_items := map normalize_item items;
             order_total := pb_total body;
             order_pixKey := length (heap s);
             order_status := pending;
             order_createdAt := clock w (S (clock_reads w));
             order_expiresAt := clock w (S (S (clock_reads w))) + thirty_minutes;
             order_paidAt := None |}
    ∧ r = {| pr_id := order_id o;
             pr_code := order_code o;
             pr_status := pending;
             pr_expiresAt := order_expiresAt o;
             pr_pix_key := key_key k;
             pr_pix_type := key_type k;
             pr_pix_name := key_name k;
             pr_total := pb_total body |}.
Proof.
  intros Hc Hcomplete Hi Hitems Hact.
  destruct (getRandomPixKey_active s w Hact)
    as (ref & k & w1 & Hrun & Hidx & Href & Hk & Hactive
        & Hc1 & Hc2 & Hr1 & Hr2 & Hu1 & Hu2 & Hx).
  exists ref, k. unfold post_payment.
  rewrite Hc, Hcomplete, Hi. destruct items as [|it items]; [done|].
  cbn [negb]. unfold generateOrderCode. run_io. rewrite Hrun, Hk.
  rewrite Hc1, Hc2, Hr1, Hr2, Hu1, Hu2, Hx.
  eexists _, _, _, _. split; [reflexivity|]. done.
Qed.

Lemma post_payment_Ok (body : PaymentBody) (s s' : State) (w w' : World)
    (r : PaymentResponse) :
  post_payment body s w = (Ok r, s', w') →
  ∃ customer items,
    pb_customer body = Some customer ∧ complete_customer customer = true
    ∧ pb_items body = Some items ∧ items ≠ [] ∧ active_refs s ≠ [].
Proof.
  unfold post_payment.
  destruct (pb_customer body) as [customer|]; [|by run_io].
  destruct (complete_customer customer) eqn:Hcomplete; [|by run_io].
  destruct (pb_items body) as [[|it items]|]; try by run_io.
  intros H. exists customer, (it :: items). split_and!; try done.
  intros Hact. revert H. cbn [negb]. run_io.
  by rewrite (getRandomPixKey_none _ _ Hact).
Qed.

Lemma post_payment_result (body : PaymentBody) (s : State) (w : World)
    (r : PaymentResponse) :
  (post_payment body s w).1.1 = Ok r →
  ∃ s' w', post_payment body s w = (Ok r, s', w').
Proof.
  destruct (post_payment body s w) as [[res s'] w']. cbn. intros ->. eauto.
Qed.

Lemma active_refs_nonempty (s : State) :
  (∃ k, k ∈ registered_keys s ∧ is_active k = true) → active_refs s ≠ [].
Proof.
  intros (k & Hk & Hactive) Hnil.
  apply list_elem_of_omap in Hk as (ref & Href & Hlook).
  assert (ref ∈ active_refs s) as Hin by (apply active_refs_spec; eauto).
  rewrite Hnil in Hin. by apply elem_of_nil in Hin.
Qed.

(** C3, as the code has it. A request with a customer whose name, email
    and CPF are non-empty, with a non-empty cart, and with some registered
    key active, succeeds: the order is appended with status [pending]; its
    key is a copy of a registered key that is active at the time of the
    call; [createdAt] is one clock reading and [expiresAt] is the next
    clock reading plus thirty minutes, so that [expiresAt] is [createdAt]
    plus thirty minutes whenever the two readings agree, and is no earlier
    than that whenever the clock did not go back. *)
Theorem create_pending_order
    (body : PaymentBody) (s : State) (w : World)
    (customer : CustomerInput) (items : list ItemInput) :
  pb_customer body = Some customer →
  present (ci_name customer) = true →
  present (ci_email customer) = true →
  present (ci_cpf customer) = true →
  pb_items body = Some items → items ≠ [] →
  (∃ k, k ∈ registered_keys s ∧ is_active k = true) →
  let res := post_payment body s w in
  let created := clock w (S (clock_reads w)) in
  let read_for_expiry := clock w (S (S (clock_reads w))) in
  ∃ r o ref k,
    res.1.1 = Ok r
    ∧ orders res.1.2 = orders s ++ [o]
    ∧ pr_status r = pending ∧ order_status o = pending
    ∧ order_createdAt o = created
    ∧ order_expiresAt o = read_for_expiry + thirty_minutes
    ∧ pr_expiresAt r = order_expiresAt o
    ∧ (read_for_expiry = created →
       order_expiresAt o = order_createdAt o + thirty_minutes)
    ∧ (created ≤ read_for_expiry →
       order_createdAt o + thirty_minutes ≤ order_expiresAt o)
    ∧ ref ∈ pixKeys s ∧ heap s !! ref = Some k ∧ is_active k = true
    ∧ heap res.1.2 !! order_pixKey o = Some (key_snapshot k)
    ∧ pr_pix_key r = key_key k ∧ pr_pix_type r = key_type k
    ∧ pr_pix_name r = key_name k.
Proof.
  intros Hc Hname Hemail Hcpf Hi Hitems Hkey. cbv zeta.
  destruct (post_payment_success body s w customer items)
    as (ref & k & r & o & s' & w' & Hrun & Href & Hk & Hactive & _ & Hs' & Ho & Hr);
    auto using active_refs_nonempty.
  { unfold complete_customer. by rewrite Hname, Hemail, Hcpf. }
  rewrite Hrun. exists r, o, ref, k. subst r s' o. cbn.
  split_and!; try done.
  - intros ->. done.
  - lia.
  - by rewrite lookup_app_r, Nat.sub_diag.
Qed.

Lemma create_pending_order_witness :
  ∃ r o,
    (post_payment sample_body (initial_state 0)
       (sample_world 1700000000000 0 one_half)).1.1 = Ok r
    ∧ orders (post_payment sample_body (initial_state 0)
                (sample_world 1700000000000 0 one_half)).1.2 = [o]
    ∧ order_status o = pending
    ∧ order_expiresAt o = order_createdAt o + thirty_minutes.
Proof.
  destruct (create_pending_order sample_body (initial_state 0)
              (sample_world 1700000000000 0 one_half)
              sample_customer _ eq_refl eq_refl eq_refl eq_refl eq_refl)
    as (r & o & ref & k & Hr & Ho & _ & Hst & _ & _ & _ & Hexp & _ & _).
  - discriminate.
  - exists (seed_key 0). split; [|reflexivity].
    vm_compute. repeat constructor.
  - exists r, o. split; [exact Hr|]. split; [exact Ho|]. split; [exact Hst|].
    apply Hexp. reflexivity.
Defined.

(** C3 fails on the expiry when the clock advances between the two
    readings: with a clock that advances by one millisecond at every
    reading, the order is created at ...001 and expires thirty minutes
    after ...002. *)
Lemma expiry_follows_a_later_clock_reading :
  let res := post_payment sample_body (initial_state 0)
               (sample_world 1700000000000 1 one_half) in
  ∃ r o,
    res.1.1 = Ok r
    ∧ orders res.1.2 = [o]
    ∧ order_status o = pending
    ∧ order_createdAt o = 1700000000001
    ∧ order_expiresAt o = 1700001800002
    ∧ order_expiresAt o ≠ order_createdAt o + thirty_minutes.
Proof.
  cbv zeta. eexists _, _.
  split; [vm_compute; reflexivity|].
  split; [vm_compute; reflexivity|].
  split_and!; try reflexivity. vm_compute. discriminate.
Qed.

(** ** Line items and total *)

Lemma normalize_item_price (it : ItemInput) :
  item_unitPrice (normalize_item it)
  = if truthy (ii_unitPrice it) then ii_unitPrice it else ii_unit_price it.
Proof. done. Qed.

(** C6, as the code has it. Every stored line item keeps the title and
    the quantity supplied, in the order supplied; its unit price is the
    value under [unitPrice] when that value is truthy (a number other than
    zero, a non-empty string, [true]), and the value under [unit_price]
    when it is falsy (zero, the empty string, [null], [false] or missing). *)
Theorem unit_price_prefers_truthy_first_field
    (body : PaymentBody) (s : State) (w : World) (r : PaymentResponse)
    (items : list ItemInput) :
  (post_payment body s w).1.1 = Ok r →
  pb_items body = Some items →
  ∃ o,
    orders (post_payment body s w).1.2 = orders s ++ [o]
    ∧ length (order_items o) = length items
    ∧ ∀ i it, items !! i = Some it →
        ∃ stored,
          order_items o !! i = Some stored
          ∧ item_title stored = ii_title it
          ∧ item_quantity stored = ii_quantity it
          ∧ (truthy (ii_unitPrice it) = true →
             item_unitPrice stored = ii_unitPrice it)
          ∧ (truthy (ii_unitPrice it) = false →
             item_unitPrice stored = ii_unit_price it).
Proof.
  intros Hr Hi. apply post_payment_result in Hr as (s' & w' & Hrun).
  destruct (post_payment_Ok _ _ _ _ _ _ Hrun)
    as (customer & items' & Hc & Hcomplete & Hi' & Hne & Hact).
  rewrite Hi in Hi'. injection Hi' as <-.
  destruct (post_payment_success body s w customer items Hc Hcomplete Hi Hne Hact)
    as (ref & k & r' & o & s'' & w'' & Hrun' & _ & _ & _ & _ & Hs' & Ho & _).
  rewrite Hrun'. exists o. subst s'' o. cbn [fst snd orders set_orders order_items].
  split; [done|]. split; [by rewrite length_map|].
  intros i it Hit. exists (normalize_item it).
  split; [|split_and!; try done].
  - change (map normalize_item items) with (normalize_item <$> items).
    by rewrite list_lookup_fmap, Hit.
  - intros Ht. by rewrite normalize_item_price, Ht.
  - intros Ht. by rewrite normalize_item_price, Ht.
Qed.

Lemma unit_price_prefers_truthy_first_field_witness :
  ∃ o stored,
    orders (post_payment
              (with_total (JNum 60)
                 {| pb_customer := Some sample_customer;
                    pb_items := Some [ {| ii_title := JStr "Pista";
                                          ii_unitPrice := JNum 30;
                                          ii_unit_price := JNum 50;
                                          ii_quantity := JNum 2 |} ];
                    pb_total := JNull |})
              (initial_state 0) (sample_world 1700000000000 1 one_half)).1.2
    = [o]
    ∧ order_items o !! 0%nat = Some stored
    ∧ item_unitPrice stored = JNum 30.
Proof.
  set (it := {| ii_title := JStr "Pista"; ii_unitPrice := JNum 30;
                ii_unit_price := JNum 50; ii_quantity := JNum 2 |}).
  set (body := with_total _ _).
  assert (Hr : ∃ r, (post_payment body (initial_state 0)
                       (sample_world 1700000000000 1 one_half)).1.1 = Ok r)
    by (eexists; vm_compute; reflexivity).
  destruct Hr as [r Hr].
  destruct (unit_price_prefers_truthy_first_field
              body (initial_state 0) (sample_world 1700000000000 1 one_half)
              r [it] Hr eq_refl)
    as (o & Ho & _ & Hitems).
  destruct (Hitems 0%nat it eq_refl) as (stored & Hst & _ & _ & Hprice & _).
  exists o, stored. split; [exact Ho|]. split; [exact Hst|].
  apply Hprice. reflexivity.
Defined.

(** C6 fails for a unit price of zero: the item of [sample_body] carries
    [unitPrice: 0] and [unit_price: 50], and the stored unit price is 50. *)
Lemma zero_unit_price_is_replaced :
  let res := post_payment sample_body (initial_state 0)
               (sample_world 1700000000000 1 one_half) in
  ∃ it r o stored,
    pb_items sample_body = Some [it]
    ∧ ii_unitPrice it = JNum 0 ∧ ii_unit_price it = JNum 50
    ∧ res.1.1 = Ok r
    ∧ orders res.1.2 = [o]
    ∧ order_items o = [stored]
    ∧ item_unitPrice stored = JNum 50
    ∧ item_unitPrice stored ≠ ii_unitPrice it.
Proof.
  cbv zeta. eexists _, _, _, _.
  split; [reflexivity|]. split; [reflexivity|]. split; [reflexivity|].
  split; [vm_compute; reflexivity|].
  split; [vm_compute; reflexivity|].
  split; [reflexivity|]. split; [reflexivity|]. discriminate.
Qed.

(** C10. A successful [POST /api/payment] stores and echoes the total of
    the request as it came; whether the request succeeds does not depend
    on the total; and [sample_body], whose only item costs 50 times 2,
    is accepted with a total of 7. *)
Theorem total_is_stored_verbatim :
  (∀ body s w r,
      (post_payment body s w).1.1 = Ok r →
      pr_total r = pb_total body
      ∧ ∃ o, orders (post_payment body s w).1.2 = orders s ++ [o]
             ∧ order_total o = pb_total body)
  ∧ (∀ body s w total,
        is_ok (post_payment (with_total total body) s w).1.1
        = is_ok (post_payment body s w).1.1)
  ∧ (let res := post_payment sample_body (initial_state 0)
                  (sample_world 1700000000000 1 one_half) in
     ∃ r o sum,
       res.1.1 = Ok r ∧ orders res.1.2 = [o]
       ∧ order_total o = JNum 7 ∧ pr_total r = JNum 7
       ∧ items_total (order_items o) = Some sum
       ∧ (sum == 100)%Q ∧ ¬ (sum == 7)%Q).
Proof.
  split_and!.
  - intros body s w r Hr. apply post_payment_result in Hr as (s' & w' & Hrun).
    destruct (post_payment_Ok _ _ _ _ _ _ Hrun)
      as (customer & items & Hc & Hcomplete & Hi & Hne & Hact).
    destruct (post_payment_success body s w customer items Hc Hcomplete Hi Hne Hact)
      as (ref & k & r' & o & s'' & w'' & Hrun' & _ & _ & _ & _ & Hs' & Ho & Hr').
    rewrite Hrun' in Hrun. injection Hrun as <- <- <-.
    rewrite Hrun'. subst r' s'' o. cbn. eauto.
  - intros body s w total. unfold post_payment. cbn [pb_customer pb_items with_total].
    destruct (pb_customer body) as [customer|]; [|done].
    destruct (negb (complete_customer customer)); [done|].
    destruct (pb_items body) as [[|it items]|]; try done.
    unfold generateOrderCode. run_io.
    destruct (getRandomPixKey s w) as [[ref|] w1]; [|done].
    destruct (heap s !! ref); done.
  - cbv zeta. eexists _, _, _.
    split; [vm_compute; reflexivity|].
    split; [vm_compute; reflexivity|].
    split; [reflexivity|]. split; [reflexivity|].
    split; [vm_compute; reflexivity|]. split; [reflexivity|]. discriminate.
Qed.

(** ** The order code *)

Lemma length_toUpperCase (s : string) :
  String.length (toUpperCase s) = String.length s.
Proof. induction s as [|c s IH]; cbn; congruence. Qed.

Lemma length_substring (n m : nat) (s : string) :
  String.length (substring n m s) = Nat.min m (String.length s - n).
Proof.
  revert n m. induction s as [|c s IH]; intros [|n] [|m]; cbn;
    rewrite ?IH, ?Nat.sub_0_r; try done; lia.
Qed.

Lemma lower36_code_char (c : ascii) :
  is_lower36 c = true → is_code_char (upper_ascii c) = true.
Proof.
  destruct c as [[] [] [] [] [] [] [] []]; vm_compute; intros H;
    first [reflexivity | discriminate H].
Qed.

Lemma string_forall_upper (s : string) :
  string_forall is_lower36 s = true →
  string_forall is_code_char (toUpperCase s) = true.
Proof.
  induction s as [|c s IH]; cbn; [done|].
  intros [Hc Hs]%andb_true_iff. by rewrite lower36_code_char, IH.
Qed.

Lemma string_forall_substring (p : ascii → bool) (n m : nat) (s : string) :
  string_forall p s = true → string_forall p (substring n m s) = true.
Proof.
  revert n m. induction s as [|c s IH]; intros [|n] [|m]; cbn; try done.
  - intros [-> Hs]%andb_true_iff. cbn. by apply IH.
  - intros [_ Hs]%andb_true_iff. by apply IH.
  - intros [_ Hs]%andb_true_iff. by apply IH.
Qed.

(** The part that [substring(2, 6)] cuts out of a rendering ["0"] or
    ["0."] and digits consists of the first digits after the point, at
    most four of them. *)
Lemma code_suffix_chars (text : string) :
  radix36_fraction text = true →
  string_forall is_code_char (toUpperCase (js_substring 2 6 text)) = true.
Proof.
  unfold radix36_fraction, js_substring. cbn [Nat.ltb Nat.leb Nat.sub].
  destruct text as [|a [|b ds]]; [done | done |].
  intros [_ Hds]%andb_true_iff.
  change (substring 2 4 (String a (String b ds))) with (substring 0 4 ds).
  by apply string_forall_upper, string_forall_substring.
Qed.

(** C7, as the code has it. The code of a created order is ["GM-"], the
    radix-36 numeral, in upper case, of the clock reading taken when the
    code is generated, ["-"], and a suffix: the characters at positions 2
    to 5, in upper case, of the engine's rendering of the random draw in
    radix 36, four characters when the rendering has at least six and
    those it has from position 2 on otherwise. The suffix is never longer
    than four, and it is made of the characters [0-9A-Z] when the rendering
    is ["0"] or ["0."] followed by digits [0-9a-z]. *)
Theorem order_code_format
    (body : PaymentBody) (s : State) (w : World) (r : PaymentResponse) :
  (post_payment body s w).1.1 = Ok r →
  let now := clock w (clock_reads w) in
  let draw := (random w (S (random_draws w)) mod random_den)%N in
  let rendering := radix36 w draw in
  ∃ o suffix,
    orders (post_payment body s w).1.2 = orders s ++ [o]
    ∧ pr_code r = order_code o
    ∧ order_code o
      = ("GM-" +:+ toUpperCase (toString36 now) +:+ "-" +:+ suffix)%string
    ∧ suffix = toUpperCase (js_substring 2 6 rendering)
    ∧ String.length suffix = Nat.min 4 (String.length rendering - 2)
    ∧ (String.length suffix ≤ 4)%nat
    ∧ (radix36_fraction rendering = true →
       string_forall is_code_char suffix = true).
Proof.
  intros Hr. cbv zeta. apply post_payment_result in Hr as (s' & w' & Hrun).
  destruct (post_payment_Ok _ _ _ _ _ _ Hrun)
    as (customer & items & Hc & Hcomplete & Hi & Hne & Hact).
  destruct (post_payment_success body s w customer items Hc Hcomplete Hi Hne Hact)
    as (ref & k & r' & o & s'' & w'' & Hrun' & _ & _ & _ & _ & Hs' & Ho & Hr').
  rewrite Hrun' in Hrun. injection Hrun as <- <- <-.
  rewrite Hrun'. exists o. eexists. subst r' s'' o.
  cbn [fst snd orders set_orders order_code pr_code].
  split; [done|]. split; [done|]. split; [reflexivity|]. split; [done|].
  assert (Hlen : String.length
                   (toUpperCase
                      (js_substring 2 6
                         (radix36 w
                            (random w (S (random_draws w)) mod random_den))))
                 = Nat.min 4
                     (String.length
                        (radix36 w
                           (random w (S (random_draws w)) mod random_den)) - 2)).
  { rewrite length_toUpperCase. unfold js_substring. cbn [Nat.ltb Nat.leb Nat.sub].
    apply length_substring. }
  split; [exact Hlen|]. split; [rewrite Hlen; lia|].
  apply code_suffix_chars.
Qed.

Lemma order_code_format_witness :
  let w := sample_world 1700000000000 1 one_256th in
  ∃ r o,
    (post_payment sample_body (initial_state 0) w).1.1 = Ok r
    ∧ orders (post_payment sample_body (initial_state 0) w).1.2 = [o]
    ∧ pr_code r = order_code o
    ∧ radix36 w one_256th = "0.0529"%string
    ∧ order_code o = "GM-LOYW3V28-0529"%string
    ∧ string_forall is_code_char "0529" = true.
Proof.
  cbv zeta.
  assert (Hr : ∃ r, (post_payment sample_body (initial_state 0)
                       (sample_world 1700000000000 1 one_256th)).1.1 = Ok r)
    by (eexists; vm_compute; reflexivity).
  destruct Hr as [r Hr].
  destruct (order_code_format _ _ _ _ Hr)
    as (o & suffix & Ho & Hr' & Hcode & Hsuffix & _ & _ & Hchars).
  exists r, o. split; [exact Hr|]. split; [exact Ho|]. split; [exact Hr'|].
  split; [vm_compute; reflexivity|].
  assert (Hs : suffix = "0529"%string)
    by (rewrite Hsuffix; vm_compute; reflexivity).
  split.
  - rewrite Hcode, Hs. vm_compute. reflexivity.
  - rewrite <- Hs. apply Hchars. vm_compute. reflexivity.
Defined.

(** C7 fails on the length of the suffix: when the random source returns
    one half, which is rendered ["0.i"], the suffix is the single
    character ["I"]. *)
Lemma order_code_suffix_of_one_half :
  let w := sample_world 1700000000000 1 one_half in
  let res := post_payment sample_body (initial_state 0) w in
  ∃ r o,
    radix36 w one_half = "0.i"%string
    ∧ res.1.1 = Ok r
    ∧ orders res.1.2 = [o]
    ∧ order_code o
      = ("GM-" +:+ toUpperCase (toString36 1700000000000) +:+ "-" +:+ "I")%string
    ∧ String.length "I" = 1%nat.
Proof.
  cbv zeta. eexists _, _.
  split; [vm_compute; reflexivity|].
  split; [vm_compute; reflexivity|].
  split; [vm_compute; reflexivity|].
  split; [vm_compute; reflexivity|]. reflexivity.
Qed.

(** *** The timestamp part is a radix-36 numeral of the clock reading *)

Lemma parse36_from_app (a : N) (x y : string) :
  parse36_from a (x +:+ y)
  = match parse36_from a x with
    | Some a' => parse36_from a' y
    | None => None
    end.
Proof.
  revert a. induction x as [|c x IH]; intros a; [done|].
  change (String c x +:+ y)%string with (String c (x +:+ y)).
  cbn [parse36_from]. destruct (digit_of36 c); [apply IH | done].
Qed.

Lemma digit_of36_digit36 (d : N) :
  (d < 36)%N → digit_of36 (digit36 d) = Some d ∧ is_lower36 (digit36 d) = true.
Proof.
  intros Hd. rewrite <- (N2Nat.id d).
  assert (Hn : (N.to_nat d < 36)%nat) by lia.
  clear Hd. generalize dependent (N.to_nat d). intros n Hn.
  do 36 (destruct n as [|n]; [by vm_compute|]). lia.
Qed.

Lemma digit_of36_upper (c : ascii) : digit_of36 (upper_ascii c) = digit_of36 c.
Proof. destruct c as [[] [] [] [] [] [] [] []]; reflexivity. Qed.

Lemma parse36_from_upper (a : N) (s : string) :
  parse36_from a (toUpperCase s) = parse36_from a s.
Proof.
  revert a. induction s as [|c s IH]; intros a; cbn; [done|].
  rewrite digit_of36_upper. destruct (digit_of36 c); [apply IH | done].
Qed.

Lemma string_forall_app (p : ascii → bool) (x y : string) :
  string_forall p (x +:+ y) = string_forall p x && string_forall p y.
Proof.
  induction x as [|c x IH]; [done|].
  change (p c && string_forall p (x +:+ y)
          = p c && string_forall p x && string_forall p y).
  by rewrite IH, andb_assoc.
Qed.

Lemma append_snoc (ds : string) (d : ascii) (acc : string) :
  (ds +:+ String d acc = (ds +:+ String d "") +:+ acc)%string.
Proof.
  induction ds as [|c ds IH]; [reflexivity|].
  change (String c (ds +:+ String d acc)
          = String c ((ds +:+ String d "") +:+ acc))%string.
  by f_equal.
Qed.

Lemma append_empty_r (ds : string) : (ds +:+ "")%string = ds.
Proof.
  induction ds as [|c ds IH]; [reflexivity|].
  change (String c (ds +:+ "") = String c ds)%string. by f_equal.
Qed.

Lemma nat_digits36_spec (fuel : nat) (n : N) (acc : string) :
  (n < 36 ^ N.of_nat fuel)%N →
  ∃ ds, nat_digits36 fuel n acc = (ds +:+ acc)%string
        ∧ parse36_from 0 ds = Some n
        ∧ string_forall is_lower36 ds = true.
Proof.
  revert n acc. induction fuel as [|fuel IH]; intros n acc Hn.
  - exists ""%string. cbn in *. split; [done|]. split; [f_equal; lia | done].
  - cbn [nat_digits36]. destruct (n <? 36)%N eqn:Hsmall.
    + apply N.ltb_lt in Hsmall.
      destruct (digit_of36_digit36 n Hsmall) as [Hd Hl].
      exists (String (digit36 (n mod 36)) ""). split; [done|].
      rewrite N.mod_small by done. cbn. by rewrite Hd, Hl.
    + apply N.ltb_ge in Hsmall.
      destruct (IH (n / 36)%N (String (digit36 (n mod 36)) acc))
        as (ds & Hds & Hval & Hall).
      { apply N.Div0.div_lt_upper_bound.
        rewrite Nat2N.inj_succ, N.pow_succ_r' in Hn. lia. }
      destruct (digit_of36_digit36 (n mod 36)) as [Hd Hl];
        [apply N.mod_lt; lia|].
      exists (ds +:+ String (digit36 (n mod 36)) "")%string. split_and!.
      * rewrite Hds. apply append_snoc.
      * rewrite parse36_from_app, Hval. cbn. rewrite Hd. f_equal.
        pose proof (N.div_mod n 36). lia.
      * rewrite string_forall_app, Hall. cbn. by rewrite Hl.
Qed.

Lemma nat_digits36_length (fuel : nat) (n : N) (acc : string) :
  (String.length acc ≤ String.length (nat_digits36 fuel n acc))%nat.
Proof.
  revert n acc. induction fuel as [|fuel IH]; intros n acc; cbn; [done|].
  destruct (n <? 36)%N; cbn; [lia|].
  etrans; [|apply IH]. cbn. lia.
Qed.

(** [toString36] of a clock reading is a numeral of that reading, written
    with [0-9a-z] and not empty: the fuel given to the digit loop always
    suffices. *)
Lemma toString36_spec (n : Z) :
  0 ≤ n →
  toString36 n ≠ ""%string
  ∧ string_forall is_lower36 (toString36 n) = true
  ∧ parse36_from 0 (toString36 n) = Some (Z.to_N n).
Proof.
  intros Hn. unfold toString36.
  replace (n <? 0) with false by (symmetry; apply Z.ltb_ge; lia).
  rewrite Z.abs_eq by done. split.
  - pose proof (nat_digits36_length (N.to_nat (N.log2 (Z.to_N n)))
                  (Z.to_N n / 36) (String (digit36 (Z.to_N n mod 36)) "")) as Hlen.
    cbn [nat_digits36]. destruct (Z.to_N n <? 36)%N; [done|].
    intros Heq. rewrite Heq in Hlen. cbn in Hlen. lia.
  - destruct (nat_digits36_spec (S (N.to_nat (N.log2 (Z.to_N n)))) (Z.to_N n) "")
      as (ds & Hds & Hval & Hall).
    + rewrite Nat2N.inj_succ, N2Nat.id.
      destruct (N.eq_dec (Z.to_N n) 0%N) as [-> | Hpos]; [by vm_compute|].
      apply N.lt_le_trans with (2 ^ N.succ (N.log2 (Z.to_N n)))%N.
      * apply N.log2_spec. lia.
      * apply N.pow_le_mono_l. lia.
    + rewrite Hds, append_empty_r. done.
Qed.

Lemma parse36_nonempty (s : string) :
  s ≠ ""%string → parse36 s = parse36_from 0 s.
Proof. by destruct s. Qed.

(** The timestamp part of an order code can be read back. For a clock
    reading that is not negative, the part of the code between ["GM-"]
    and the second hyphen is a non-empty radix-36 numeral written with
    [0-9A-Z], so it contains no hyphen; its value is the clock reading;
    and no other reading gives the same part. *)
Theorem order_code_timestamp_decodes (w : World) :
  let now := clock w (clock_reads w) in
  let part := toUpperCase (toString36 now) in
  0 ≤ now →
  (∃ suffix,
      (generateOrderCode w).1 = ("GM-" +:+ part +:+ "-" +:+ suffix)%string)
  ∧ part ≠ ""%string
  ∧ string_forall is_code_char part = true
  ∧ parse36 part = Some (Z.to_N now)
  ∧ (∀ m, 0 ≤ m → toUpperCase (toString36 m) = part → m = now).
Proof.
  cbv zeta. intros Hnow.
  destruct (toString36_spec _ Hnow) as (Hne & Hall & Hval).
  assert (Hpart : toUpperCase (toString36 (clock w (clock_reads w))) ≠ ""%string).
  { intros Heq. apply Hne. by destruct (toString36 _). }
  split_and!.
  - unfold generateOrderCode. run_io. eexists. reflexivity.
  - exact Hpart.
  - by apply string_forall_upper.
  - rewrite parse36_nonempty by done. by rewrite parse36_from_upper.
  - intros m Hm Heq. destruct (toString36_spec _ Hm) as (_ & _ & Hvalm).
    rewrite <- (parse36_from_upper 0), Heq, parse36_from_upper, Hval in Hvalm.
    injection Hvalm as Hvalm. lia.
Qed.

(** ** The traffic histogram of the dashboard *)

Section Traffic.
Variable getHours : Z → Z.

Lemma filter_length_views_in_bucket (now h : Z) (pvs : list PageView) :
  length (List.filter
            (λ pv, (now - 24 * 60 * 60 * 1000 <? pv_timestamp pv)
                   && (getHours (pv_timestamp pv) =? h)) pvs)
  = views_in_bucket getHours now h pvs.
Proof.
  induction pvs as [|pv pvs IH]; cbn [List.filter views_in_bucket]; [done|].
  destruct (decide _) as [[Hafter Hhour] | Hno].
  - replace (now - 24 * 60 * 60 * 1000 <? pv_timestamp pv) with true
      by (symmetry; apply Z.ltb_lt; unfold one_hour in Hafter; lia).
    replace (getHours (pv_timestamp pv) =? h) with true
      by (symmetry; by apply Z.eqb_eq).
    cbn. by rewrite IH.
  - destruct (now - 24 * 60 * 60 * 1000 <? pv_timestamp pv) eqn:Hafter;
      destruct (getHours (pv_timestamp pv) =? h) eqn:Hhour; cbn; try done.
    exfalso. apply Hno. apply Z.ltb_lt in Hafter. apply Z.eqb_eq in Hhour.
    unfold one_hour. split; [lia | done].
Qed.

Lemma traffic_by_hour_spec (now : Z) (pvs : list PageView) :
  traffic_by_hour getHours now pvs
  = rev (map (spec_bucket getHours now pvs) (seq 0 24)).
Proof.
  unfold traffic_by_hour. f_equal. apply map_ext. intros i.
  unfold spec_bucket. cbv zeta.
  replace (now - Z.of_nat i * 60 * 60 * 1000) with (now - Z.of_nat i * one_hour)
    by (unfold one_hour; lia).
  by rewrite filter_length_views_in_bucket.
Qed.

Lemma rev_map_seq_lookup {A : Type} (f : nat → A) (n i : nat) :
  (i < n)%nat → rev (map f (seq 0 n)) !! (n - 1 - i)%nat = Some (f i).
Proof.
  intros Hi. rewrite rev_alt. change (rev_append ?l []) with (reverse l).
  rewrite reverse_lookup by (rewrite length_map, length_seq; lia).
  rewrite length_map, length_seq.
  replace (n - S (n - 1 - i))%nat with i by lia.
  change (map f (seq 0 n)) with (f <$> seq 0 n).
  by rewrite list_lookup_fmap, lookup_seq_lt.
Qed.

End Traffic.

(** C4. An authorized dashboard call reads the clock once for [now] and
    returns, as [trafficByHour], the 24 buckets built for [i] from 0 to 23
    in reverse order: the bucket of [i] stands at index [23 - i], its hour
    is the hour of day of [now - i] hours, and its count is the number of
    stored page views later than [now - 24] hours whose hour of day is that
    hour. *)
Theorem dashboard_traffic_by_hour
    (getHours : Z → Z) (env key : option string) (s : State) (w : World) :
  key = Some (ANALYTICS_SECRET env) →
  let now := clock w (clock_reads w) in
  let pvs := an_pageViews (analytics s) in
  ∃ d,
    (get_dashboard getHours env key s w).1 = Ok d
    ∧ trafficByHour d = rev (map (spec_bucket getHours now pvs) (seq 0 24))
    ∧ length (trafficByHour d) = 24%nat
    ∧ (∀ i, (i < 24)%nat →
         trafficByHour d !! (23 - i)%nat
         = Some {| hour := getHours (now - Z.of_nat i * one_hour);
                   views := views_in_bucket getHours now
                              (getHours (now - Z.of_nat i * one_hour)) pvs |})
    ∧ trafficByHour d !! 0%nat = Some (spec_bucket getHours now pvs 23).
Proof.
  intros ->. cbv zeta. unfold get_dashboard.
  rewrite strict_eq_refl. cbn [negb]. run_io.
  eexists. split; [reflexivity|]. cbn [trafficByHour].
  rewrite traffic_by_hour_spec. split_and!.
  - done.
  - by rewrite length_rev, length_map, length_seq.
  - intros i Hi.
    exact (rev_map_seq_lookup
             (spec_bucket getHours (clock w (clock_reads w))
                (an_pageViews (analytics s))) 24 i Hi).
  - apply (rev_map_seq_lookup
             (spec_bucket getHours (clock w (clock_reads w))
                (an_pageViews (analytics s))) 24 23). lia.
Qed.

Lemma dashboard_traffic_by_hour_witness :
  ∃ d,
    (get_dashboard getUTCHours None (Some "guiche2024@analytics"%string)
       two_views.1 two_views.2).1 = Ok d
    ∧ trafficByHour d !! 23%nat = Some {| hour := 22; views := 2 |}
    ∧ trafficByHour d !! 22%nat = Some {| hour := 21; views := 0 |}.
Proof.
  destruct (dashboard_traffic_by_hour getUTCHours None
              (Some "guiche2024@analytics"%string) two_views.1 two_views.2
              eq_refl)
    as (d & Hd & _ & _ & Hbucket & _).
  exists d. split; [exact Hd|]. split.
  - change 23%nat with (23 - 0)%nat.
    rewrite (Hbucket 0%nat) by lia. vm_compute. reflexivity.
  - change 22%nat with (23 - 1)%nat.
    rewrite (Hbucket 1%nat) by lia. vm_compute. reflexivity.
Defined.

(** ** Frames: what each request leaves alone *)

Lemma find_key_Some (h : list KeyObj) (p : KeyObj → bool) (ks : list loc)
    (i j : nat) (l : loc) (k : KeyObj) :
  find_key h p ks i = Some (j, l, k) →
  ∃ pre post, ks = pre ++ l :: post ∧ j = (i + length pre)%nat
              ∧ h !! l = Some k ∧ p k = true.
Proof.
  revert i. induction ks as [|l0 ks IH]; intros i; cbn; [done|].
  destruct (h !! l0) as [k0|] eqn:Hk0.
  - destruct (p k0) eqn:Hp.
    + intros [= <- <- <-]. exists [], ks. cbn. split_and!; auto with lia.
    + intros H. destruct (IH _ H) as (pre & post & -> & -> & ? & ?).
      exists (l0 :: pre), post. cbn. split_and!; auto with lia.
  - intros H. destruct (IH _ H) as (pre & post & -> & -> & ? & ?).
    exists (l0 :: pre), post. cbn. split_and!; auto with lia.
Qed.

Lemma frame_refl (s : State) : frame s s.
Proof. split; eauto with lia. Qed.

Lemma frame_analytics (s : State) (a : Analytics) : frame s (set_analytics a s).
Proof. split; cbn; eauto with lia. Qed.

Lemma frame_well_formed (s s' : State) :
  frame s s' → well_formed s → well_formed s'.
Proof.
  intros [Hgrow Hheap Hkeys Hord Hnew] [Hrefs Hsnap].
  unfold well_formed, refs_valid, snapshots_private in *.
  rewrite Forall_forall in Hrefs. rewrite Forall_forall in Hsnap.
  split; apply Forall_forall.
  - intros l Hl. destruct (Hkeys l Hl) as [Hold | Hfresh]; [|lia].
    specialize (Hrefs l Hold). lia.
  - intros o' Ho'. apply list_elem_of_lookup in Ho' as [i Hi].
    destruct (Hnew i o' Hi) as [(o & Ho & Heq) | [Hfresh Hnotin]].
    + apply list_elem_of_lookup_2 in Ho. destruct (Hsnap o Ho) as [Hlt Hnot].
      rewrite Heq. split; [lia|]. intros Hin.
      destruct (Hkeys _ Hin) as [? | ?]; [done | lia].
    + split; [lia | done].
Qed.

Lemma post_payment_frame (body : PaymentBody) (s : State) (w : World) :
  refs_valid s → frame s (post_payment body s w).1.2.
Proof.
  intros Hrefs.
  destruct (post_payment body s w) as [[[r|e] s'] w'] eqn:Hrun; cbn.
  - destruct (post_payment_Ok _ _ _ _ _ _ Hrun)
      as (customer & items & Hc & Hcomplete & Hi & Hne & Hact).
    destruct (post_payment_success body s w customer items Hc Hcomplete Hi Hne Hact)
      as (ref & k & r' & o & s'' & w'' & Hrun' & _ & _ & _ & _ & Hs' & Ho & _).
    rewrite Hrun' in Hrun. injection Hrun as <- <- <-. subst s''.
    split; cbn [heap pixKeys orders set_orders].
    + rewrite length_app. lia.
    + intros l Hl _. by rewrite lookup_app_l.
    + auto.
    + intros i x Hx. exists x. rewrite lookup_app_l; [done|].
      by eapply lookup_lt_Some.
    + intros i x Hx. rewrite length_app. cbn [length].
      destruct (decide (i < length (orders s))%nat) as [Hlt | Hge].
      * rewrite lookup_app_l in Hx by done. eauto.
      * rewrite lookup_app_r in Hx by lia.
        destruct (i - length (orders s))%nat; [|done].
        injection Hx as <-. subst o. cbn. right. split; [lia|].
        intros Hin. unfold refs_valid in Hrefs. rewrite Forall_forall in Hrefs.
        specialize (Hrefs _ Hin). lia.
  - assert (s' = s) as ->; [|apply frame_refl].
    revert Hrun. unfold post_payment. unfold generateOrderCode. run_io.
    destruct (pb_customer body) as [customer|]; [|by intros [= _ <- _]].
    destruct (negb (complete_customer customer)); [by intros [= _ <- _]|].
    destruct (pb_items body) as [[|it items]|]; try by intros [= _ <- _].
    destruct (getRandomPixKey s w) as [[ref|] w1]; [|by intros [= _ <- _]].
    destruct (heap s !! ref); [done | by intros [= _ <- _]].
Qed.

Lemma post_confirm_frame (orderId : string) (s : State) (w : World) :
  frame s (post_confirm orderId s w).1.2.
Proof.
  unfold post_confirm.
  destruct (js_find _ _) as [[i o]|] eqn:Hfind; run_io; [|apply frame_refl].
  apply js_find_Some in Hfind as (pre & post & Hs & -> & _ & _).
  split; cbn [heap pixKeys orders set_orders]; auto.
  - intros j x Hx. destruct (decide (j = length pre)) as [-> | Hne].
    + rewrite Hs in *. rewrite insert_middle, list_lookup_middle in * by done.
      injection Hx as <-. eauto.
    + rewrite list_lookup_insert_ne by done. eauto.
  - intros j x Hx. left. destruct (decide (j = length pre)) as [-> | Hne].
    + rewrite Hs in *. rewrite insert_middle, list_lookup_middle in * by done.
      injection Hx as <-. eauto.
    + rewrite list_lookup_insert_ne in Hx by done. eauto.
Qed.

Lemma post_pix_key_frame (body : KeyBody) (s : State) (w : World) :
  frame s (post_pix_key body s w).1.2 ∧ orders (post_pix_key body s w).1.2 = orders s.
Proof.
  unfold post_pix_key.
  destruct (negb _); [run_io; auto using frame_refl|].
  destruct (5 <=? _)%nat; [run_io; auto using frame_refl|].
  destruct (existsb _ _); [run_io; auto using frame_refl|].
  run_io. split; [|done].
  split; cbn [heap pixKeys orders set_keys]; rewrite ?length_app; cbn [length].
  - lia.
  - intros l Hl _. by rewrite lookup_app_l.
  - intros l Hl. apply elem_of_app in Hl as [Hl | Hl]; [auto|].
    apply list_elem_of_singleton in Hl. right. lia.
  - eauto.
  - eauto.
Qed.

Lemma put_pix_key_frame (id : string) (body : KeyBody) (s : State) (w : World) :
  frame s (put_pix_key id body s w).1.2
  ∧ orders (put_pix_key id body s w).1.2 = orders s
  ∧ pixKeys (put_pix_key id body s w).1.2 = pixKeys s.
Proof.
  unfold put_pix_key.
  destruct (find_key _ _ _ _) as [[[i ref] k]|] eqn:Hfind; run_io;
    [|auto using frame_refl].
  apply find_key_Some in Hfind as (pre & post & Hks & _ & Hk & _).
  split; [|done].
  split; cbn [heap pixKeys orders set_keys]; rewrite ?length_insert; eauto.
  intros l Hl Hnot. apply list_lookup_insert_ne. intros <-.
  apply Hnot. rewrite Hks. apply elem_of_app. right. by left.
Qed.

Lemma delete_pix_key_frame (id : string) (s : State) :
  frame s (delete_pix_key id s).2
  ∧ orders (delete_pix_key id s).2 = orders s
  ∧ heap (delete_pix_key id s).2 = heap s.
Proof.
  unfold delete_pix_key.
  destruct (find_key _ _ _ _) as [[[i ref] k]|] eqn:Hfind; cbn [snd];
    [|auto using frame_refl].
  split; [|done].
  split; cbn [heap pixKeys orders set_keys]; eauto.
  intros l Hl. left. by eapply list_elem_of_delete_inv.
Qed.

Lemma handle_frame (req : Request) (s : State) (w : World) :
  refs_valid s → frame s (handle req s w).1.
Proof.
  intros Hrefs. destruct req; cbn [handle]; run_io.
  - pose proof (post_payment_frame body s w Hrefs) as H.
    by destruct (post_payment body s w) as [[r s'] w'].
  - pose proof (post_confirm_frame orderId s w) as H.
    by destruct (post_confirm orderId s w) as [[r s'] w'].
  - pose proof (post_pix_key_frame body s w) as [H _].
    by destruct (post_pix_key body s w) as [[r s'] w'].
  - pose proof (put_pix_key_frame id body s w) as [H _].
    by destruct (put_pix_key id body s w) as [[r s'] w'].
  - apply delete_pix_key_frame.
  - unfold post_pageview. run_io. apply frame_analytics.
  - unfold post_checkout. run_io. apply frame_analytics.
  - unfold post_conversion. destruct (js_find _ _) as [[i c]|]; run_io;
      apply frame_analytics.
  - unfold post_reset. destruct (negb _); cbn; [apply frame_refl|].
    apply frame_analytics.
Qed.

Lemma initial_state_well_formed (t0 : Z) : well_formed (initial_state t0).
Proof.
  split.
  - apply Forall_singleton. cbn. lia.
  - apply Forall_nil_2.
Qed.

(** Every state the server reaches is well formed: the registry refers
    to heap objects, and the key object of an order is no object of the
    registry. *)
Lemma reachable_well_formed (s : State) : reachable s → well_formed s.
Proof.
  induction 1 as [t0 | s req w _ IH].
  - apply initial_state_well_formed.
  - eapply frame_well_formed; [|exact IH]. apply handle_frame, IH.
Qed.

(** C8. In a well-formed state, which every reachable state is, an
    operation of the key registry (adding a key, updating any field of any
    key, the assigned one included, removing a key) leaves the orders as
    they are and leaves the key object of every stored order as it is: the
    object holds the [id], [key], [type] and [name] copied when the order
    was created and is not an object of the registry. *)
Theorem order_key_snapshot_is_frozen
    (s : State) (o : Order) (req : Request) (w : World) :
  well_formed s → o ∈ orders s → registry_request req →
  let s' := (handle req s w).1 in
  orders s' = orders s
  ∧ heap s' !! order_pixKey o = heap s !! order_pixKey o
  ∧ (order_pixKey o ∉ pixKeys s')
  ∧ (∃ snapshot, heap s' !! order_pixKey o = Some snapshot).
Proof.
  intros [Hrefs Hsnap] Ho Hreq. cbv zeta.
  unfold snapshots_private in Hsnap. rewrite Forall_forall in Hsnap.
  destruct (Hsnap o Ho) as [Hlt Hnot].
  pose proof (handle_frame req s w Hrefs) as [Hgrow Hheap Hkeys _ _].
  assert (Horders : orders (handle req s w).1 = orders s).
  { destruct req; try done; cbn [handle]; run_io.
    - pose proof (post_pix_key_frame body s w) as [_ H].
      by destruct (post_pix_key body s w) as [[r s'] w'].
    - pose proof (put_pix_key_frame id body s w) as (_ & H & _).
      by destruct (put_pix_key id body s w) as [[r s'] w'].
    - apply delete_pix_key_frame. }
  split; [exact Horders|]. split; [by apply Hheap|]. split.
  - intros Hin. destruct (Hkeys _ Hin) as [? | ?]; [done | lia].
  - rewrite Hheap by done. by apply lookup_lt_is_Some_2.
Qed.

Lemma order_key_snapshot_is_frozen_witness :
  ∃ o,
    orders two_orders_apart.1 !! 0%nat = Some o
    ∧ key_strings (handle (UpdateKey "1" overwrite_body)
                     two_orders_apart.1 two_orders_apart.2).1
      = ["changed@example.com"%string]
    ∧ heap (handle (UpdateKey "1" overwrite_body)
              two_orders_apart.1 two_orders_apart.2).1 !! order_pixKey o
      = Some (key_snapshot (seed_key 0))
    ∧ orders (handle (UpdateKey "1" overwrite_body)
                two_orders_apart.1 two_orders_apart.2).1
      = orders two_orders_apart.1.
Proof.
  assert (Ho : ∃ o, orders two_orders_apart.1 !! 0%nat = Some o)
    by (eexists; vm_compute; reflexivity).
  destruct Ho as [o Ho]. exists o.
  destruct (order_key_snapshot_is_frozen two_orders_apart.1 o
              (UpdateKey "1" overwrite_body) two_orders_apart.2)
    as (Horders & Hheap & _ & _).
  - apply (bool_decide_unpack _). vm_compute. exact I.
  - by eapply list_elem_of_lookup_2.
  - exact I.
  - split; [exact Ho|]. split; [vm_compute; reflexivity|].
    split; [|exact Horders].
    rewrite Hheap. revert Ho. vm_compute. intros [= <-]. reflexivity.
Defined.


(** ** The registry invariant *)

Lemma key_strings_omap (s : State) :
  key_strings s = omap (λ l, key_key <$> heap s !! l) (pixKeys s).
Proof. unfold key_strings, registered_keys. apply list_fmap_omap. Qed.

Lemma key_strings_ext (s s' : State) :
  pixKeys s' = pixKeys s →
  (∀ l, l ∈ pixKeys s → key_key <$> heap s' !! l = key_key <$> heap s !! l) →
  key_strings s' = key_strings s.
Proof.
  intros Hks Hh. rewrite !key_strings_omap, Hks.
  apply list_omap_ext. apply Forall2_same_length_lookup. split; [done|].
  intros i l l' Hl Hl'. rewrite Hl in Hl'. injection Hl' as <-.
  apply Hh. by eapply list_elem_of_lookup_2.
Qed.

Lemma NoDup_remove_middle {A : Type} (pre post : list A) (x : A) :
  NoDup (pre ++ x :: post) → NoDup (pre ++ post).
Proof.
  rewrite !NoDup_app, NoDup_cons. intros (Hpre & Hdisj & _ & Hpost).
  split_and!; [done | | done].
  intros a Ha Hin. apply (Hdisj a Ha). by right.
Qed.

(** Every request other than a [PUT] that sets a key string keeps the
    key strings of the registry distinct and their number within five. *)
Lemma registry_invariant_preserved (req : Request) (s : State) (w : World) :
  well_formed s → registry_invariant s →
  (∀ id body, req = UpdateKey id body → kb_key body = None) →
  registry_invariant (handle req s w).1.
Proof.
  intros [Hrefs _] [Hnd Hsize] Hput.
  unfold refs_valid in Hrefs. rewrite Forall_forall in Hrefs.
  assert (Hsame : ∀ s', pixKeys s' = pixKeys s →
            (∀ l, l ∈ pixKeys s →
                  key_key <$> heap s' !! l = key_key <$> heap s !! l) →
            registry_invariant s').
  { intros s' Hks Hh. unfold registry_invariant.
    by rewrite (key_strings_ext s s' Hks Hh), Hks. }
  destruct req; cbn [handle]; run_io.
  - (* create: the heap grows by the object of the order *)
    destruct (post_payment body s w) as [[[r|e] s'] w'] eqn:Hrun; cbn.
    + destruct (post_payment_Ok _ _ _ _ _ _ Hrun)
        as (customer & items & Hc & Hcomplete & Hi & Hne & Hact).
      destruct (post_payment_success body s w customer items Hc Hcomplete Hi Hne Hact)
        as (ref & k & r' & o & s'' & w'' & Hrun' & _ & _ & _ & _ & Hs' & _ & _).
      rewrite Hrun' in Hrun. injection Hrun as <- <- <-. subst s''.
      apply Hsame; [done|]. intros l Hl. cbn. by rewrite lookup_app_l by auto.
    + assert (s' = s) as ->; [|done].
      revert Hrun. unfold post_payment, generateOrderCode. run_io.
      destruct (pb_customer body) as [customer|]; [|by intros [= _ <- _]].
      destruct (negb (complete_customer customer)); [by intros [= _ <- _]|].
      destruct (pb_items body) as [[|it items]|]; try by intros [= _ <- _].
      destruct (getRandomPixKey s w) as [[ref|] w1]; [|by intros [= _ <- _]].
      destruct (heap s !! ref); [done | by intros [= _ <- _]].
  - (* confirm *)
    unfold post_confirm. destruct (js_find _ _) as [[i o]|]; run_io; by apply Hsame.
  - (* add *)
    unfold post_pix_key.
    destruct (negb _); [by run_io|].
    destruct (5 <=? _)%nat eqn:Hcap; [by run_io|].
    destruct (existsb _ _) eqn:Hdup; [by run_io|]. run_io.
    apply Nat.leb_gt in Hcap.
    assert (Hnew : ¬ key_registered (default ""%string (kb_key body)) s).
    { rewrite <- key_registered_existsb. by rewrite Hdup. }
    split; cbn [pixKeys set_keys]; [|rewrite length_app; cbn; lia].
    rewrite key_strings_omap. cbn [heap pixKeys set_keys].
    rewrite omap_app. cbn. rewrite lookup_app_r, Nat.sub_diag by done. cbn.
    replace (omap _ (pixKeys s)) with (key_strings s).
    + apply NoDup_app. split_and!; [done | | apply NoDup_singleton].
      intros x Hx Hin. apply list_elem_of_singleton in Hin as ->. by apply Hnew.
    + rewrite key_strings_omap. apply list_omap_ext.
      apply Forall2_same_length_lookup. split; [done|].
      intros i l l' Hl Hl'. rewrite Hl in Hl'. injection Hl' as <-.
      rewrite lookup_app_l; [done|]. apply Hrefs. by eapply list_elem_of_lookup_2.
  - (* update without a key string *)
    specialize (Hput id body eq_refl). unfold put_pix_key.
    destruct (find_key _ _ _ _) as [[[i ref] k]|] eqn:Hfind; run_io; [|done].
    apply find_key_Some in Hfind as (pre & post & Hks & _ & Hk & _).
    apply Hsame; [done|]. intros l Hl. cbn [heap set_keys].
    destruct (decide (l = ref)) as [-> | Hne].
    + rewrite list_lookup_insert_eq by (by eapply lookup_lt_Some).
      rewrite Hk. cbn. by rewrite Hput.
    + by rewrite list_lookup_insert_ne.
  - (* remove *)
    unfold delete_pix_key.
    destruct (find_key _ _ _ _) as [[[i ref] k]|] eqn:Hfind; cbn [snd]; [|done].
    apply find_key_Some in Hfind as (pre & post & Hks & -> & Hk & _).
    rewrite key_strings_omap in Hnd. rewrite Hks in Hnd, Hsize.
    rewrite omap_app in Hnd. cbn in Hnd. rewrite Hk in Hnd. cbn in Hnd.
    split; cbn [pixKeys heap set_keys Nat.add].
    + rewrite key_strings_omap. cbn [pixKeys heap set_keys Nat.add].
      rewrite Hks, delete_middle, omap_app. by eapply NoDup_remove_middle.
    + rewrite Hks, delete_middle. rewrite !length_app in *. cbn in Hsize. lia.
  - unfold post_pageview. run_io. by apply Hsame.
  - unfold post_checkout. run_io. by apply Hsame.
  - unfold post_conversion. destruct (js_find _ _) as [[i c]|]; run_io; by apply Hsame.
  - unfold post_reset. destruct (negb _); cbn; by apply Hsame.
Qed.

(** An update never changes the number of registered keys. *)
Lemma put_pix_key_size (id : string) (body : KeyBody) (s : State) (w : World) :
  length (pixKeys (put_pix_key id body s w).1.2) = length (pixKeys s).
Proof. by destruct (put_pix_key_frame id body s w) as (_ & _ & ->). Qed.

Lemma registry_invariant_preserved_witness :
  registry_invariant
    (handle (RemoveKey "1") (registry_of 4).1 (registry_of 4).2).1
  ∧ registry_invariant
      (handle (AddKey (key_body "key-9")) (registry_of 3).1 (registry_of 3).2).1.
Proof.
  split; apply registry_invariant_preserved; try discriminate.
  - apply (bool_decide_unpack _). vm_compute. exact I.
  - split; [|vm_compute; lia].
    apply (bool_decide_unpack _). vm_compute. exact I.
  - apply (bool_decide_unpack _). vm_compute. exact I.
  - split; [|vm_compute; lia].
    apply (bool_decide_unpack _). vm_compute. exact I.
Defined.


Lemma order_code_timestamp_decodes_witness :
  let w := sample_world 1700000000000 1 one_half in
  (generateOrderCode w).1 = "GM-LOYW3V28-I"%string
  ∧ parse36 "LOYW3V28" = Some (Z.to_N 1700000000000).
Proof.
  cbv zeta.
  destruct (order_code_timestamp_decodes (sample_world 1700000000000 1 one_half))
    as (_ & _ & _ & Hval & _); [cbn; lia|].
  split; [vm_compute; reflexivity|].
  etrans; [|exact Hval]. vm_compute. reflexivity.
Defined.

(* ================================================================= *)
(** * Further properties of the endpoints *)

(** ** Refused payments *)

Lemma no_active_key (s : State) :
  active_refs s = [] ↔ ¬ ∃ k, k ∈ registered_keys s ∧ is_active k = true.
Proof.
  split.
  - intros Hnil Hex. by apply active_refs_nonempty in Hex.
  - intros Hno. destruct (active_refs s) as [|ref l] eqn:Hact; [done|].
    exfalso. apply Hno.
    assert (Hin : ref ∈ active_refs s) by (rewrite Hact; by left).
    apply active_refs_spec in Hin as (Hreg & k & Hk & Hactive).
    exists k. split; [|done]. apply list_elem_of_omap. eauto.
Qed.

Lemma some_active_key (s : State) :
  active_refs s ≠ [] → ∃ k, k ∈ registered_keys s ∧ is_active k = true.
Proof.
  intros Hne. destruct (active_refs s) as [|ref l] eqn:Hact; [done|].
  assert (Hin : ref ∈ active_refs s) by (rewrite Hact; by left).
  apply active_refs_spec in Hin as (Hreg & k & Hk & Hactive).
  exists k. split; [|done]. apply list_elem_of_omap. eauto.
Qed.

Lemma post_payment_no_customer (body : PaymentBody) (s : State) (w : World) :
  (∀ c, pb_customer body = Some c → complete_customer c = false) →
  post_payment body s w = (Err IncompleteCustomer, s, w).
Proof.
  intros Hc. unfold post_payment.
  destruct (pb_customer body) as [c|]; [|done].
  by rewrite (Hc c eq_refl).
Qed.

Lemma post_payment_no_items (body : PaymentBody) (s : State) (w : World)
    (c : CustomerInput) :
  pb_customer body = Some c → complete_customer c = true →
  pb_items body = None ∨ pb_items body = Some [] →
  post_payment body s w = (Err EmptyCart, s, w).
Proof.
  intros Hc Hcomplete Hi. unfold post_payment. rewrite Hc, Hcomplete.
  by destruct Hi as [-> | ->].
Qed.

Lemma post_payment_no_key (body : PaymentBody) (s : State) (w : World)
    (c : CustomerInput) (items : list ItemInput) :
  pb_customer body = Some c → complete_customer c = true →
  pb_items body = Some items → items ≠ [] → active_refs s = [] →
  post_payment body s w = (Err NoPixKeyAvailable, s, w).
Proof.
  intros Hc Hcomplete Hi Hne Hact. unfold post_payment.
  rewrite Hc, Hcomplete, Hi. destruct items as [|it items]; [done|].
  cbn [negb]. run_io. by rewrite (getRandomPixKey_none _ _ Hact).
Qed.

(** [POST /api/payment] validates in a fixed order and refuses for three
    reasons only: a customer that is missing or lacks a non-empty name,
    email or CPF (400); then a cart that is missing or empty (400); then
    a registry without an active key, whatever inactive keys it holds
    (500). The catch branch is never taken. A refused request changes
    nothing: no order is stored, and neither the clock nor the random
    source nor the identifier source is consulted. *)
Theorem payment_rejections (body : PaymentBody) (s : State) (w : World) :
  let res := post_payment body s w in
  let customer_ok := ∃ c, pb_customer body = Some c ∧ complete_customer c = true in
  let cart_ok := ∃ items, pb_items body = Some items ∧ items ≠ [] in
  let key_ok := ∃ k, k ∈ registered_keys s ∧ is_active k = true in
  (res.1.1 = Err IncompleteCustomer ↔ ¬ customer_ok)
  ∧ (res.1.1 = Err EmptyCart ↔ customer_ok ∧ ¬ cart_ok)
  ∧ (res.1.1 = Err NoPixKeyAvailable ↔ customer_ok ∧ cart_ok ∧ ¬ key_ok)
  ∧ (is_ok res.1.1 = true ↔ customer_ok ∧ cart_ok ∧ key_ok)
  ∧ (∀ e, res.1.1 = Err e →
       res = (Err e, s, w)
       ∧ (e = IncompleteCustomer ∨ e = EmptyCart ∨ e = NoPixKeyAvailable)).
Proof.
  cbv zeta.
  set (customer_ok := ∃ c, pb_customer body = Some c ∧ complete_customer c = true).
  set (cart_ok := ∃ items, pb_items body = Some items ∧ items ≠ []).
  set (key_ok := ∃ k, k ∈ registered_keys s ∧ is_active k = true).
  assert (Hcases :
    (¬ customer_ok ∧ post_payment body s w = (Err IncompleteCustomer, s, w))
    ∨ (customer_ok ∧ ¬ cart_ok ∧ post_payment body s w = (Err EmptyCart, s, w))
    ∨ (customer_ok ∧ cart_ok ∧ ¬ key_ok
       ∧ post_payment body s w = (Err NoPixKeyAvailable, s, w))
    ∨ (customer_ok ∧ cart_ok ∧ key_ok
       ∧ ∃ r s' w', post_payment body s w = (Ok r, s', w'))).
  { destruct (pb_customer body) as [c|] eqn:Hc.
    2:{ left. split; [by intros (c & [=] & _)|].
        apply post_payment_no_customer. intros c. by rewrite Hc. }
    destruct (complete_customer c) eqn:Hcomplete.
    2:{ left. split; [intros (c0 & [= <-] & Hc0); congruence|].
        apply post_payment_no_customer.
        intros c' Hc'. rewrite Hc in Hc'. by injection Hc' as <-. }
    assert (Hcust : customer_ok) by (exists c; done).
    right. destruct (pb_items body) as [[|it items]|] eqn:Hi.
    - left. split; [done|]. split; [by intros (? & [= <-] & ?)|].
      apply (post_payment_no_items body s w c); auto.
    - right. assert (Hcart : cart_ok) by (exists (it :: items); done).
      destruct (active_refs s) as [|ref refs] eqn:Hact.
      + left. split_and!; [done | done | by apply no_active_key|].
        by apply (post_payment_no_key body s w c (it :: items)).
      + right. assert (Hne : active_refs s ≠ []) by (by rewrite Hact).
        split_and!; [done | done | by apply some_active_key|].
        destruct (post_payment_success body s w c (it :: items))
          as (ref' & k & r & o & s' & w' & Hrun & _); try done.
        eauto.
    - left. split; [done|]. split; [by intros (? & [=] & ?)|].
      apply (post_payment_no_items body s w c); auto. }
  clearbody customer_ok cart_ok key_ok.
  destruct Hcases as [[H1 ->] | [(H1 & H2 & ->) | [(H1 & H2 & H3 & ->)
                     | (H1 & H2 & H3 & r & s' & w' & ->)]]]; cbn.
  all: split_and!; try (split; intros; try done; tauto).
  all: try (intros e [= <-]; auto).
Qed.

(** ** The stored customer *)

Lemma strip_non_digits_digits (s : string) :
  string_forall is_digit (strip_non_digits s) = true.
Proof.
  induction s as [|c s IH]; cbn; [done|].
  destruct (is_digit c) eqn:Hc; cbn; [by rewrite Hc|done].
Qed.

Lemma strip_non_digits_id (s : string) :
  string_forall is_digit s = true → strip_non_digits s = s.
Proof.
  induction s as [|c s IH]; cbn; [done|].
  intros [-> Hs]%andb_true_iff. by rewrite IH.
Qed.

Lemma strip_non_digits_length (s : string) :
  (String.length (strip_non_digits s) ≤ String.length s)%nat.
Proof.
  induction s as [|c s IH]; cbn; [done|]. destruct (is_digit c); cbn; lia.
Qed.

(** A created order keeps the name and the email of the request as they
    came, keeps of the CPF and of the phone only the decimal digits, in
    their order (so a value made of digits is kept as it is, and a CPF
    without any digit is accepted and stored empty), and stores an empty
    phone when the request has none. *)
Theorem stored_customer_is_normalized
    (body : PaymentBody) (s : State) (w : World) (r : PaymentResponse)
    (c : CustomerInput) :
  (post_payment body s w).1.1 = Ok r →
  pb_customer body = Some c →
  ∃ o name email cpf,
    orders (post_payment body s w).1.2 = orders s ++ [o]
    ∧ ci_name c = Some name ∧ ci_email c = Some email ∧ ci_cpf c = Some cpf
    ∧ cust_name (order_customer o) = name
    ∧ cust_email (order_customer o) = email
    ∧ cust_cpf (order_customer o) = strip_non_digits cpf
    ∧ string_forall is_digit (cust_cpf (order_customer o)) = true
    ∧ string_forall is_digit (cust_phone (order_customer o)) = true
    ∧ (string_forall is_digit cpf = true → cust_cpf (order_customer o) = cpf)
    ∧ (String.length (cust_cpf (order_customer o)) ≤ String.length cpf)%nat
    ∧ (ci_phone c = None → cust_phone (order_customer o) = ""%string)
    ∧ (∀ p, ci_phone c = Some p →
            cust_phone (order_customer o) = strip_non_digits p).
Proof.
  intros Hr Hc. apply post_payment_result in Hr as (s' & w' & Hrun).
  destruct (post_payment_Ok _ _ _ _ _ _ Hrun)
    as (c' & items & Hc' & Hcomplete & Hi & Hne & Hact).
  rewrite Hc in Hc'. injection Hc' as <-.
  destruct (post_payment_success body s w c items Hc Hcomplete Hi Hne Hact)
    as (ref & k & r' & o & s'' & w'' & Hrun' & _ & _ & _ & _ & Hs' & Ho & _).
  rewrite Hrun'. cbn [fst snd]. subst s''. cbn [orders set_orders].
  unfold complete_customer in Hcomplete.
  apply andb_true_iff in Hcomplete as [[Hn He]%andb_true_iff Hp].
  apply present_Some in Hn as (name & Hn & _).
  apply present_Some in He as (email & He & _).
  apply present_Some in Hp as (cpf & Hp & _).
  exists o, name, email, cpf. subst o. cbn. rewrite Hn, He, Hp. cbn.
  split_and!; try done.
  - apply strip_non_digits_digits.
  - destruct (ci_phone c); [apply strip_non_digits_digits | done].
  - apply strip_non_digits_id.
  - apply strip_non_digits_length.
  - by intros ->.
  - by intros p ->.
Qed.

Lemma stored_customer_is_normalized_witness :
  ∃ o,
    orders (post_payment sample_body (initial_state 0)
              (sample_world 1700000000000 1 one_half)).1.2 = [o]
    ∧ cust_cpf (order_customer o) = "12345678900"%string
    ∧ cust_phone (order_customer o) = "11999990000"%string.
Proof.
  assert (Hr : ∃ r, (post_payment sample_body (initial_state 0)
                       (sample_world 1700000000000 1 one_half)).1.1 = Ok r)
    by (eexists; vm_compute; reflexivity).
  destruct Hr as [r Hr].
  destruct (stored_customer_is_normalized _ _ _ r sample_customer Hr eq_refl)
    as (o & name & email & cpf & Ho & _ & _ & Hcpf & _ & _ & Hstored & _ & _ & _
        & _ & _ & Hphone).
  exists o. split; [exact Ho|]. split.
  - rewrite Hstored. injection Hcpf as <-. reflexivity.
  - rewrite (Hphone _ eq_refl). reflexivity.
Defined.

(** ** Reading an order back *)

Lemma order_matches_true (a : string) (x : Order) :
  order_matches a x = true ↔ order_id x = a ∨ order_code x = a.
Proof. unfold order_matches. by rewrite orb_true_iff, !String.eqb_eq. Qed.

(** An order can be read back as soon as it is created. When no order
    stored before has an identifier or a code equal to the accessor, be
    it the identifier or the code returned by [POST /api/payment], then
    [GET /api/order/:orderId] returns the new order: pending, not paid,
    with the total, the name, the email and the normalized items of the
    request; and [GET /api/admin/orders] lists it last. *)
Theorem create_then_get
    (body : PaymentBody) (s : State) (w : World) (r : PaymentResponse)
    (a : string) :
  (post_payment body s w).1.1 = Ok r →
  a = pr_id r ∨ a = pr_code r →
  (∀ x, x ∈ orders s → order_id x ≠ a ∧ order_code x ≠ a) →
  let s' := (post_payment body s w).1.2 in
  ∃ v o,
    get_order a s' = Ok v
    ∧ orders s' = orders s ++ [o]
    ∧ v = order_view o
    ∧ ov_id v = pr_id r ∧ ov_code v = pr_code r
    ∧ ov_status v = pending ∧ ov_paidAt v = None
    ∧ ov_total v = pb_total body
    ∧ ov_expiresAt v = pr_expiresAt r
    ∧ Some (ov_items v) = map normalize_item <$> pb_items body
    ∧ Some (ov_customer_name v) = (pb_customer body ≫= ci_name)
    ∧ Some (ov_customer_email v) = (pb_customer body ≫= ci_email)
    ∧ get_admin_orders s'
      = ((get_admin_orders s).1 ++ [order_summary o], S (get_admin_orders s).2).
Proof.
  intros Hr Ha Hfresh. cbv zeta.
  apply post_payment_result in Hr as (s' & w' & Hrun).
  destruct (post_payment_Ok _ _ _ _ _ _ Hrun)
    as (c & items & Hc & Hcomplete & Hi & Hne & Hact).
  destruct (post_payment_success body s w c items Hc Hcomplete Hi Hne Hact)
    as (ref & k & r' & o & s'' & w'' & Hrun' & _ & _ & _ & _ & Hs' & Ho & Hr').
  rewrite Hrun' in Hrun. injection Hrun as <- <- <-.
  rewrite Hrun'. cbn [fst snd]. exists (order_view o), o.
  assert (Hmatch : order_matches a o = true).
  { apply order_matches_true. subst r' o. cbn in *.
    destruct Ha as [-> | ->]; [by left | by right]. }
  assert (Hfind : js_find (order_matches a) (orders s ++ [o])
                  = Some (length (orders s), o)).
  { apply js_find_first; [|done]. apply Forall_forall. intros x Hx.
    apply order_matches_false. auto. }
  unfold complete_customer in Hcomplete.
  apply andb_true_iff in Hcomplete as [[Hn He]%andb_true_iff _].
  apply present_Some in Hn as (name & Hn & _).
  apply present_Some in He as (email & He & _).
  unfold get_order, get_admin_orders. subst s''. cbn [orders set_orders].
  rewrite Hfind, map_app, length_app. subst r' o. cbn.
  rewrite Hi, Hc, Hn, He. cbn.
  split_and!; try done. f_equal. lia.
Qed.

Lemma create_then_get_witness :
  ∃ v,
    get_order "uuid-0"
      (post_payment sample_body (initial_state 0)
         (sample_world 1700000000000 1 one_half)).1.2 = Ok v
    ∧ ov_status v = pending ∧ ov_total v = JNum 7
    ∧ ov_customer_name v = "Ana"%string.
Proof.
  assert (Hr : ∃ r, (post_payment sample_body (initial_state 0)
                       (sample_world 1700000000000 1 one_half)).1.1 = Ok r
                    ∧ pr_id r = "uuid-0"%string)
    by (eexists; split; vm_compute; reflexivity).
  destruct Hr as (r & Hr & Hid).
  destruct (create_then_get sample_body (initial_state 0)
              (sample_world 1700000000000 1 one_half) r "uuid-0" Hr)
    as (v & o & Hget & _ & _ & _ & _ & Hst & _ & Htot & _ & _ & Hname & _).
  - left. by rewrite Hid.
  - intros x Hx. by apply elem_of_nil in Hx.
  - exists v. split; [exact Hget|]. split; [exact Hst|]. split; [exact Htot|].
    cbn in Hname. by injection Hname.
Defined.

(** [GET /api/order/:orderId] and [POST /api/payment/:orderId/confirm]
    answer 'not found' exactly when no stored order has the accessor as
    its identifier or as its code; a confirmation that finds nothing
    leaves the orders alone and does not read the clock. *)
Theorem order_not_found (a : string) (s : State) (w : World) :
  let unknown := ∀ x, x ∈ orders s → order_id x ≠ a ∧ order_code x ≠ a in
  (get_order a s = Err OrderNotFound ↔ unknown)
  ∧ ((post_confirm a s w).1.1 = Err OrderNotFound ↔ unknown)
  ∧ (unknown → post_confirm a s w = (Err OrderNotFound, s, w))
  ∧ (∀ e, (post_confirm a s w).1.1 = Err e → e = OrderNotFound)
  ∧ (∀ e, get_order a s = Err e → e = OrderNotFound).
Proof.
  cbv zeta. unfold get_order, post_confirm.
  destruct (js_find (order_matches a) (orders s)) as [[i o]|] eqn:Hfind.
  - apply js_find_Some in Hfind as (pre & post & Hs & _ & Hm & _).
    apply order_matches_true in Hm.
    assert (Hknown : ¬ ∀ x, x ∈ orders s → order_id x ≠ a ∧ order_code x ≠ a).
    { intros Hun. destruct (Hun o) as [? ?]; [|tauto].
      rewrite Hs. apply elem_of_app. right. by left. }
    run_io. split_and!; try done.
  - apply find_from_is_None in Hfind. rewrite Forall_forall in Hfind.
    assert (Hun : ∀ x, x ∈ orders s → order_id x ≠ a ∧ order_code x ≠ a).
    { intros x Hx. apply order_matches_false. auto. }
    run_io. split_and!; try done.
    + by intros e [= <-].
    + by intros e [= <-].
Qed.

Lemma post_confirm_found (a : string) (s : State) (w : World) (i : nat)
    (x : Order) :
  js_find (order_matches a) (orders s) = Some (i, x) →
  post_confirm a s w
  = (Ok {| cr_id := order_id x; cr_code := order_code x; cr_status := paid;
           cr_paidAt := Some (clock w (clock_reads w)) |},
     set_orders (heap s) (<[i := mark_paid (clock w (clock_reads w)) x]> (orders s)) s,
     (date_now w).2).
Proof. intros Hfind. unfold post_confirm. by rewrite Hfind. Qed.

(** Confirmation can be repeated: it finds the same order again, answers
    [paid] again, and overwrites [paidAt] with the new clock reading; it
    never refuses an order because it is already paid. *)
Theorem reconfirm_overwrites_paidAt
    (s : State) (w : World) (o : Order) (a : string) :
  o ∈ orders s → a = order_id o ∨ a = order_code o →
  let first := post_confirm a s w in
  let second := post_confirm a first.1.2 first.2 in
  ∃ r1 r2 i found,
    first.1.1 = Ok r1 ∧ second.1.1 = Ok r2
    ∧ js_find (order_matches a) (orders s) = Some (i, found)
    ∧ cr_id r1 = order_id found ∧ cr_id r2 = order_id found
    ∧ cr_code r1 = order_code found ∧ cr_code r2 = order_code found
    ∧ cr_status r1 = paid ∧ cr_status r2 = paid
    ∧ cr_paidAt r1 = Some (clock w (clock_reads w))
    ∧ cr_paidAt r2 = Some (clock w (S (clock_reads w)))
    ∧ orders first.1.2
      = <[i := mark_paid (clock w (clock_reads w)) found]> (orders s)
    ∧ orders second.1.2
      = <[i := mark_paid (clock w (S (clock_reads w))) found]> (orders s).
Proof.
  intros Ho Ha. cbv zeta.
  destruct (js_find (order_matches a) (orders s)) as [[i x]|] eqn:Hfind.
  2:{ apply find_from_is_None in Hfind. rewrite Forall_forall in Hfind.
      specialize (Hfind o Ho). apply order_matches_false in Hfind.
      destruct Ha as [-> | ->]; tauto. }
  pose proof Hfind as Hfind'.
  apply js_find_Some in Hfind' as (pre & post & Hs & -> & Hm & Hpre).
  rewrite (post_confirm_found a s w _ _ Hfind). cbn [fst snd].
  set (t1 := clock w (clock_reads w)).
  assert (Hfind2 : js_find (order_matches a)
                     (orders (set_orders (heap s)
                                (<[length pre := mark_paid t1 x]> (orders s)) s))
                   = Some (length pre, mark_paid t1 x)).
  { cbn [orders set_orders]. rewrite Hs, insert_middle.
    apply js_find_first; [done|]. by rewrite order_matches_mark_paid. }
  rewrite (post_confirm_found a _ _ _ _ Hfind2). cbn [fst snd orders set_orders].
  eexists _, _, _, _. split_and!; try reflexivity.
  rewrite Hs, !insert_middle. reflexivity.
Qed.

Lemma reconfirm_overwrites_paidAt_witness :
  ∃ r1 r2,
    (post_confirm "uuid-0" two_orders_apart.1 two_orders_apart.2).1.1 = Ok r1
    ∧ (post_confirm "uuid-0"
         (post_confirm "uuid-0" two_orders_apart.1 two_orders_apart.2).1.2
         (post_confirm "uuid-0" two_orders_apart.1 two_orders_apart.2).2).1.1
      = Ok r2
    ∧ cr_paidAt r1 = Some 1700000000006
    ∧ cr_paidAt r2 = Some 1700000000007.
Proof.
  assert (Ho : ∃ o, orders two_orders_apart.1 !! 0%nat = Some o
                    ∧ order_id o = "uuid-0"%string)
    by (eexists; split; vm_compute; reflexivity).
  destruct Ho as (o & Ho & Hid).
  destruct (reconfirm_overwrites_paidAt two_orders_apart.1 two_orders_apart.2
              o "uuid-0")
    as (r1 & r2 & i & found & H1 & H2 & _ & _ & _ & _ & _ & _ & _ & Hp1 & Hp2 & _).
  - by eapply list_elem_of_lookup_2.
  - left. by rewrite Hid.
  - exists r1, r2. split; [exact H1|]. split; [exact H2|].
    rewrite Hp1, Hp2. split; vm_compute; reflexivity.
Defined.

(** ** The life of an order *)

Lemma post_payment_Err (body : PaymentBody) (s s' : State) (w w' : World)
    (e : ApiError) :
  post_payment body s w = (Err e, s', w') → s' = s ∧ w' = w.
Proof.
  unfold post_payment, generateOrderCode. run_io.
  destruct (pb_customer body) as [customer|]; [|by intros [= _ <- <-]].
  destruct (negb (complete_customer customer)); [by intros [= _ <- <-]|].
  destruct (pb_items body) as [[|it items]|]; try by intros [= _ <- <-].
  destruct (active_refs s) as [|ref refs] eqn:Hact.
  - rewrite (getRandomPixKey_none _ _ Hact). by intros [= _ <- <-].
  - destruct (getRandomPixKey_active s w) as (r & k & w1 & Hrun & _ & _ & Hk & _).
    { by rewrite Hact. }
    rewrite Hrun, Hk. done.
Qed.

(** What a call does to the list of orders: nothing, or it appends a
    pending order, or it marks one stored order as paid. *)
Lemma serve_orders (c : Call) (s : State) (w : World) :
  let s' := (serve c s w).1 in
  orders s' = orders s
  ∨ (∃ o, orders s' = orders s ++ [o]
          ∧ order_status o = pending ∧ order_paidAt o = None)
  ∨ (∃ i x t, orders s !! i = Some x
              ∧ orders s' = <[i := mark_paid t x]> (orders s)).
Proof.
  cbv zeta. destruct c as [req | body]; cbn [serve].
  - destruct req; cbn [handle]; run_io.
    + destruct (post_payment body s w) as [[[r|e] s'] w'] eqn:Hrun; cbn.
      * destruct (post_payment_Ok _ _ _ _ _ _ Hrun)
          as (customer & items & Hc & Hcomplete & Hi & Hne & Hact).
        destruct (post_payment_success body s w customer items
                    Hc Hcomplete Hi Hne Hact)
          as (ref & k & r' & o & s'' & w'' & Hrun' & _ & _ & _ & _ & Hs' & Ho & _).
        rewrite Hrun' in Hrun. injection Hrun as <- <- <-. subst s''.
        right. left. exists o. by subst o.
      * apply post_payment_Err in Hrun as [-> _]. by left.
    + unfold post_confirm.
      destruct (js_find _ _) as [[i o]|] eqn:Hfind; run_io; [|by left].
      apply js_find_Some in Hfind as (pre & post & Hs & -> & _ & _).
      right. right. exists (length pre), o, (clock w (clock_reads w)).
      split; [|done]. rewrite Hs. by apply list_lookup_middle.
    + left. pose proof (post_pix_key_frame body s w) as [_ H].
      by destruct (post_pix_key body s w) as [[r s'] w'].
    + left. pose proof (put_pix_key_frame id body s w) as (_ & H & _).
      by destruct (put_pix_key id body s w) as [[r s'] w'].
    + left. apply delete_pix_key_frame.
    + left. unfold post_pageview. by run_io.
    + left. unfold post_checkout. by run_io.
    + left. unfold post_conversion. by destruct (js_find _ _) as [[i c]|]; run_io.
    + left. unfold post_reset. by destruct (negb _).
  - left. unfold post_click.
    destruct (cl_eventId body) as [[|ch e]|]; try done.
    destruct (reads_inherited _ _); [done|].
    by destruct (strict_eq _ _); run_io.
Qed.

Lemma order_kept_refl (o : Order) : order_kept o o.
Proof. unfold order_kept. tauto. Qed.

Lemma order_kept_trans (o1 o2 o3 : Order) :
  order_kept o1 o2 → order_kept o2 o3 → order_kept o1 o3.
Proof.
  unfold order_kept.
  intros (? & ? & ? & ? & ? & ? & ? & ? & ?) (? & ? & ? & ? & ? & ? & ? & ? & ?).
  split_and!; try congruence. auto.
Qed.

Lemma order_kept_mark_paid (t : Z) (o : Order) : order_kept o (mark_paid t o).
Proof. unfold order_kept. cbn. tauto. Qed.

Lemma serve_keeps_order (c : Call) (s : State) (w : World) (i : nat) (o : Order) :
  orders s !! i = Some o →
  ∃ o', orders (serve c s w).1 !! i = Some o' ∧ order_kept o o'.
Proof.
  intros Ho.
  destruct (serve_orders c s w) as [-> | [(x & -> & _) | (j & x & t & Hx & ->)]].
  - eauto using order_kept_refl.
  - exists o. split; [|apply order_kept_refl].
    rewrite lookup_app_l; [done|]. by eapply lookup_lt_Some.
  - destruct (decide (j = i)) as [-> | Hne].
    + rewrite list_lookup_insert_eq by (by eapply lookup_lt_Some).
      rewrite Ho in Hx. injection Hx as <-. eauto using order_kept_mark_paid.
    + rewrite list_lookup_insert_ne by done. eauto using order_kept_refl.
Qed.

(** Orders are never removed, reordered or rewritten: through any
    sequence of calls a stored order stays at its position with the same
    identifier, code, customer, items, total, key and dates; only its
    status and [paidAt] can change, and a paid order stays paid. *)
Theorem orders_are_kept
    (cs : list Call) (s : State) (w : World) (i : nat) (o : Order) :
  orders s !! i = Some o →
  ∃ o', orders (serve_all cs s w).1 !! i = Some o' ∧ order_kept o o'
        ∧ (length (orders s) ≤ length (orders (serve_all cs s w).1))%nat.
Proof.
  revert s w o. induction cs as [|c cs IH]; intros s w o Ho.
  - exists o. cbn. split_and!; [done | apply order_kept_refl | done].
  - cbn [serve_all]. run_io.
    destruct (serve_keeps_order c s w i o Ho) as (o1 & Ho1 & Hk1).
    assert (Hlen : (length (orders s) ≤ length (orders (serve c s w).1))%nat).
    { destruct (serve_orders c s w) as [-> | [(x & -> & _) | (j & x & t & _ & ->)]].
      - done.
      - rewrite length_app. lia.
      - by rewrite length_insert. }
    destruct (serve c s w) as [s1 w1]. cbn [fst] in *.
    destruct (IH s1 w1 o1 Ho1) as (o' & Ho' & Hk & Hlen').
    exists o'. split_and!; [done | by eapply order_kept_trans | lia].
Qed.

Lemma orders_are_kept_witness :
  ∃ o o',
    orders two_orders_apart.1 !! 0%nat = Some o
    ∧ orders (serve_all [CallRequest (ConfirmOrder "uuid-0");
                         CallRequest (RemoveKey "1");
                         CallRequest (CreateOrder sample_body);
                         CallRequest (ResetAnalytics None None)]
                two_orders_apart.1 two_orders_apart.2).1 !! 0%nat = Some o'
    ∧ order_id o' = order_id o ∧ order_code o' = order_code o
    ∧ order_total o' = order_total o.
Proof.
  assert (Ho : ∃ o, orders two_orders_apart.1 !! 0%nat = Some o)
    by (eexists; vm_compute; reflexivity).
  destruct Ho as [o Ho].
  destruct (orders_are_kept
              [CallRequest (ConfirmOrder "uuid-0"); CallRequest (RemoveKey "1");
               CallRequest (CreateOrder sample_body);
               CallRequest (ResetAnalytics None None)]
              two_orders_apart.1 two_orders_apart.2 0 o Ho)
    as (o' & Ho' & (Hid & Hcode & _ & _ & Htot & _) & _).
  exists o, o'. split; [exact Ho|]. split; [exact Ho'|].
  split; [exact Hid|]. split; [exact Hcode | exact Htot].
Defined.

(** In every state the server reaches, an order is pending exactly when
    it has no [paidAt], and paid exactly when it has one. *)
Theorem served_orders_paid_consistent (s : State) (o : Order) :
  served s → o ∈ orders s → paid_consistent o.
Proof.
  intros Hs. revert o. induction Hs as [t0 | s c w _ IH]; intros o Ho.
  - by apply elem_of_nil in Ho.
  - destruct (serve_orders c s w) as [Heq | [(x & Heq & Hst & Hp) | (j & x & t & Hx & Heq)]];
      rewrite Heq in Ho.
    + auto.
    + apply elem_of_app in Ho as [Ho | Ho]; [auto|].
      apply list_elem_of_singleton in Ho as ->. by split.
    + apply list_elem_of_lookup in Ho as [i Hi].
      destruct (decide (j = i)) as [-> | Hne].
      * rewrite list_lookup_insert_eq in Hi by (by eapply lookup_lt_Some).
        injection Hi as <-. by split.
      * rewrite list_lookup_insert_ne in Hi by done.
        apply IH. by eapply list_elem_of_lookup_2.
Qed.

Lemma served_orders_paid_consistent_witness :
  ∃ o,
    orders (serve (CallRequest (CreateOrder sample_body)) (initial_state 0)
              (sample_world 1700000000000 1 one_half)).1 = [o]
    ∧ paid_consistent o.
Proof.
  assert (Ho : ∃ o, orders (serve (CallRequest (CreateOrder sample_body))
                              (initial_state 0)
                              (sample_world 1700000000000 1 one_half)).1 = [o])
    by (eexists; vm_compute; reflexivity).
  destruct Ho as [o Ho]. exists o. split; [exact Ho|].
  eapply served_orders_paid_consistent.
  - apply served_call, served_initial.
  - rewrite Ho. by left.
Defined.

(** ** Updating and removing keys *)

Lemma find_key_first (h : list KeyObj) (p : KeyObj → bool) (ks : list loc)
    (i j : nat) (l : loc) (k : KeyObj) :
  find_key h p ks i = Some (j, l, k) →
  ∃ pre post, ks = pre ++ l :: post ∧ j = (i + length pre)%nat
              ∧ h !! l = Some k ∧ p k = true
              ∧ Forall (λ x, p x = false) (omap (λ r, h !! r) pre).
Proof.
  revert i. induction ks as [|l0 ks IH]; intros i; cbn; [done|].
  destruct (h !! l0) as [k0|] eqn:Hk0.
  - destruct (p k0) eqn:Hp.
    + intros [= <- <- <-]. exists [], ks. cbn. split_and!; auto with lia.
    + intros H. destruct (IH _ H) as (pre & post & -> & -> & ? & ? & ?).
      exists (l0 :: pre), post. cbn. rewrite Hk0. split_and!; auto with lia.
  - intros H. destruct (IH _ H) as (pre & post & -> & -> & ? & ? & ?).
    exists (l0 :: pre), post. cbn. rewrite Hk0. split_and!; auto with lia.
Qed.

Lemma find_key_None (h : list KeyObj) (p : KeyObj → bool) (ks : list loc)
    (i : nat) :
  find_key h p ks i = None ↔ Forall (λ x, p x = false) (omap (λ r, h !! r) ks).
Proof.
  revert i. induction ks as [|l0 ks IH]; intros i; cbn; [by split|].
  destruct (h !! l0) as [k0|] eqn:Hk0; cbn; [|apply IH].
  destruct (p k0) eqn:Hp.
  - split; [done|]. intros H. apply Forall_cons in H as [? _]. congruence.
  - rewrite IH. split; [by constructor|]. by intros [_ ?]%Forall_cons.
Qed.

Lemma find_key_by_id (id : string) (s : State) :
  find_key (heap s) (λ k, String.eqb (key_id k) id) (pixKeys s) 0 = None
  ↔ id ∉ key_ids s.
Proof.
  rewrite find_key_None. unfold key_ids, registered_keys.
  rewrite Forall_forall. split.
  - intros Hall Hin. apply list_elem_of_fmap in Hin as (k & -> & Hk).
    specialize (Hall k Hk). cbn in Hall. by rewrite String.eqb_refl in Hall.
  - intros Hnot k Hk. apply String.eqb_neq. intros <-.
    apply Hnot. by apply list_elem_of_fmap_2.
Qed.

Lemma not_in_key_ids (id : string) (ks : list KeyObj) :
  Forall (λ x, String.eqb (key_id x) id = false) ks → id ∉ key_id <$> ks.
Proof.
  rewrite Forall_forall. intros Hall Hin.
  apply list_elem_of_fmap in Hin as (k & -> & Hk).
  specialize (Hall k Hk). by rewrite String.eqb_refl in Hall.
Qed.

(** [DELETE /api/admin/pix-keys/:id] answers 'not found' exactly when no
    registered key has the identifier, and then changes nothing.
    Otherwise it removes the first key with that identifier and only that
    one: the keys before and after it stay, in their order; the heap, the
    orders and the analytics are untouched. Nothing prevents removing the
    last key. *)
Theorem delete_removes_first_match (id : string) (s : State) :
  let res := delete_pix_key id s in
  (res.1 = Err KeyNotFound ↔ id ∉ key_ids s)
  ∧ (id ∉ key_ids s → res = (Err KeyNotFound, s))
  ∧ (id ∈ key_ids s →
     res.1 = Ok tt
     ∧ ∃ before k after,
         registered_keys s = before ++ k :: after
         ∧ key_id k = id ∧ (id ∉ key_id <$> before)
         ∧ registered_keys res.2 = before ++ after
         ∧ S (length (pixKeys res.2)) = length (pixKeys s)
         ∧ heap res.2 = heap s ∧ orders res.2 = orders s
         ∧ analytics res.2 = analytics s).
Proof.
  cbv zeta. unfold delete_pix_key.
  destruct (find_key _ _ _ _) as [[[i ref] k]|] eqn:Hfind.
  - assert (Hin : id ∈ key_ids s).
    { destruct (decide (id ∈ key_ids s)) as [?|Hnot]; [done|].
      apply find_key_by_id in Hnot. congruence. }
    apply find_key_first in Hfind as (pre & post & Hks & -> & Hk & Hid & Hpre).
    apply String.eqb_eq in Hid. cbn [fst snd Nat.add].
    split_and!; [done | done |]. intros _. split; [done|].
    exists (omap (λ r, heap s !! r) pre), k, (omap (λ r, heap s !! r) post).
    unfold registered_keys. cbn [heap pixKeys orders analytics set_keys].
    rewrite Hks, delete_middle, !omap_app. cbn. rewrite Hk.
    split_and!; try done.
    + by apply not_in_key_ids.
    + rewrite !length_app. cbn. lia.
  - apply find_key_by_id in Hfind. cbn. split_and!; done.
Qed.

Lemma served_registry_sound (s : State) : served s → registry_sound s.
Proof.
  induction 1 as [t0 | s c w _ [Hrefs Hnd]].
  - split; [apply Forall_singleton; cbn; lia | apply NoDup_singleton].
  - unfold registry_sound, refs_valid in *.
    destruct c as [req | body]; cbn [serve].
    + pose proof (handle_frame req s w Hrefs) as [Hgrow _ Hkeys _ _].
      split.
      * apply Forall_forall. intros l Hl. rewrite Forall_forall in Hrefs.
        destruct (Hkeys l Hl) as [Hold | ?]; [|lia].
        specialize (Hrefs l Hold). lia.
      * destruct req; cbn [handle]; run_io.
        -- pose proof (post_payment_frame body s w Hrefs) as Hf.
           destruct (post_payment body s w) as [[[r|e] s'] w'] eqn:Hrun; cbn.
           ++ destruct (post_payment_Ok _ _ _ _ _ _ Hrun)
                as (customer & items & Hc & Hcomplete & Hi & Hne & Hact).
              destruct (post_payment_success body s w customer items
                          Hc Hcomplete Hi Hne Hact)
                as (ref & k & r' & o & s'' & w'' & Hrun' & _ & _ & _ & _ & Hs' & _).
              rewrite Hrun' in Hrun. injection Hrun as <- <- <-. by subst s''.
           ++ by apply post_payment_Err in Hrun as [-> _].
        -- unfold post_confirm. by destruct (js_find _ _) as [[i o]|]; run_io.
        -- unfold post_pix_key.
           destruct (negb _); [by run_io|].
           destruct (5 <=? _)%nat; [by run_io|].
           destruct (existsb _ _); [by run_io|]. run_io. cbn.
           apply NoDup_app. split_and!; [done | | apply NoDup_singleton].
           intros l Hl Hin. apply list_elem_of_singleton in Hin as ->.
           rewrite Forall_forall in Hrefs. specialize (Hrefs _ Hl). lia.
        -- pose proof (put_pix_key_frame id body s w) as (_ & _ & H).
           destruct (put_pix_key id body s w) as [[r s'] w']. cbn in *.
           by rewrite H.
        -- unfold delete_pix_key.
           destruct (find_key _ _ _ _) as [[[i ref] k]|]; cbn; [|done].
           eapply sublist_NoDup; [exact Hnd | apply sublist_delete].
        -- unfold post_pageview. by run_io.
        -- unfold post_checkout. by run_io.
        -- unfold post_conversion. by destruct (js_find _ _) as [[i c]|]; run_io.
        -- unfold post_reset. by destruct (negb _).
    + unfold post_click.
      destruct (cl_eventId body) as [[|ch e]|]; try done.
      destruct (reads_inherited _ _); [done|].
      by destruct (strict_eq _ _); run_io.
Qed.

Lemma omap_insert_notin (h : list KeyObj) (ref : loc) (k' : KeyObj)
    (l : list loc) :
  ref ∉ l → omap (λ r, <[ref := k']> h !! r) l = omap (λ r, h !! r) l.
Proof.
  induction l as [|r l IH]; intros Hnot; cbn; [done|].
  apply not_elem_of_cons in Hnot as [Hne Hnot].
  rewrite list_lookup_insert_ne by done. by rewrite IH.
Qed.

(** In a registry that holds no object twice, which is every registry the
    server reaches, [PUT /api/admin/pix-keys/:id] answers 'not found'
    exactly when no registered key has the identifier, and then changes
    nothing. Otherwise it changes the first key with that identifier and
    no other: each of [key], [type], [name] and [active] takes the value
    of the body when the body has one and keeps its value otherwise
    (an empty string in the body is a value); the identifier and
    [createdAt] never change; [updatedAt] becomes the clock reading. *)
Theorem put_merges_supplied_fields
    (id : string) (body : KeyBody) (s : State) (w : World) :
  registry_sound s →
  let res := put_pix_key id body s w in
  (res.1.1 = Err KeyNotFound ↔ id ∉ key_ids s)
  ∧ (id ∉ key_ids s → res = (Err KeyNotFound, s, w))
  ∧ (id ∈ key_ids s →
     ∃ before k after k',
       registered_keys s = before ++ k :: after
       ∧ key_id k = id ∧ (id ∉ key_id <$> before)
       ∧ res.1.1 = Ok k'
       ∧ registered_keys res.1.2 = before ++ k' :: after
       ∧ key_id k' = key_id k ∧ key_createdAt k' = key_createdAt k
       ∧ key_updatedAt k' = Some (clock w (clock_reads w))
       ∧ key_key k' = default (key_key k) (kb_key body)
       ∧ key_type k' = default (key_type k) (kb_type body)
       ∧ key_name k' = default (key_name k) (kb_name body)
       ∧ key_active k' = match kb_active body with
                         | Some b => Some b
                         | None => key_active k
                         end
       ∧ orders res.1.2 = orders s ∧ analytics res.1.2 = analytics s).
Proof.
  intros [Hrefs Hnd]. cbv zeta. unfold put_pix_key.
  destruct (find_key _ _ _ _) as [[[i ref] k]|] eqn:Hfind.
  - assert (Hin : id ∈ key_ids s).
    { destruct (decide (id ∈ key_ids s)) as [?|Hnot]; [done|].
      apply find_key_by_id in Hnot. congruence. }
    apply find_key_first in Hfind as (pre & post & Hks & -> & Hk & Hid & Hpre).
    apply String.eqb_eq in Hid. run_io.
    split_and!; [done | done |]. intros _.
    exists (omap (λ r, heap s !! r) pre), k, (omap (λ r, heap s !! r) post).
    eexists. unfold registered_keys. cbn [heap pixKeys orders analytics set_keys].
    rewrite Hks in *. apply NoDup_app in Hnd as (_ & Hdisj & Hpost).
    apply NoDup_cons in Hpost as [Hnotpost _].
    rewrite !omap_app. cbn. rewrite Hk.
    rewrite list_lookup_insert_eq by (by eapply lookup_lt_Some).
    rewrite !omap_insert_notin; [| done |].
    + split_and!; try done. by apply not_in_key_ids.
    + intros Hin'. apply (Hdisj ref Hin'). by left.
  - apply find_key_by_id in Hfind. run_io. split_and!; done.
Qed.

Lemma put_merges_supplied_fields_witness :
  ∃ k',
    (put_pix_key "1" {| kb_key := None; kb_type := None;
                        kb_name := Some "Outra Empresa"%string;
                        kb_active := Some false |}
       (registry_of 2).1 (registry_of 2).2).1.1 = Ok k'
    ∧ key_key k' = seed_key_string ∧ key_name k' = "Outra Empresa"%string
    ∧ key_active k' = Some false.
Proof.
  destruct (put_merges_supplied_fields "1"
              {| kb_key := None; kb_type := None;
                 kb_name := Some "Outra Empresa"%string;
                 kb_active := Some false |}
              (registry_of 2).1 (registry_of 2).2)
    as (_ & _ & Hfound).
  - apply (bool_decide_unpack _). vm_compute. exact I.
  - destruct Hfound
      as (before & k & after & k' & Hreg & _ & _ & Hres & _ & _ & _ & _
          & Hkey & _ & Hname & Hact & _).
    + apply (bool_decide_unpack _). vm_compute. exact I.
    + exists k'. split; [exact Hres|]. clear Hkey Hname Hact.
      revert Hres. vm_compute. intros [= <-]. repeat split; reflexivity.
Defined.

(** ** Invariants of the registry *)

Lemma serve_frame (c : Call) (s : State) (w : World) :
  refs_valid s → frame s (serve c s w).1.
Proof.
  intros Hrefs. destruct c as [req | body]; cbn [serve].
  - by apply handle_frame.
  - unfold post_click.
    destruct (cl_eventId body) as [[|ch e]|]; try apply frame_refl.
    destruct (reads_inherited _ _); [apply frame_refl|].
    destruct (strict_eq _ _); run_io; apply frame_analytics.
Qed.

Lemma serve_registry_size (c : Call) (s : State) (w : World) :
  (length (pixKeys s) ≤ 5)%nat → (length (pixKeys (serve c s w).1) ≤ 5)%nat.
Proof.
  intros Hsize. destruct c as [req | body]; cbn [serve].
  - destruct req; cbn [handle]; run_io.
    + destruct (post_payment body s w) as [[[r|e] s'] w'] eqn:Hrun; cbn.
      * destruct (post_payment_Ok _ _ _ _ _ _ Hrun)
          as (customer & items & Hc & Hcomplete & Hi & Hne & Hact).
        destruct (post_payment_success body s w customer items
                    Hc Hcomplete Hi Hne Hact)
          as (ref & k & r' & o & s'' & w'' & Hrun' & _ & _ & _ & _ & Hs' & _).
        rewrite Hrun' in Hrun. injection Hrun as <- <- <-. by subst s''.
      * by apply post_payment_Err in Hrun as [-> _].
    + unfold post_confirm. by destruct (js_find _ _) as [[i o]|]; run_io.
    + unfold post_pix_key.
      destruct (negb _); [by run_io|].
      destruct (5 <=? _)%nat eqn:Hcap; [by run_io|].
      destruct (existsb _ _); [by run_io|]. run_io. cbn.
      apply Nat.leb_gt in Hcap. rewrite length_app. cbn. lia.
    + pose proof (put_pix_key_frame id body s w) as (_ & _ & H).
      destruct (put_pix_key id body s w) as [[r s'] w']. cbn in *. by rewrite H.
    + unfold delete_pix_key.
      destruct (find_key _ _ _ _) as [[[i ref] k]|]; cbn; [|done].
      pose proof (sublist_length _ _ (sublist_delete (pixKeys s) i)). lia.
    + unfold post_pageview. by run_io.
    + unfold post_checkout. by run_io.
    + unfold post_conversion. by destruct (js_find _ _) as [[i c]|]; run_io.
    + unfold post_reset. by destruct (negb _).
  - unfold post_click.
    destruct (cl_eventId body) as [[|ch e]|]; try done.
    destruct (reads_inherited _ _); [done|].
    by destruct (strict_eq _ _); run_io.
Qed.

(** What a call does to the key objects of the orders: nothing, or one
    more order with an object allocated for it. *)
Lemma serve_order_keys (c : Call) (s : State) (w : World) :
  let s' := (serve c s w).1 in
  order_pixKey <$> orders s' = order_pixKey <$> orders s
  ∨ order_pixKey <$> orders s'
    = (order_pixKey <$> orders s) ++ [length (heap s)].
Proof.
  cbv zeta. destruct c as [req | body]; cbn [serve].
  - destruct req; cbn [handle]; run_io.
    + destruct (post_payment body s w) as [[[r|e] s'] w'] eqn:Hrun; cbn.
      * destruct (post_payment_Ok _ _ _ _ _ _ Hrun)
          as (customer & items & Hc & Hcomplete & Hi & Hne & Hact).
        destruct (post_payment_success body s w customer items
                    Hc Hcomplete Hi Hne Hact)
          as (ref & k & r' & o & s'' & w'' & Hrun' & _ & _ & _ & _ & Hs' & Ho & _).
        rewrite Hrun' in Hrun. injection Hrun as <- <- <-. subst s''.
        right. cbn. rewrite fmap_app. by subst o.
      * apply post_payment_Err in Hrun as [-> _]. by left.
    + unfold post_confirm.
      destruct (js_find _ _) as [[i o]|] eqn:Hfind; run_io; [|by left].
      apply js_find_Some in Hfind as (pre & post & Hs & -> & _ & _).
      left. cbn. rewrite Hs, insert_middle, !fmap_app. done.
    + left. pose proof (post_pix_key_frame body s w) as [_ H].
      destruct (post_pix_key body s w) as [[r s'] w']. cbn in *. by rewrite H.
    + left. pose proof (put_pix_key_frame id body s w) as (_ & H & _).
      destruct (put_pix_key id body s w) as [[r s'] w']. cbn in *. by rewrite H.
    + left. destruct (delete_pix_key_frame id s) as (_ & H & _). by rewrite H.
    + left. unfold post_pageview. by run_io.
    + left. unfold post_checkout. by run_io.
    + left. unfold post_conversion. by destruct (js_find _ _) as [[i c]|]; run_io.
    + left. unfold post_reset. by destruct (negb _).
  - left. unfold post_click.
    destruct (cl_eventId body) as [[|ch e]|]; try done.
    destruct (reads_inherited _ _); [done|].
    by destruct (strict_eq _ _); run_io.
Qed.

Lemma served_well_formed (s : State) : served s → well_formed s.
Proof.
  induction 1 as [t0 | s c w _ IH]; [apply initial_state_well_formed|].
  eapply frame_well_formed; [|exact IH]. apply serve_frame, IH.
Qed.

Lemma served_snapshots_distinct (s : State) :
  served s → snapshots_distinct s.
Proof.
  unfold snapshots_distinct.
  induction 1 as [t0 | s c w Hs IH]; [apply NoDup_nil_2|].
  destruct (serve_order_keys c s w) as [-> | ->]; [exact IH|].
  apply NoDup_app. split_and!; [exact IH | | apply NoDup_singleton].
  intros l Hl Hin. apply list_elem_of_singleton in Hin as ->.
  apply list_elem_of_fmap in Hl as (o & Ho & Hin).
  destruct (served_well_formed s Hs) as [_ Hpriv].
  unfold snapshots_private in Hpriv. rewrite Forall_forall in Hpriv.
  destruct (Hpriv o Hin) as [Hlt _]. lia.
Qed.

(** Whatever calls the server has answered since it started: the
    registry holds at most five keys; every entry of the registry is an
    object of its own; the key object of an order is never an entry of the
    registry; and no two orders share a key object. *)
Theorem served_registry_bound (s : State) :
  served s →
  (length (pixKeys s) ≤ 5)%nat ∧ registry_sound s ∧ well_formed s
  ∧ snapshots_distinct s.
Proof.
  intros Hs. split_and!.
  - induction Hs as [t0 | s c w _ IH]; [cbn; lia|]. by apply serve_registry_size.
  - by apply served_registry_sound.
  - by apply served_well_formed.
  - by apply served_snapshots_distinct.
Qed.

Lemma served_registry_bound_witness :
  let w := sample_world 1700000000000 1 one_half in
  let s := (serve (CallRequest (CreateOrder sample_body))
              (serve (CallRequest (CreateOrder sample_body)) (initial_state 0) w).1
              w).1 in
  (length (pixKeys s) ≤ 5)%nat
  ∧ order_pixKey <$> orders s = [1%nat; 2%nat]
  ∧ snapshots_distinct s.
Proof.
  cbv zeta.
  destruct (served_registry_bound
              (serve (CallRequest (CreateOrder sample_body))
                 (serve (CallRequest (CreateOrder sample_body)) (initial_state 0)
                    (sample_world 1700000000000 1 one_half)).1
                 (sample_world 1700000000000 1 one_half)).1)
    as (Hlen & _ & _ & Hdistinct).
  { apply served_call, served_call, served_initial. }
  split; [exact Hlen|]. split; [vm_compute; reflexivity | exact Hdistinct].
Defined.

(** ** Selecting a key *)

Lemma active_refs_registered (s : State) :
  omap (λ r, heap s !! r) (active_refs s)
  = List.filter is_active (registered_keys s).
Proof.
  unfold active_refs, registered_keys, key_test.
  induction (pixKeys s) as [|r l IH]; cbn; [done|].
  destruct (heap s !! r) as [k|] eqn:Hk; cbn; [|done].
  destruct (is_active k); cbn; by rewrite ?Hk, IH.
Qed.

(** When exactly one registered key is active, every accepted payment
    is assigned that key, whatever the random source returns: the
    response carries its key string, type and name, and the order holds a
    copy of it. *)
Theorem sole_active_key_is_assigned
    (body : PaymentBody) (s : State) (w : World) (k : KeyObj)
    (r : PaymentResponse) :
  List.filter is_active (registered_keys s) = [k] →
  (post_payment body s w).1.1 = Ok r →
  pr_pix_key r = key_key k ∧ pr_pix_type r = key_type k
  ∧ pr_pix_name r = key_name k
  ∧ ∃ o, orders (post_payment body s w).1.2 = orders s ++ [o]
         ∧ heap (post_payment body s w).1.2 !! order_pixKey o
           = Some (key_snapshot k).
Proof.
  intros Hsole Hr. apply post_payment_result in Hr as (s' & w' & Hrun).
  destruct (post_payment_Ok _ _ _ _ _ _ Hrun)
    as (c & items & Hc & Hcomplete & Hi & Hne & Hact).
  destruct (post_payment_success body s w c items Hc Hcomplete Hi Hne Hact)
    as (ref & k0 & r' & o & s'' & w'' & Hrun' & _ & Hk0 & _ & Hidx & Hs' & Ho & Hr').
  rewrite Hrun' in Hrun. injection Hrun as <- <- <-.
  assert (k0 = k) as ->.
  { assert (Hin : k0 ∈ omap (λ r, heap s !! r) (active_refs s)).
    { apply list_elem_of_omap. exists ref. split; [|done].
      by eapply list_elem_of_lookup_2. }
    rewrite active_refs_registered, Hsole in Hin.
    by apply list_elem_of_singleton in Hin. }
  rewrite Hrun'. subst r' s'' o. cbn. split_and!; try done.
  eexists. split; [reflexivity|]. cbn. by rewrite lookup_app_r, Nat.sub_diag.
Qed.

Lemma sole_active_key_is_assigned_witness :
  ∃ r,
    (post_payment sample_body (initial_state 0)
       (sample_world 1700000000000 1 1234567890123456)).1.1 = Ok r
    ∧ pr_pix_key r = seed_key_string.
Proof.
  assert (Hr : ∃ r, (post_payment sample_body (initial_state 0)
                       (sample_world 1700000000000 1 1234567890123456)).1.1 = Ok r)
    by (eexists; vm_compute; reflexivity).
  destruct Hr as [r Hr]. exists r. split; [exact Hr|].
  by destruct (sole_active_key_is_assigned sample_body (initial_state 0)
                 (sample_world 1700000000000 1 1234567890123456)
                 (seed_key 0) r eq_refl Hr) as [-> _].
Defined.

Lemma random_index_onto (n i : nat) :
  (i < n)%nat → (N.of_nat n ≤ random_den)%N →
  let k := ((N.of_nat i * random_den + N.of_nat n - 1) / N.of_nat n)%N in
  (k < random_den)%N ∧ random_index (k mod random_den) n = i.
Proof.
  intros Hi Hn. cbv zeta. unfold random_index.
  assert (HD : (0 < random_den)%N) by (by vm_compute).
  assert (Hm : (0 < N.of_nat n)%N) by lia.
  assert (Hj : (N.of_nat i < N.of_nat n)%N) by lia.
  generalize dependent (N.of_nat n). intros m Hn Hm Hj.
  assert (Hback : ∀ q, q = N.of_nat i → N.to_nat q = i) by (intros q ->; lia).
  generalize dependent (N.of_nat i). intros j Hj Hback.
  generalize dependent random_den. intros D _ Hn.
  pose proof (N.div_mod (j * D + m - 1) m ltac:(lia)) as Hdiv.
  pose proof (N.mod_lt (j * D + m - 1) m ltac:(lia)) as Hmod.
  generalize dependent ((j * D + m - 1) / m)%N. intros k Hdiv.
  generalize dependent ((j * D + m - 1) mod m)%N. intros r Hr Hdiv.
  assert (Hk : (k < D)%N) by nia.
  split; [exact Hk|]. rewrite N.mod_small by exact Hk.
  apply Hback. symmetry.
  apply (N.div_unique (k * m) D j (k * m - j * D)); nia.
Qed.

(** No active key is left out of the selection: while the registry has
    no more active keys than the random source has values (five at most on
    a running server), for every active key there is a value of
    [Math.random()] on which [getRandomPixKey] returns that key. *)
Theorem every_active_key_can_be_drawn (s : State) (i : nat) (ref : loc) :
  active_refs s !! i = Some ref →
  (N.of_nat (length (active_refs s)) ≤ random_den)%N →
  ∃ draw, (draw < random_den)%N
          ∧ ∀ w, random w (random_draws w) = draw →
                 (getRandomPixKey s w).1 = Some ref.
Proof.
  intros Href Hn.
  assert (Hi : (i < length (active_refs s))%nat) by (by eapply lookup_lt_Some).
  destruct (random_index_onto _ _ Hi Hn) as [Hk Hidx].
  eexists. split; [exact Hk|]. intros w Hw. unfold getRandomPixKey.
  destruct (active_refs s) as [|a l] eqn:Hact; [done|]. run_io.
  rewrite Hw, Hidx. exact Href.
Qed.

Lemma every_active_key_can_be_drawn_witness :
  ∃ draw, (draw < random_den)%N
          ∧ ∀ w, random w (random_draws w) = draw →
                 (getRandomPixKey (registry_of 2).1 w).1 = Some 2%nat.
Proof.
  apply (every_active_key_can_be_drawn (registry_of 2).1 2%nat 2%nat).
  - vm_compute. reflexivity.
  - vm_compute. discriminate.
Defined.

(** ** Access to the analytics *)

(** The dashboard and the reset are guarded by one secret: the value of
    the environment variable when it is set and not empty, and
    ['guiche2024@analytics'] otherwise. Both answer 401 for every other
    key and for a missing key, the dashboard with 'Chave de acesso
    inválida' and the reset with 'Não autorizado', and then neither reads
    the clock nor changes the state; both succeed for the secret itself. *)
Theorem analytics_access_control
    (getHours : Z → Z) (env key : option string) (s : State) (w : World) :
  let secret := ANALYTICS_SECRET env in
  (is_ok (get_dashboard getHours env key s w).1 = true ↔ key = Some secret)
  ∧ (key ≠ Some secret →
     get_dashboard getHours env key s w = (Err InvalidAccessKey, w))
  ∧ (is_ok (post_reset env key s).1 = true ↔ key = Some secret)
  ∧ (key ≠ Some secret → post_reset env key s = (Err Unauthorized, s))
  ∧ (http_status InvalidAccessKey = 401%nat
     ∧ error_text InvalidAccessKey = "Chave de acesso inválida"%string)
  ∧ (http_status Unauthorized = 401%nat
     ∧ error_text Unauthorized = "Não autorizado"%string)
  ∧ (∀ v, env = Some v → v ≠ ""%string → secret = v)
  ∧ (env = None ∨ env = Some ""%string → secret = "guiche2024@analytics"%string)
  ∧ secret ≠ ""%string.
Proof.
  cbv zeta. unfold get_dashboard, post_reset.
  destruct (strict_eq key (Some (ANALYTICS_SECRET env))) eqn:Heq.
  - apply strict_eq_true in Heq. cbn [negb]. run_io. split_and!; try done.
    + by intros [|c v] -> ?.
    + by intros [-> | ->].
    + by destruct env as [[|c v]|].
  - assert (Hne : key ≠ Some (ANALYTICS_SECRET env)).
    { intros H. apply strict_eq_true in H. congruence. }
    cbn [negb]. run_io. split_and!; try done.
    + by intros [|c v] -> ?.
    + by intros [-> | ->].
    + by destruct env as [[|c v]|].
Qed.

(** An authorized reset empties the page views, the event statistics and
    the conversion records and nothing else: the orders and the keys stay.
    A dashboard read after it shows zero page views, sessions, checkouts
    and conversions and 24 empty buckets, and still counts the orders. *)
Theorem reset_clears_analytics_only
    (getHours : Z → Z) (env : option string) (s : State) (w : World) :
  let key := Some (ANALYTICS_SECRET env) in
  let s' := (post_reset env key s).2 in
  an_pageViews (analytics s') = [] ∧ an_events (analytics s') = ∅
  ∧ an_conversions (analytics s') = []
  ∧ orders s' = orders s ∧ pixKeys s' = pixKeys s ∧ heap s' = heap s
  ∧ ∃ d, (get_dashboard getHours env key s' w).1 = Ok d
         ∧ totalPageViews d = 0%nat ∧ uniqueSessions d = 0%nat
         ∧ totalCheckouts d = 0%nat ∧ totalConversions d = 0%nat
         ∧ recentConversions d = []
         ∧ totalOrders d = length (orders s)
         ∧ length (trafficByHour d) = 24%nat
         ∧ Forall (λ b, views b = 0%nat) (trafficByHour d).
Proof.
  cbv zeta. unfold post_reset, get_dashboard.
  rewrite strict_eq_refl. cbn [negb snd]. run_io.
  split_and!; try done. eexists. split; [reflexivity|]. cbn.
  split_and!; try done.
  repeat constructor.
Qed.

(** ** The counts of the dashboard *)





(** A completed conversion that finds a started record of its session
    moves one record from the checkouts of the dashboard to its
    conversions; one that finds none changes neither count; in both cases
    the number of conversion records stays. *)
Theorem conversion_moves_one_checkout
    (body : ConversionBody) (s : State) (w : World) :
  let cs := an_conversions (analytics s) in
  let cs' := an_conversions (analytics (post_conversion body s w).1) in
  let waiting := ∃ c, c ∈ cs ∧ conv_sessionId c = vb_sessionId body
                      ∧ conv_status c = started in
  length cs' = length cs
  ∧ (waiting →
     S (length (List.filter is_started cs')) = length (List.filter is_started cs)
     ∧ length (List.filter is_completed cs')
       = S (length (List.filter is_completed cs)))
  ∧ (¬ waiting → cs' = cs).
Proof.
  cbv zeta. unfold post_conversion. rewrite with_event_conversions.
  destruct (js_find _ _) as [[i c]|] eqn:Hfind; run_io;
    cbn [analytics set_analytics an_conversions set_conversions];
    rewrite ?with_event_conversions.
  - apply js_find_Some in Hfind as (pre & post & Hcs & -> & Hc & Hpre).
    apply started_for_true in Hc as [Hsid Hst].
    rewrite Hcs, insert_middle. split_and!.
    + rewrite !length_app. done.
    + intros _. rewrite !List.filter_app, !length_app. cbn.
      unfold is_completed, is_started. cbn. rewrite Hst. cbn. lia.
    + intros Hno. exfalso. apply Hno. exists c. split_and!; try done.
      apply elem_of_app. right. by left.
  - apply find_from_is_None in Hfind. rewrite Forall_forall in Hfind.
    split_and!; try done.
    intros (c & Hc & Hsid & Hst). specialize (Hfind c Hc).
    apply started_for_false in Hfind. tauto.
Qed.

(** ** The event counters *)

Lemma with_event_pageViews (e : option string) (f : EventStats → EventStats)
    (a : Analytics) :
  an_pageViews (with_event e f a) = an_pageViews a.
Proof.
  unfold with_event, initEventAnalytics.
  destruct e as [[|c e]|]; try done. cbn [an_pageViews set_events].
  destruct (an_events a !! _); [done|]. by destruct (is_inherited (String c e)).
Qed.

Lemma with_event_stats (e : string) (eid : option string)
    (f : EventStats → EventStats) (a : Analytics) :
  e ≠ ""%string → e ∉ inherited_names →
  default new_event_stats (an_events (with_event eid f a) !! e)
  = if decide (eid = Some e)
    then f (default new_event_stats (an_events a !! e))
    else default new_event_stats (an_events a !! e).
Proof.
  intros He Hown. destruct (decide (eid = Some e)) as [-> | Hne].
  - destruct e as [|c e]; [done|]. rewrite with_event_lookup; [done|].
    apply not_true_is_false. rewrite reads_inherited_spec. tauto.
  - by rewrite with_event_other.
Qed.

Lemma with_event_keeps_inherited (e : string) (eid : option string)
    (f : EventStats → EventStats) (a : Analytics) :
  e ∈ inherited_names → an_events a !! e = None →
  an_events (with_event eid f a) !! e = None.
Proof.
  intros Hin Hnone. destruct (decide (eid = Some e)) as [-> | Hne].
  - rewrite with_event_inherited; [done|]. by apply reads_inherited_spec.
  - by rewrite with_event_other.
Qed.

Lemma filter_snoc {A : Type} (p : A → bool) (l : list A) (x : A) :
  List.filter p (l ++ [x]) = List.filter p l ++ (if p x then [x] else []).
Proof. rewrite List.filter_app. cbn. by destruct (p x). Qed.

Lemma strict_eq_decide (a b : option string) :
  strict_eq a b = if decide (a = b) then true else false.
Proof.
  destruct (decide (a = b)) as [-> | Hne]; [apply strict_eq_refl|].
  destruct (strict_eq a b) eqn:H; [|done]. by apply strict_eq_true in H.
Qed.

Lemma events_consistent_same (s s' : State) :
  analytics s' = analytics s → events_consistent s → events_consistent s'.
Proof.
  intros Ha [Hinh H]. split.
  - intros e He. rewrite Ha. by apply Hinh.
  - intros e He Hown. specialize (H e He Hown).
    unfold event_stats, views_of_event, checkouts_of_event in *. by rewrite Ha.
Qed.

Lemma post_pageview_consistent (body : PageviewBody) (ua ip : option string)
    (s : State) (w : World) :
  events_consistent s → events_consistent (post_pageview body ua ip s w).1.
Proof.
  intros [Hinh H]. unfold post_pageview. run_io. split.
  - intros e He. cbn [analytics set_analytics].
    apply with_event_keeps_inherited; [done|]. by apply Hinh.
  - intros e He Hown. destruct (H e He Hown) as (Hv & Hu & Hc).
    unfold event_stats, views_of_event, checkouts_of_event in *.
    cbn [analytics set_analytics].
    rewrite with_event_stats, with_event_pageViews, with_event_conversions by done.
    cbn [an_pageViews an_events an_conversions set_pageViews].
    rewrite filter_snoc. cbn [pv_eventId]. rewrite strict_eq_decide.
    destruct (decide (pvb_eventId body = Some e)) as [Heq | Hne]; cbn.
    + rewrite length_app, fmap_app, list_to_set_app_L. cbn.
      rewrite Hv, Hu, Hc. split_and!; [lia | | done].
      by rewrite union_empty_r_L.
    + by rewrite app_nil_r.
Qed.

Lemma post_checkout_consistent (body : CheckoutBody) (s : State) (w : World) :
  events_consistent s → events_consistent (post_checkout body s w).1.
Proof.
  intros [Hinh H]. unfold post_checkout. run_io. split.
  - intros e He. cbn [analytics set_analytics an_events set_conversions].
    apply with_event_keeps_inherited; [done|]. by apply Hinh.
  - intros e He Hown. destruct (H e He Hown) as (Hv & Hu & Hc).
    unfold event_stats, views_of_event, checkouts_of_event in *.
    cbn [analytics set_analytics an_pageViews an_events an_conversions
         set_conversions].
    rewrite with_event_stats, with_event_pageViews, with_event_conversions by done.
    rewrite filter_snoc. cbn [conv_eventId]. rewrite strict_eq_decide.
    destruct (decide (cb_eventId body = Some e)) as [Heq | Hne]; cbn.
    + rewrite length_app. cbn. rewrite Hv, Hu, Hc.
      split_and!; [done | done | lia].
    + by rewrite app_nil_r.
Qed.

Lemma post_conversion_consistent (body : ConversionBody) (s : State) (w : World) :
  events_consistent s → events_consistent (post_conversion body s w).1.
Proof.
  intros [Hinh H]. split.
  - intros e He. rewrite post_conversion_events.
    apply with_event_keeps_inherited; [done|]. by apply Hinh.
  - intros e He Hown. destruct (H e He Hown) as (Hv & Hu & Hc).
    unfold event_stats in *. rewrite post_conversion_events.
    rewrite with_event_stats by done.
    assert (Hstats :
      ev_views (if decide (vb_eventId body = Some e)
                then count_conversion (vb_total body)
                       (default new_event_stats (an_events (analytics s) !! e))
                else default new_event_stats (an_events (analytics s) !! e))
      = ev_views (default new_event_stats (an_events (analytics s) !! e))
      ∧ ev_uniqueViews
          (if decide (vb_eventId body = Some e)
           then count_conversion (vb_total body)
                  (default new_event_stats (an_events (analytics s) !! e))
           else default new_event_stats (an_events (analytics s) !! e))
        = ev_uniqueViews (default new_event_stats (an_events (analytics s) !! e))
      ∧ ev_checkouts
          (if decide (vb_eventId body = Some e)
           then count_conversion (vb_total body)
                  (default new_event_stats (an_events (analytics s) !! e))
           else default new_event_stats (an_events (analytics s) !! e))
        = ev_checkouts (default new_event_stats (an_events (analytics s) !! e)))
      by (by destruct (decide _)).
    destruct Hstats as (-> & -> & ->).
    unfold post_conversion. rewrite with_event_conversions.
    destruct (js_find _ _) as [[i c]|] eqn:Hfind; run_io;
      unfold views_of_event, checkouts_of_event in *;
      cbn [analytics set_analytics an_pageViews an_events an_conversions
           set_conversions];
      rewrite ?with_event_pageViews, ?with_event_conversions; [|done].
    apply js_find_Some in Hfind as (pre & post & Hcs & -> & _ & _).
    rewrite Hcs in *. rewrite insert_middle.
    rewrite !List.filter_app in *. cbn in *.
    destruct (strict_eq (conv_eventId c) (Some e)); cbn in *;
      rewrite ?length_app in *; cbn in *; done.
Qed.

Lemma post_click_consistent (body : ClickBody) (s : State) (w : World) :
  events_consistent s → events_consistent (post_click body s w).1.
Proof.
  intros [Hinh H]. unfold post_click.
  destruct (cl_eventId body) as [[|ch x]|] eqn:Hid; try done.
  destruct (reads_inherited _ _); [done|].
  destruct (strict_eq _ _); run_io; (split;
    [ intros e He; cbn [analytics set_analytics];
      repeat (apply with_event_keeps_inherited; [done|]); by apply Hinh
    | intros e He Hown; destruct (H e He Hown) as (Hv & Hu & Hc);
      unfold event_stats, views_of_event, checkouts_of_event in *;
      cbn [analytics set_analytics];
      rewrite !with_event_stats, ?with_event_pageViews, ?with_event_conversions
        by done;
      destruct (decide _); done ]).
Qed.

Lemma serve_consistent (c : Call) (s : State) (w : World) :
  events_consistent s → events_consistent (serve c s w).1.
Proof.
  intros H. destruct c as [req | body]; cbn [serve];
    [|by apply post_click_consistent].
  destruct req; cbn [handle]; run_io.
  - apply (events_consistent_same s); [|done].
    destruct (post_payment body s w) as [[[r|e] s'] w'] eqn:Hrun; cbn.
    + destruct (post_payment_Ok _ _ _ _ _ _ Hrun)
        as (customer & items & Hc & Hcomplete & Hi & Hne & Hact).
      destruct (post_payment_success body s w customer items
                  Hc Hcomplete Hi Hne Hact)
        as (ref & k & r' & o & s'' & w'' & Hrun' & _ & _ & _ & _ & Hs' & _).
      rewrite Hrun' in Hrun. injection Hrun as <- <- <-. by subst s''.
    + by apply post_payment_Err in Hrun as [-> _].
  - apply (events_consistent_same s); [|done].
    unfold post_confirm. by destruct (js_find _ _) as [[i o]|]; run_io.
  - apply (events_consistent_same s); [|done].
    unfold post_pix_key.
    destruct (negb _); [by run_io|].
    destruct (5 <=? _)%nat; [by run_io|].
    by destruct (existsb _ _); run_io.
  - apply (events_consistent_same s); [|done].
    unfold put_pix_key. by destruct (find_key _ _ _ _) as [[[i ref] k]|]; run_io.
  - apply (events_consistent_same s); [|done].
    unfold delete_pix_key. by destruct (find_key _ _ _ _) as [[[i ref] k]|].
  - by apply post_pageview_consistent.
  - by apply post_checkout_consistent.
  - by apply post_conversion_consistent.
  - unfold post_reset. destruct (negb _); cbn; [done|]. split.
    + intros e He. cbn. apply lookup_empty.
    + intros e He Hown. unfold event_stats, views_of_event, checkouts_of_event.
      cbn. rewrite lookup_empty. done.
Qed.

Lemma served_events_consistent (s : State) : served s → events_consistent s.
Proof.
  induction 1 as [t0 | s c w _ IH].
  - split.
    + intros e He. cbn. apply lookup_empty.
    + intros e He Hown. unfold event_stats, views_of_event, checkouts_of_event.
      cbn. by rewrite lookup_empty.
  - by apply serve_consistent.
Qed.

(** Whatever calls the server has answered, [events] has no entry under
    a name that every object inherits, and for every other event
    identifier that is not empty the view counter is the number of stored
    page views of the event, the set of distinct viewers is the set of
    their sessions, and the checkout counter is the number of conversion
    records of the event, started or completed. *)
Theorem served_event_counters (s : State) (e : string) :
  served s → e ≠ ""%string →
  (e ∈ inherited_names → an_events (analytics s) !! e = None)
  ∧ (e ∉ inherited_names →
     ev_views (event_stats e s) = length (views_of_event e s)
     ∧ ev_uniqueViews (event_stats e s)
       = list_to_set (pv_sessionId <$> views_of_event e s)
     ∧ (size (ev_uniqueViews (event_stats e s)) ≤ ev_views (event_stats e s))%nat
     ∧ ev_checkouts (event_stats e s) = length (checkouts_of_event e s)).
Proof.
  intros Hs He. destruct (served_events_consistent s Hs) as [Hinh Hcons].
  split; [apply Hinh|]. intros Hown.
  destruct (Hcons e He Hown) as (Hv & Hu & Hc). split_and!; try done.
  rewrite Hu, Hv. generalize (views_of_event e s). intros l.
  induction l as [|pv l IH]; cbn; [by rewrite size_empty|].
  rewrite size_union_alt, size_singleton.
  assert (Hsub : (list_to_set (pv_sessionId <$> l) : gset (option string))
                 ∖ {[pv_sessionId pv]} ⊆ list_to_set (pv_sessionId <$> l))
    by (by apply subseteq_difference_l).
  apply subseteq_size in Hsub. lia.
Qed.

Lemma served_event_counters_witness :
  let s := (serve (CallRequest (TrackPageview home_view None None))
              (initial_state 0) dashboard_world).1 in
  ev_views (event_stats "E1" s) = length (views_of_event "E1" s)
  ∧ ev_uniqueViews (event_stats "E1" s)
    = list_to_set (pv_sessionId <$> views_of_event "E1" s)
  ∧ (size (ev_uniqueViews (event_stats "E1" s)) ≤ ev_views (event_stats "E1" s))%nat
  ∧ ev_checkouts (event_stats "E1" s) = length (checkouts_of_event "E1" s).
Proof.
  cbv zeta.
  apply (served_event_counters
           (serve (CallRequest (TrackPageview home_view None None))
              (initial_state 0) dashboard_world).1 "E1").
  - apply served_call, served_initial.
  - discriminate.
  - intros He. apply is_inherited_spec in He. discriminate.
Defined.

(** ** The total of the hourly histogram *)

Lemma sum_list_with_map {A B : Type} (f : B → nat) (g : A → B) (l : list A) :
  sum_list_with f (map g l) = sum_list_with (λ x, f (g x)) l.
Proof. induction l as [|x l IH]; cbn; [done|]. by rewrite IH. Qed.

Lemma length_filter_map {A B : Type} (q : B → bool) (g : A → B) (l : list A) :
  length (List.filter q (map g l)) = length (List.filter (λ x, q (g x)) l).
Proof.
  induction l as [|x l IH]; cbn; [done|]. destruct (q (g x)); cbn; by rewrite IH.
Qed.

Lemma sum_list_with_filter_cons {A B : Type} (q : B → A → bool) (x : A)
    (l : list A) (hs : list B) :
  sum_list_with (λ h, length (List.filter (q h) (x :: l))) hs
  = (length (List.filter (λ h, q h x) hs)
     + sum_list_with (λ h, length (List.filter (q h) l)) hs)%nat.
Proof.
  induction hs as [|h hs IH]; cbn; [done|].
  cbn in IH. rewrite IH. destruct (q h x); cbn; lia.
Qed.

(** Counting a list into buckets that each element fits once counts every
    element once. *)
Lemma bucket_sum {A : Type} (p : A → bool) (H : A → Z) (hs : list Z)
    (l : list A) :
  (∀ x, length (List.filter (λ h, H x =? h) hs) = 1%nat) →
  sum_list_with (λ h, length (List.filter (λ x, p x && (H x =? h)) l)) hs
  = length (List.filter p l).
Proof.
  intros Honce. induction l as [|x l IH].
  - clear Honce. cbn. induction hs as [|h hs IHhs]; cbn; [done|]. by rewrite IHhs.
  - rewrite (sum_list_with_filter_cons (λ h x, p x && (H x =? h))), IH.
    cbn. destruct (p x); cbn.
    + by rewrite Honce.
    + clear. induction hs as [|h hs IH]; cbn in *; done.
Qed.

Lemma getUTCHours_bound (t : Z) : 0 ≤ getUTCHours t < 24.
Proof. unfold getUTCHours. by apply Z.mod_pos_bound. Qed.

Lemma getUTCHours_back (now : Z) (i : nat) :
  getUTCHours (now - Z.of_nat i * 60 * 60 * 1000)
  = (getUTCHours now - Z.of_nat i) mod 24.
Proof.
  unfold getUTCHours, one_hour.
  replace (now - Z.of_nat i * 60 * 60 * 1000)
    with (now + (- Z.of_nat i) * (60 * 60 * 1000)) by lia.
  rewrite Z.div_add by done.
  by rewrite Zminus_mod_idemp_l.
Qed.

(** Going back hour by hour from any hour of day meets every hour of day
    once in twenty-four steps. *)
Lemma hours_back_once (r h : Z) :
  0 ≤ r < 24 → 0 ≤ h < 24 →
  length (List.filter (λ x, h =? x)
            (map (λ i : nat, (r - Z.of_nat i) mod 24) (seq 0 24))) = 1%nat.
Proof.
  intros Hr Hh.
  assert (Hall : forallb (λ rn : nat, forallb (λ hn : nat,
            Nat.eqb (length (List.filter (λ x, Z.of_nat hn =? x)
                       (map (λ i : nat, (Z.of_nat rn - Z.of_nat i) mod 24)
                          (seq 0 24)))) 1)
            (seq 0 24)) (seq 0 24) = true) by (vm_compute; reflexivity).
  rewrite forallb_forall in Hall.
  specialize (Hall (Z.to_nat r)). rewrite forallb_forall in Hall.
  specialize (Hall ltac:(apply in_seq; lia) (Z.to_nat h) ltac:(apply in_seq; lia)).
  apply Nat.eqb_eq in Hall. by rewrite !Z2Nat.id in Hall by lia.
Qed.

Lemma utc_hours_once (now h : Z) :
  0 ≤ h < 24 →
  length (List.filter (λ x, h =? x)
            (map (λ i : nat, getUTCHours (now - Z.of_nat i * 60 * 60 * 1000))
               (seq 0 24))) = 1%nat.
Proof.
  intros Hh. rewrite (map_ext _ (λ i : nat, (getUTCHours now - Z.of_nat i) mod 24))
    by (intros i; apply getUTCHours_back).
  apply hours_back_once; [apply getUTCHours_bound | done].
Qed.

(** On a host whose zone is UTC the histogram of the dashboard has one
    bucket for every hour of day, and its counts add up to the number of
    stored page views later than twenty-four hours before the request: each
    of them is counted once, a page view of exactly twenty-four hours ago
    or older in no bucket. *)
Theorem utc_histogram_total (now : Z) (pageViews : list PageView) :
  let buckets := traffic_by_hour getUTCHours now pageViews in
  length buckets = 24%nat
  ∧ (∀ h, 0 ≤ h < 24 →
       length (List.filter (λ b, h =? hour b) buckets) = 1%nat)
  ∧ sum_list_with views buckets
    = length (List.filter (λ pv, now - 24 * one_hour <? pv_timestamp pv)
                pageViews).
Proof.
  cbv zeta. unfold traffic_by_hour. split_and!.
  - by rewrite length_rev, length_map, length_seq.
  - intros h Hh. rewrite List.filter_rev, length_rev, length_filter_map.
    cbn [hour].
    rewrite <- (length_filter_map (λ x, h =? x)
                  (λ i : nat, getUTCHours (now - Z.of_nat i * 60 * 60 * 1000))).
    exact (utc_hours_once now h Hh).
  - rewrite <- Permutation_rev, sum_list_with_map. cbn [views].
    rewrite <- (sum_list_with_map
                  (λ h, length (List.filter
                                  (λ pv, (now - 24 * 60 * 60 * 1000 <? pv_timestamp pv)
                                         && (getUTCHours (pv_timestamp pv) =? h))
                                  pageViews))
                  (λ i : nat, getUTCHours (now - Z.of_nat i * 60 * 60 * 1000))).
    rewrite (bucket_sum (λ pv, now - 24 * 60 * 60 * 1000 <? pv_timestamp pv)
               (λ pv, getUTCHours (pv_timestamp pv))).
    + reflexivity.
    + intros pv. apply utc_hours_once, getUTCHours_bound.
Qed.

(** ** Clicks *)

Lemma reads_inherited_own (e : string) (a : Analytics) :
  is_Some (an_events a !! e) → reads_inherited (Some e) a = false.
Proof.
  intros [x Hx]. apply not_true_is_false. rewrite reads_inherited_spec.
  intros [_ Hnone]. congruence.
Qed.

Lemma count_click_counter (action : option string) (n : string) (c : Clicks) :
  click_counter n (count_click action c)
  = if decide (action = Some n) then S <$> click_counter n c
    else click_counter n c.
Proof.
  destruct action as [a|]; cbn [count_click].
  - destruct (String.eqb_spec a "ingressos") as [-> | H1];
      [|destruct (String.eqb_spec a "info") as [-> | H2];
        [|destruct (String.eqb_spec a "local") as [-> | H3];
          [|destruct (String.eqb_spec a "pdv") as [-> | H4];
            [|destruct (String.eqb_spec a "checkout") as [-> | H5]]]]];
      unfold click_counter;
      (destruct (String.eqb_spec n "ingressos") as [-> | N1];
       [|destruct (String.eqb_spec n "info") as [-> | N2];
         [|destruct (String.eqb_spec n "local") as [-> | N3];
           [|destruct (String.eqb_spec n "pdv") as [-> | N4];
             [|destruct (String.eqb_spec n "checkout") as [-> | N5]]]]]);
      cbn; destruct (decide _) as [Heq | Hne]; try done; congruence.
  - by destruct (decide _).
Qed.

(** A click without an event identifier is answered 200 and changes
    nothing. A click whose event identifier is the name of an inherited
    property without entry is answered 500 and changes nothing either,
    the clock included. A click on any other event is answered 200 and
    raises the counter its action names by one, when it is one of
    [ingressos], [info], [local], [pdv] and [checkout], and no other of
    the five; the action [ticket_select] alone appends a ticket selection
    of the session, stamped with the clock; the views, viewers, checkouts,
    conversions and revenue of the event and every other event stay. No
    click changes the page views, the conversion records, the orders or
    the keys. *)
Theorem click_counts_named_action (body : ClickBody) (s : State) (w : World) :
  let s' := (post_click body s w).1 in
  ((cl_eventId body = None ∨ cl_eventId body = Some ""%string) →
   post_click body s w = (s, w) ∧ click_status body s = 200%nat)
  ∧ (∀ e, cl_eventId body = Some e → e ∈ inherited_names →
       an_events (analytics s) !! e = None →
       post_click body s w = (s, w) ∧ click_status body s = 500%nat)
  ∧ (∀ e, cl_eventId body = Some e → e ≠ ""%string →
       e ∉ inherited_names ∨ is_Some (an_events (analytics s) !! e) →
       let old := event_stats e s in
       let new := event_stats e s' in
       click_status body s = 200%nat
       ∧ (∀ n, click_counter n (ev_clicks new)
               = if decide (cl_action body = Some n)
                 then S <$> click_counter n (ev_clicks old)
                 else click_counter n (ev_clicks old))
       ∧ ev_ticketSelections new
         = ev_ticketSelections old
           ++ (if decide (cl_action body = Some "ticket_select"%string)
               then [(cl_sessionId body, clock w (clock_reads w))] else [])
       ∧ ev_views new = ev_views old
       ∧ ev_uniqueViews new = ev_uniqueViews old
       ∧ ev_checkouts new = ev_checkouts old
       ∧ ev_conversions new = ev_conversions old
       ∧ ev_totalRevenue new = ev_totalRevenue old
       ∧ (∀ e', e' ≠ e →
            an_events (analytics s') !! e' = an_events (analytics s) !! e'))
  ∧ an_pageViews (analytics s') = an_pageViews (analytics s)
  ∧ an_conversions (analytics s') = an_conversions (analytics s)
  ∧ orders s' = orders s ∧ pixKeys s' = pixKeys s ∧ heap s' = heap s.
Proof.
  cbv zeta. split_and!.
  - unfold post_click, click_status. intros [-> | ->]; by run_io.
  - intros e He Hin Hnone.
    assert (Hr : reads_inherited (Some e) (analytics s) = true)
      by (by apply reads_inherited_spec).
    unfold post_click, click_status. rewrite He, Hr.
    by destruct e.
  - intros e He Hne Hown.
    assert (Hr : reads_inherited (Some e) (analytics s) = false).
    { apply not_true_is_false. rewrite reads_inherited_spec.
      intros [Hin Hnone]. destruct Hown as [? | [x Hx]]; [done | congruence]. }
    unfold post_click, click_status, event_stats. rewrite He, Hr.
    destruct e as [|ch e]; [done|]. rewrite strict_eq_decide.
    set (a1 := with_event (Some (String ch e))
                 (λ st, set_clicks (count_click (cl_action body) (ev_clicks st)) st)
                 (analytics s)).
    assert (H1 : an_events a1 !! String ch e
                 = Some (set_clicks
                           (count_click (cl_action body)
                              (ev_clicks (default new_event_stats
                                            (an_events (analytics s) !! String ch e))))
                           (default new_event_stats
                              (an_events (analytics s) !! String ch e))))
      by (unfold a1; rewrite with_event_lookup by exact Hr; reflexivity).
    assert (Hother1 : ∀ e', e' ≠ String ch e →
                        an_events a1 !! e' = an_events (analytics s) !! e').
    { intros e' He'. apply with_event_other. congruence. }
    destruct (decide (cl_action body = Some "ticket_select"%string))
      as [Hsel | Hsel]; run_io; cbn [analytics set_analytics].
    + rewrite with_event_lookup by (by apply reads_inherited_own; rewrite H1).
      rewrite H1.
      cbn [default ev_clicks ev_ticketSelections ev_views ev_uniqueViews
           ev_checkouts ev_conversions ev_totalRevenue set_clicks
           push_ticketSelection].
      split_and!; try done.
      * intros n. apply count_click_counter.
      * intros e' He'. rewrite with_event_other by congruence. by apply Hother1.
    + rewrite H1.
      cbn [default ev_clicks ev_ticketSelections ev_views ev_uniqueViews
           ev_checkouts ev_conversions ev_totalRevenue set_clicks].
      split_and!; try done.
      * intros n. apply count_click_counter.
      * by rewrite app_nil_r.
  - unfold post_click. destruct (cl_eventId body) as [[|ch e]|]; try done.
    destruct (reads_inherited _ _); [done|].
    destruct (strict_eq _ _); run_io; cbn [analytics set_analytics];
      by rewrite !with_event_pageViews.
  - unfold post_click. destruct (cl_eventId body) as [[|ch e]|]; try done.
    destruct (reads_inherited _ _); [done|].
    destruct (strict_eq _ _); run_io; cbn [analytics set_analytics];
      by rewrite !with_event_conversions.
  - unfold post_click. destruct (cl_eventId body) as [[|ch e]|]; try done.
    destruct (reads_inherited _ _); [done|].
    by destruct (strict_eq _ _); run_io.
  - unfold post_click. destruct (cl_eventId body) as [[|ch e]|]; try done.
    destruct (reads_inherited _ _); [done|].
    by destruct (strict_eq _ _); run_io.
  - unfold post_click. destruct (cl_eventId body) as [[|ch e]|]; try done.
    destruct (reads_inherited _ _); [done|].
    by destruct (strict_eq _ _); run_io.
Qed.

(** ** Page views under inherited names *)

(** A page view is stored whatever its event identifier. Under the name
    of an inherited property without entry the request is answered 500
    all the same, no event entry is created and no counter changes; under
    any other identifier it is answered 200. *)
Theorem pageview_is_stored_before_it_fails
    (body : PageviewBody) (ua ip : option string) (s : State) (w : World) :
  let s' := (post_pageview body ua ip s w).1 in
  (∃ pv, an_pageViews (analytics s') = an_pageViews (analytics s) ++ [pv]
         ∧ pv_eventId pv = pvb_eventId body
         ∧ pv_sessionId pv = pvb_sessionId body
         ∧ pv_page pv = pvb_page body
         ∧ pv_id pv = uuid w (uuid_calls w)
         ∧ pv_timestamp pv = clock w (clock_reads w))
  ∧ (∀ e, pvb_eventId body = Some e → e ∈ inherited_names →
       an_events (analytics s) !! e = None →
       pageview_status body s = 500%nat
       ∧ an_events (analytics s') = an_events (analytics s))
  ∧ ((∀ e, pvb_eventId body = Some e →
           e ∉ inherited_names ∨ is_Some (an_events (analytics s) !! e)) →
     pageview_status body s = 200%nat)
  ∧ an_conversions (analytics s') = an_conversions (analytics s)
  ∧ orders s' = orders s ∧ pixKeys s' = pixKeys s ∧ heap s' = heap s.
Proof.
  cbv zeta. unfold post_pageview, pageview_status. run_io.
  cbn [analytics set_analytics orders pixKeys heap].
  rewrite with_event_pageViews, with_event_conversions.
  cbn [an_pageViews an_conversions set_pageViews]. split_and!; try done.
  - eexists. split; [reflexivity|]. done.
  - intros e He Hin Hnone.
    assert (Hr : reads_inherited (Some e) (analytics s) = true)
      by (by apply reads_inherited_spec).
    rewrite He, Hr. split; [done|].
    rewrite with_event_inherited; [done|].
    by apply reads_inherited_spec.
  - intros Hown. destruct (pvb_eventId body) as [e|]; [|done].
    replace (reads_inherited (Some e) (analytics s)) with false; [done|].
    symmetry. apply not_true_is_false. rewrite reads_inherited_spec.
    intros [Hin Hnone]. destruct (Hown e eq_refl) as [? | [x Hx]];
      [done | congruence].
Qed.

(** ** The health check *)

(** [GET /health] reports the number of active keys and of orders that
    the administration lists report, and it reports no active key exactly
    when a payment request with a complete customer and a cart is refused
    for want of a key; with a positive count such a request is accepted. *)
Theorem health_predicts_payment
    (body : PaymentBody) (s : State) (w w' : World)
    (customer : CustomerInput) (items : list ItemInput) :
  pb_customer body = Some customer → complete_customer customer = true →
  pb_items body = Some items → items ≠ [] →
  let h := (get_health s w).1 in
  health_pixKeysCount h = (get_pix_keys s).2
  ∧ health_ordersCount h = (get_admin_orders s).2
  ∧ health_ordersCount h = length (get_admin_orders s).1
  ∧ health_timestamp h = clock w (clock_reads w)
  ∧ (health_pixKeysCount h = 0%nat
     ↔ (post_payment body s w').1.1 = Err NoPixKeyAvailable)
  ∧ ((0 < health_pixKeysCount h)%nat
     ↔ is_ok (post_payment body s w').1.1 = true).
Proof.
  intros Hc Hcomplete Hi Hne. cbv zeta. unfold get_health. run_io.
  cbn [health_pixKeysCount health_ordersCount health_timestamp get_pix_keys
       get_admin_orders fst snd].
  split_and!; try done.
  - by rewrite length_map.
  - destruct (active_refs s) as [|ref refs] eqn:Hact.
    + by rewrite (post_payment_no_key body s w' customer items).
    + destruct (post_payment_success body s w' customer items
                  Hc Hcomplete Hi Hne) as (?&?&?&?&?&?& -> & _);
        [by rewrite Hact|]. done.
  - destruct (active_refs s) as [|ref refs] eqn:Hact.
    + rewrite (post_payment_no_key body s w' customer items) by done.
      cbn. split; [lia | done].
    + destruct (post_payment_success body s w' customer items
                  Hc Hcomplete Hi Hne) as (?&?&?&?&?&?& -> & _);
        [by rewrite Hact|]. cbn. split; [done | lia].
Qed.

Lemma health_predicts_payment_witness :
  health_pixKeysCount
    (get_health (initial_state 0) (sample_world 1700000000000 1 one_half)).1
  = 1%nat
  ∧ is_ok (post_payment sample_body (initial_state 0)
             (sample_world 1700000000000 1 one_half)).1.1 = true.
Proof.
  split; [reflexivity|].
  apply (health_predicts_payment sample_body (initial_state 0)
           (sample_world 1700000000000 1 one_half)
           (sample_world 1700000000000 1 one_half)
           sample_customer _ eq_refl eq_refl eq_refl).
  - discriminate.
  - vm_compute. lia.
Defined.

(** ** The cross-origin policy *)

Lemma indexOf_from_absent (x : string) (l : list string) (i : Z) :
  0 ≤ i → (indexOf_from x l i = -1 ↔ x ∉ l).
Proof.
  revert i. induction l as [|y l IH]; intros i Hi; cbn.
  - split; [intros _; apply not_elem_of_nil | done].
  - rewrite not_elem_of_cons. destruct (String.eqb_spec y x) as [-> | Hne].
    + split; [lia | tauto].
    + rewrite IH by lia. split; [by split | tauto].
Qed.

(** No origin is refused: the decision passed to the [cors] middleware is
    to allow, for a listed origin, for any other origin and for a request
    without one. An origin is reported as blocked on the console exactly
    when it is non-empty and not listed, and is allowed all the same. The
    header of the second middleware names the origin when it is listed
    and is the wildcard otherwise. *)
Theorem cors_accepts_every_origin (origin : option string) :
  let listed := ∃ o, origin = Some o ∧ o ∈ allowedOrigins in
  (cors_origin origin).1 = true
  ∧ (listed → (cors_origin origin).2 = []
              ∧ Some (allow_origin_header origin) = origin)
  ∧ (¬ listed → allow_origin_header origin = "*"%string
                ∧ (cors_origin origin).2
                  = match origin with
                    | Some (String _ _ as o) => [o]
                    | _ => []
                    end).
Proof.
  cbv zeta. unfold cors_origin, allow_origin_header.
  destruct origin as [o|].
  2:{ split_and!; try done. by intros (o & Ho & _). }
  destruct (decide (o ∈ allowedOrigins)) as [Hin | Hnot].
  - assert (Hidx : indexOf o allowedOrigins ≠ -1).
    { unfold indexOf. rewrite indexOf_from_absent by lia. tauto. }
    assert (Hex : existsb (String.eqb o) allowedOrigins = true).
    { apply existsb_exists. exists o. split; [by apply list_elem_of_In|].
      apply String.eqb_refl. }
    rewrite Hex. apply Z.eqb_neq in Hidx. rewrite Hidx.
    split_and!.
    + by destruct o.
    + intros _. by destruct o.
    + intros Hno. exfalso. apply Hno. by exists o.
  - assert (Hidx : indexOf o allowedOrigins = -1).
    { unfold indexOf. by rewrite indexOf_from_absent by lia. }
    assert (Hex : existsb (String.eqb o) allowedOrigins = false).
    { apply not_true_is_false. intros Hex.
      apply existsb_exists in Hex as (y & Hy & Heq).
      apply String.eqb_eq in Heq as ->. by apply list_elem_of_In in Hy. }
    rewrite Hex, Hidx. split_and!.
    + by destruct o.
    + intros (o' & [= <-] & Hin). done.
    + intros _. by destruct o.
Qed.
